(** * Omni-audit: the document-processing pipeline

    A shallow embedding of the extraction client ([extractFinancialData],
    [analyzeAudio]) and of the two background jobs
    ([processFinancialDocument], [processFinancialAudio]), followed by the
    properties of the pipeline.

    Conventions of the embedding.
    - A JavaScript string is the list of its UTF-16 code units ([list N]);
      [js "abc"] writes an ASCII literal.
    - An [async] function is a computation over an explicit [World]: the
      process environment, the file system, the generative model, the
      clock and the document store.  A computation returns either the
      [Error] it throws or its value, together with the new world.
    - Every [throw] of the source and of the libraries it calls raises an
      [Error] object; only its [message] is observable.
    - [step.run(name, f)] runs [f] once and hands its result on; retries
      and throttling by the job framework are outside the model.
    - [console.error] has no effect on the modelled state.
    - The world carries a trace of what an execution did: entries into
      the extraction client, file reads, model calls and applied record
      writes.  Nothing reads the trace; it is there to state what was
      and what was not done. *)

From Stdlib Require Import ZArith NArith List Ascii String Bool Lia.
From stdpp Require Import base option list gmap strings.

Set Default Proof Using "Type".
Set Warnings "-register-all".

(* ================================================================== *)
(** * Strings                                                          *)
(* ================================================================== *)

Abbreviation jsstring := (list N).

(** An ASCII literal as a JavaScript string. *)
Definition js (s : string) : jsstring :=
  map N_of_ascii (list_ascii_of_string s).

(** Code units the source and the JSON grammar name. *)
Definition LF : N := 10.
Definition QUOTE : N := 34.
Definition BACKSLASH : N := 92.

(** [has_prefix p s]: [s] starts with [p]. *)
Fixpoint has_prefix (p s : jsstring) : bool :=
  match p, s with
  | [], _ => true
  | a :: p', b :: s' => N.eqb a b && has_prefix p' s'
  | _ :: _, [] => false
  end.

(** [String.prototype.endsWith]. *)
Definition endsWith (s suffix : jsstring) : bool :=
  has_prefix (rev suffix) (rev s).

(** [s.replace(/a1|a2|.../g, '')] for literal alternatives: the text is
    scanned left to right; at each position the first alternative that
    matches is removed and the scan resumes after it.  [skip] counts the
    code units of the current match still to be dropped. *)
Fixpoint remove_all (alts : list jsstring) (skip : nat) (s : jsstring)
  : jsstring :=
  match s with
  | [] => []
  | c :: r =>
      match skip with
      | S k => remove_all alts k r
      | O =>
          match List.find (fun p => has_prefix p s) alts with
          | Some p => remove_all alts (Nat.pred (length p)) r
          | None => c :: remove_all alts 0 r
          end
      end
  end.

(** WhiteSpace and LineTerminator code units of ECMAScript, the ones
    [String.prototype.trim] removes. *)
Definition is_js_whitespace (c : N) : bool :=
  ((9 <=? c) && (c <=? 13) || (c =? 32) || (c =? 160) || (c =? 5760)
   || (8192 <=? c) && (c <=? 8202) || (c =? 8232) || (c =? 8233)
   || (c =? 8239) || (c =? 8287) || (c =? 12288) || (c =? 65279))%N.

Fixpoint trimStart (s : jsstring) : jsstring :=
  match s with
  | [] => []
  | c :: r => if is_js_whitespace c then trimStart r else s
  end.

Definition trimEnd (s : jsstring) : jsstring := rev (trimStart (rev s)).

Definition trim (s : jsstring) : jsstring := trimEnd (trimStart s).

(** The three backticks of a code fence. *)
Definition FENCE : jsstring := js "```".

(** [responseText.replace(/```json\n|\n```/g, '').replace(/```/g, '').trim()] *)
Definition strip_fences (responseText : jsstring) : jsstring :=
  trim (remove_all [FENCE] 0
          (remove_all [js "```json" ++ [LF]; LF :: FENCE] 0 responseText)).

(* ================================================================== *)
(** * JavaScript values and [JSON.parse]                               *)
(* ================================================================== *)

(** A number read from JSON text, [(-1)^neg * digits * 10^exp10]; it
    denotes the double nearest to that value. *)
Record jsnum := { num_neg : bool; num_digits : N; num_exp10 : Z }.

Inductive jsval :=
| JUndefined
| JNull
| JBool (b : bool)
| JNum (n : jsnum)
| JStr (s : jsstring)
| JArr (items : list jsval)
| JObj (members : list (jsstring * jsval)).

(** The double nearest to the number is zero: the digits are zero, or
    the magnitude is at most [2^-1075], half the least subnormal. *)
Definition num_is_zero (n : jsnum) : bool :=
  (num_digits n =? 0)%N
  || ((num_exp10 n <? 0)%Z
      && (Z.of_N (num_digits n) * 2 ^ 1075 <=? 10 ^ (- num_exp10 n))%Z).

(** ToBoolean: what [x ? a : b], [!x] and [x || y] test. *)
Definition truthy (v : jsval) : bool :=
  match v with
  | JUndefined | JNull => false
  | JBool b => b
  | JNum n => negb (num_is_zero n)
  | JStr s => match s with [] => false | _ => true end
  | JArr _ | JObj _ => true
  end.

(** [a || b] *)
Definition js_or (a b : jsval) : jsval := if truthy a then a else b.

(** Own property of an object built by [JSON.parse] or by an object
    literal: of two members with one key the later wins. *)
Fixpoint lookup_member (k : jsstring) (ms : list (jsstring * jsval))
  : option jsval :=
  match ms with
  | [] => None
  | (k', v) :: r =>
      match lookup_member k r with
      | Some v' => Some v'
      | None => if decide (k = k') then Some v else None
      end
  end.

(** [v.k] for a property name [k] that no built-in prototype defines
    (all names read by the pipeline are such): [None] is the TypeError
    of reading a property of [null] or [undefined]. *)
Definition get_prop (v : jsval) (k : jsstring) : option jsval :=
  match v with
  | JUndefined | JNull => None
  | JObj ms => Some (default JUndefined (lookup_member k ms))
  | _ => Some JUndefined
  end.

(** ** Lexical structure of JSON text *)

Inductive token :=
| TLBrace | TRBrace | TLBracket | TRBracket | TColon | TComma
| TString (s : jsstring)
| TWord (w : jsstring).   (* a literal name or a number, not yet read *)

(** JSON whitespace: space, tab, line feed, carriage return. *)
Definition is_json_ws (c : N) : bool :=
  ((c =? 32) || (c =? 9) || (c =? 10) || (c =? 13))%N.

Definition is_digit (c : N) : bool := ((48 <=? c) && (c <=? 57))%N.

(** Code units of literal names and of numbers. *)
Definition is_word_char (c : N) : bool :=
  (is_digit c || (c =? 45) || (c =? 43) || (c =? 46)
   || (97 <=? c) && (c <=? 122) || (65 <=? c) && (c <=? 90))%N.

Definition punctuation (c : N) : option token :=
  if (c =? 123)%N then Some TLBrace
  else if (c =? 125)%N then Some TRBrace
  else if (c =? 91)%N then Some TLBracket
  else if (c =? 93)%N then Some TRBracket
  else if (c =? 58)%N then Some TColon
  else if (c =? 44)%N then Some TComma
  else None.

Definition hex_value (c : N) : option N :=
  if is_digit c then Some (c - 48)%N
  else if ((97 <=? c) && (c <=? 102))%N then Some (c - 87)%N
  else if ((65 <=? c) && (c <=? 70))%N then Some (c - 55)%N
  else None.

(** The code unit an escape [\c] stands for ([\u] is handled apart). *)
Definition simple_escape (c : N) : option N :=
  if (c =? 34)%N then Some 34%N
  else if (c =? 92)%N then Some 92%N
  else if (c =? 47)%N then Some 47%N
  else if (c =? 98)%N then Some 8%N
  else if (c =? 102)%N then Some 12%N
  else if (c =? 110)%N then Some 10%N
  else if (c =? 114)%N then Some 13%N
  else if (c =? 116)%N then Some 9%N
  else None.

(** Where the scanner is; accumulators hold code units most recent
    first. *)
Inductive lexmode :=
| Idle
| InWord (acc : jsstring)
| InString (acc : jsstring)
| InEscape (acc : jsstring)
| InUnicode (acc : jsstring) (hex : list N).

Definition lex_idle (c : N) : option (list token * lexmode) :=
  if is_json_ws c then Some ([], Idle)
  else if (c =? QUOTE)%N then Some ([], InString [])
  else match punctuation c with
       | Some t => Some ([t], Idle)
       | None => if is_word_char c then Some ([], InWord [c]) else None
       end.

Definition lex_step (m : lexmode) (c : N) : option (list token * lexmode) :=
  match m with
  | Idle => lex_idle c
  | InWord acc =>
      if is_word_char c then Some ([], InWord (c :: acc))
      else match lex_idle c with
           | Some (ts, m') => Some (TWord (rev acc) :: ts, m')
           | None => None
           end
  | InString acc =>
      if (c =? QUOTE)%N then Some ([TString (rev acc)], Idle)
      else if (c =? BACKSLASH)%N then Some ([], InEscape acc)
      else if (c <? 32)%N then None
      else Some ([], InString (c :: acc))
  | InEscape acc =>
      if (c =? 117)%N then Some ([], InUnicode acc [])
      else match simple_escape c with
           | Some u => Some ([], InString (u :: acc))
           | None => None
           end
  | InUnicode acc hex =>
      match hex_value c with
      | None => None
      | Some h =>
          match hex with
          | [h3; h2; h1] =>
              Some ([], InString ((((h1 * 16 + h2) * 16 + h3) * 16 + h)%N :: acc))
          | _ => Some ([], InUnicode acc (h :: hex))
          end
      end
  end.

Definition lex_end (m : lexmode) : option (list token) :=
  match m with
  | Idle => Some []
  | InWord acc => Some [TWord (rev acc)]
  | _ => None
  end.

Fixpoint lex (m : lexmode) (s : jsstring) : option (list token) :=
  match s with
  | [] => lex_end m
  | c :: r =>
      match lex_step m c with
      | None => None
      | Some (ts, m') =>
          match lex m' r with
          | None => None
          | Some ts' => Some (ts ++ ts')
          end
      end
  end.

(** ** Numbers *)

Fixpoint take_digits (s : jsstring) : jsstring * jsstring :=
  match s with
  | [] => ([], [])
  | c :: r =>
      if is_digit c
      then let '(d, r') := take_digits r in (c :: d, r')
      else ([], s)
  end.

Definition digits_value (ds : jsstring) : N :=
  fold_left (fun acc d => (acc * 10 + (d - 48))%N) ds 0%N.

(** [0] or a digit sequence that does not start with [0]. *)
Definition int_part_ok (ds : jsstring) : bool :=
  match ds with
  | [] => false
  | [_] => true
  | d :: _ => negb (d =? 48)%N
  end.

(** The fraction: nothing, or a dot and at least one digit. *)
Definition parse_fraction (w : jsstring) : option (jsstring * jsstring) :=
  match w with
  | c :: r =>
      if (c =? 46)%N
      then match take_digits r with
           | ([], _) => None
           | (fp, r') => Some (fp, r')
           end
      else Some ([], w)
  | [] => Some ([], w)
  end.

(** The exponent, which ends the word: nothing, or [e]/[E], an optional
    sign and at least one digit. *)
Definition parse_exponent (w : jsstring) : option Z :=
  match w with
  | [] => Some 0%Z
  | c :: r =>
      if ((c =? 101) || (c =? 69))%N
      then
        let '(neg, r1) :=
          match r with
          | s :: r' =>
              if (s =? 45)%N then (true, r')
              else if (s =? 43)%N then (false, r')
              else (false, r)
          | [] => (false, r)
          end in
        match take_digits r1 with
        | ((_ :: _) as ds, []) =>
            let e := Z.of_N (digits_value ds) in
            Some (if neg then (- e)%Z else e)
        | _ => None
        end
      else None
  end.

Definition parse_number (w : jsstring) : option jsnum :=
  let '(neg, w1) :=
    match w with
    | c :: r => if (c =? 45)%N then (true, r) else (false, w)
    | [] => (false, w)
    end in
  let '(ip, w2) := take_digits w1 in
  if int_part_ok ip then
    match parse_fraction w2 with
    | None => None
    | Some (fp, w3) =>
        match parse_exponent w3 with
        | None => None
        | Some e =>
            Some {| num_neg := neg;
                    num_digits := digits_value (ip ++ fp);
                    num_exp10 := (e - Z.of_nat (length fp))%Z |}
        end
    end
  else None.

Definition word_value (w : jsstring) : option jsval :=
  if decide (w = js "true") then Some (JBool true)
  else if decide (w = js "false") then Some (JBool false)
  else if decide (w = js "null") then Some JNull
  else JNum <$> parse_number w.

(** ** Grammar *)

Fixpoint parse_value (fuel : nat) (ts : list token)
  : option (jsval * list token) :=
  match fuel with
  | O => None
  | S f =>
      match ts with
      | TWord w :: r =>
          match word_value w with
          | Some v => Some (v, r)
          | None => None
          end
      | TString s :: r => Some (JStr s, r)
      | TLBracket :: TRBracket :: r => Some (JArr [], r)
      | TLBracket :: r =>
          match parse_elements f r with
          | Some (vs, r') => Some (JArr vs, r')
          | None => None
          end
      | TLBrace :: TRBrace :: r => Some (JObj [], r)
      | TLBrace :: r =>
          match parse_members f r with
          | Some (ms, r') => Some (JObj ms, r')
          | None => None
          end
      | _ => None
      end
  end
with parse_elements (fuel : nat) (ts : list token)
  : option (list jsval * list token) :=
  match fuel with
  | O => None
  | S f =>
      match parse_value f ts with
      | Some (v, TComma :: r) =>
          match parse_elements f r with
          | Some (vs, r') => Some (v :: vs, r')
          | None => None
          end
      | Some (v, TRBracket :: r) => Some ([v], r)
      | _ => None
      end
  end
with parse_members (fuel : nat) (ts : list token)
  : option (list (jsstring * jsval) * list token) :=
  match fuel with
  | O => None
  | S f =>
      match ts with
      | TString k :: TColon :: r =>
          match parse_value f r with
          | Some (v, TComma :: r') =>
              match parse_members f r' with
              | Some (ms, r'') => Some ((k, v) :: ms, r'')
              | None => None
              end
          | Some (v, TRBrace :: r') => Some ([(k, v)], r')
          | _ => None
          end
      | _ => None
      end
  end.

(** [JSON.parse text]: the value, or [None] for the SyntaxError. *)
Definition JSON_parse (text : jsstring) : option jsval :=
  match lex Idle text with
  | None => None
  | Some ts =>
      match parse_value (S (length ts)) ts with
      | Some (v, []) => Some v
      | _ => None
      end
  end.

(* ================================================================== *)
(** * The world of a job execution                                     *)
(* ================================================================== *)

Inductive exn := Error (message : jsstring).

Definition message (e : exn) : jsstring := match e with Error m => m end.

(** A file as the two reads of the source see it: decoded as UTF-8 text
    ([readFile(path, 'utf-8')]) and as the base64 of its bytes
    ([readFileSync(path).toString('base64')]). *)
Record file := { utf8_text : jsstring; base64_data : jsstring }.

(** A path that exists holds a file, or something whose read throws (a
    directory, a file without read permission). *)
Inductive fs_entry :=
| Readable (f : file)
| Unreadable (msg : jsstring).

(** What is sent to [model.generateContent]: the fixed instructions of
    [extractFinancialData] around the document content, or those of
    [analyzeAudio] with the inline audio part. *)
Inductive request :=
| DocumentPrompt (fileContent : jsstring)
| AudioPrompt (mimeType base64Data : jsstring).

(** The value of a record field. *)
Inductive field :=
| FValue (v : jsval)
| FDateOf (v : jsval)     (* new Date(v) *)
| FDateAt (t : Z).        (* new Date() read at clock t *)

(** An update document: the object literal passed to
    [findByIdAndUpdate], in source order. *)
Abbreviation update := (list (string * field)).

(** What an execution does to its surroundings, most recent first:
    entries into the extraction client, file reads, model calls and the
    writes the store applied to a record. *)
Inductive event :=
| EvExtractFinancialData (fileContent : jsstring)
| EvAnalyzeAudio (filePath fileType : jsstring)
| EvReadFile (path : jsstring)
| EvGenerate (req : request)
| EvMutate (id : jsstring) (upd : update).

(** What an execution finds and does not change. *)
Record Env := {
  (** [process.env.GEMINI_API_KEY] *)
  GEMINI_API_KEY : option jsstring;
  files : gmap jsstring fs_entry;
  (** the model's answer to a request: the message of the error the
      call (or [response.text()]) throws, or the response text *)
  model : request -> jsstring + jsstring;
  clock : Z;
  (** the message [connectToDatabase] throws, if it does *)
  connect_fault : option jsstring;
  (** the message the store throws on a write instead of running it
      (transport, authentication), if it does *)
  write_fault : jsstring -> update -> option jsstring;
  (** message texts chosen by the runtime *)
  syntax_error_message : jsstring -> jsstring;
  type_error_message : jsval -> jsstring -> jsstring;
  enoent_message : jsstring -> jsstring;
}.

Record World := {
  env : Env;
  store : gmap jsstring (gmap string field);
  trace : list event;
}.

Definition with_trace (w : World) (t : list event) : World :=
  {| env := env w; store := store w; trace := t |}.

Definition with_store (w : World) (s : gmap jsstring (gmap string field))
  : World :=
  {| env := env w; store := s; trace := trace w |}.

(** ** Computations *)

Definition M (A : Type) : Type := World -> (exn + A) * World.

Definition ret {A} (a : A) : M A := fun w => (inr a, w).

Definition throw {A} (e : exn) : M A := fun w => (inl e, w).

Definition bind {A B} (m : M A) (k : A -> M B) : M B :=
  fun w =>
    match m w with
    | (inl e, w') => (inl e, w')
    | (inr a, w') => k a w'
    end.

(** [try { m } catch (error) { h error }] *)
Definition try_catch {A} (m : M A) (h : exn -> M A) : M A :=
  fun w =>
    match m w with
    | (inl e, w') => h e w'
    | (inr a, w') => (inr a, w')
    end.

Declare Scope js_scope.
Delimit Scope js_scope with M.
Notation "x <- m ;; k" := (bind m (fun x => k))
  (at level 100, m at next level, right associativity) : js_scope.
Notation "m ;; k" := (bind m (fun _ => k))
  (at level 100, right associativity) : js_scope.
Local Open Scope js_scope.

(** [step.run(name, f)] *)
Definition step_run {A} (name : string) (f : M A) : M A := f.

(** ** Primitive operations *)

Definition getenv_GEMINI_API_KEY : M (option jsstring) :=
  fun w => (inr (GEMINI_API_KEY (env w)), w).

(** [!apiKey]: the variable is unset or empty. *)
Definition key_missing (apiKey : option jsstring) : bool :=
  match apiKey with
  | None | Some [] => true
  | Some (_ :: _) => false
  end.

Definition existsSync (path : jsstring) : M bool :=
  fun w => (inr (bool_decide (is_Some (files (env w) !! path))), w).

Definition read_entry (e : Env) (path : jsstring) : exn + file :=
  match files e !! path with
  | Some (Readable f) => inr f
  | Some (Unreadable msg) => inl (Error msg)
  | None => inl (Error (enoent_message e path))
  end.

(** [fs.promises.readFile(path, 'utf-8')] *)
Definition readFile_utf8 (path : jsstring) : M jsstring :=
  fun w =>
    let w' := with_trace w (EvReadFile path :: trace w) in
    match read_entry (env w) path with
    | inl e => (inl e, w')
    | inr f => (inr (utf8_text f), w')
    end.

(** [fs.readFileSync(path).toString('base64')] *)
Definition readFileSync_base64 (path : jsstring) : M jsstring :=
  fun w =>
    let w' := with_trace w (EvReadFile path :: trace w) in
    match read_entry (env w) path with
    | inl e => (inl e, w')
    | inr f => (inr (base64_data f), w')
    end.

(** [(await model.generateContent(req)).response.text()] *)
Definition generateContent (req : request) : M jsstring :=
  fun w =>
    let w' := with_trace w (EvGenerate req :: trace w) in
    match model (env w) req with
    | inl msg => (inl (Error msg), w')
    | inr text => (inr text, w')
    end.

Definition JSON_parse_or_throw (text : jsstring) : M jsval :=
  fun w =>
    match JSON_parse text with
    | Some v => (inr v, w)
    | None => (inl (Error (syntax_error_message (env w) text)), w)
    end.

(** [v.k] *)
Definition read_prop (v : jsval) (k : string) : M jsval :=
  fun w =>
    match get_prop v (js k) with
    | Some x => (inr x, w)
    | None => (inl (Error (type_error_message (env w) v (js k))), w)
    end.

(** [new Date()] *)
Definition new_Date : M field := fun w => (inr (FDateAt (clock (env w))), w).

(** ** The document store *)

(** Modelled from the spec: the connection to the store (the module
    [../mongoose] is not among the sources).  The store is an external
    collaborator whose "transport/auth" can fail: connecting succeeds
    or throws. *)
Definition connectToDatabase : M unit :=
  fun w =>
    match connect_fault (env w) with
    | Some msg => (inl (Error msg), w)
    | None => (inr tt, w)
    end.

(** Modelled from the spec: what a write does to the "mutable status
    and extracted fields" of a record.  It sets the fields the update
    lists, in order; a field listed as [undefined] is left as it was. *)
Definition apply_update (upd : update) (r : gmap string field)
  : gmap string field :=
  foldl (fun acc kv =>
           match snd kv with
           | FValue JUndefined => acc
           | v => <[fst kv := v]> acc
           end) r upd.

(** Modelled from the spec: the Document Record Store, whose model
    ([FinancialDocument]) and connection are not among the sources.  It
    is "a persistent collection of document records keyed by identifier,
    with mutable status and extracted fields"; a write goes "to the
    Document Record identified by documentId" and finds either that
    record or none, unless the "store write itself errored".
    [findByIdAndUpdate id upd] answers the record it found ([None] for
    JavaScript's [null]) and applies [upd] to it. *)
Definition findByIdAndUpdate (id : jsstring) (upd : update)
  : M (option (gmap string field)) :=
  fun w =>
    match write_fault (env w) id upd with
    | Some msg => (inl (Error msg), w)
    | None =>
        match store w !! id with
        | None => (inr None, w)
        | Some r =>
            (inr (Some r),
             with_trace
               (with_store w (<[id := apply_update upd r]> (store w)))
               (EvMutate id upd :: trace w))
        end
    end.

(** Entry into a function of the extraction client. *)
Definition enter (e : event) : M unit :=
  fun w => (inr tt, with_trace w (e :: trace w)).

(* ================================================================== *)
(** * The extraction client                                            *)
(* ================================================================== *)

Definition extractFinancialData (fileContent : jsstring) : M jsval :=
  enter (EvExtractFinancialData fileContent) ;;
  try_catch
    (apiKey <- getenv_GEMINI_API_KEY ;;
     (if key_missing apiKey
      then throw (Error (js "GEMINI_API_KEY is missing"))
      else ret tt) ;;
     responseText <- generateContent (DocumentPrompt fileContent) ;;
     let jsonString := strip_fences responseText in
     data <- JSON_parse_or_throw jsonString ;;
     ret data)
    (fun error =>
       throw (Error (js "Failed to extract financial data from document: "
                       ++ message error))).

Definition analyzeAudio (filePath fileType : jsstring) : M jsval :=
  enter (EvAnalyzeAudio filePath fileType) ;;
  try_catch
    (apiKey <- getenv_GEMINI_API_KEY ;;
     (if key_missing apiKey
      then throw (Error (js "GEMINI_API_KEY is missing"))
      else ret tt) ;;
     base64Data <- readFileSync_base64 filePath ;;
     responseText <- generateContent (AudioPrompt fileType base64Data) ;;
     let jsonString := strip_fences responseText in
     data <- JSON_parse_or_throw jsonString ;;
     sentiment <- read_prop data "sentiment" ;;
     speakers <- read_prop data "speakers" ;;
     topics <- read_prop data "topics" ;;
     transcript <- read_prop data "transcript" ;;
     ret (JObj [(js "sentiment", sentiment);
                (js "speakers", speakers);
                (js "topics", topics);
                (js "transcript", transcript)]))
    (fun error =>
       throw (Error (js "Failed to analyze audio with Gemini: "
                       ++ message error))).

(* ================================================================== *)
(** * The background jobs                                              *)
(* ================================================================== *)

(** [event.data] *)
Record event_data := { documentId : jsstring; filePath : jsstring }.

(** [v ? new Date(v) : undefined] *)
Definition date_or_undefined (v : jsval) : field :=
  if truthy v then FDateOf v else FValue JUndefined.

(** The update that marks a document as failed.  [error instanceof
    Error] holds of every exception of the model. *)
Definition failed_update (error : exn) (now : field) : update :=
  [("status", FValue (JStr (js "FAILED")));
   ("processingError", FValue (JStr (message error)));
   ("processedAt", now)]%string.

Definition not_found_message (documentId : jsstring) : jsstring :=
  js "Document with ID " ++ documentId ++ js " not found".

(** [{ documentId, status: 'completed' }] *)
Definition completed (documentId : jsstring) : jsval :=
  JObj [(js "documentId", JStr documentId);
        (js "status", JStr (js "completed"))].

(** Step 1 of the document job. *)
Definition read_file (filePath : jsstring) : M jsstring :=
  try_catch
    (found <- existsSync filePath ;;
     (if negb found
      then throw (Error (js "File not found at path: " ++ filePath))
      else ret tt) ;;
     readFile_utf8 filePath)
    (fun error =>
       throw (Error (js "Failed to read uploaded file: " ++ message error))).

(** Step 2 of the document job. *)
Definition extract_data_with_ai (fileContent : jsstring) : M jsval :=
  try_catch
    (extractFinancialData fileContent)
    (fun error =>
       throw (Error (js "AI Extraction Failed: " ++ message error))).

(** The success update of the document job, fields in source order. *)
Definition document_update (extractedData : jsval) : M update :=
  documentType <- read_prop extractedData "documentType" ;;
  invoiceNumber <- read_prop extractedData "invoiceNumber" ;;
  invoiceDate <- read_prop extractedData "invoiceDate" ;;
  dueDate <- read_prop extractedData "dueDate" ;;
  vendorName <- read_prop extractedData "vendorName" ;;
  vendorAddress <- read_prop extractedData "vendorAddress" ;;
  clientName <- read_prop extractedData "clientName" ;;
  clientAddress <- read_prop extractedData "clientAddress" ;;
  subtotal <- read_prop extractedData "subtotal" ;;
  taxAmount <- read_prop extractedData "taxAmount" ;;
  totalAmount <- read_prop extractedData "totalAmount" ;;
  currency <- read_prop extractedData "currency" ;;
  lineItems <- read_prop extractedData "lineItems" ;;
  now <- new_Date ;;
  ret [("status", FValue (JStr (js "COMPLETED")));
       ("documentType", FValue documentType);
       ("invoiceNumber", FValue invoiceNumber);
       ("invoiceDate", date_or_undefined invoiceDate);
       ("dueDate", date_or_undefined dueDate);
       ("vendorName", FValue vendorName);
       ("vendorAddress", FValue vendorAddress);
       ("clientName", FValue clientName);
       ("clientAddress", FValue clientAddress);
       ("subtotal", FValue subtotal);
       ("taxAmount", FValue taxAmount);
       ("totalAmount", FValue totalAmount);
       ("currency", FValue currency);
       ("lineItems", FValue lineItems);
       ("processedAt", now)]%string.

(** The [catch] of both [update-database] steps. *)
Definition mark_failed {A} (documentId : jsstring) (error : exn) : M A :=
  now <- new_Date ;;
  findByIdAndUpdate documentId (failed_update error now) ;;
  throw error.

(** Step 3 of the document job. *)
Definition update_database (documentId : jsstring) (extractedData : jsval)
  : M unit :=
  connectToDatabase ;;
  try_catch
    (upd <- document_update extractedData ;;
     updateResult <- findByIdAndUpdate documentId upd ;;
     (if negb (bool_decide (is_Some updateResult))
      then throw (Error (not_found_message documentId))
      else ret tt) ;;
     ret tt)
    (fun error => mark_failed documentId error).

Definition processFinancialDocument (ev : event_data) : M jsval :=
  let documentId := documentId ev in
  let filePath := filePath ev in
  fileContent <- step_run "read-file" (read_file filePath) ;;
  extractedData <-
    step_run "extract-data-with-ai" (extract_data_with_ai fileContent) ;;
  step_run "update-database" (update_database documentId extractedData) ;;
  ret (completed documentId).

(** [filePath.endsWith('.wav') ? 'audio/wav' : 'audio/mp3'] *)
Definition audio_fileType (filePath : jsstring) : jsstring :=
  if endsWith filePath (js ".wav") then js "audio/wav" else js "audio/mp3".

(** Step 1 of the audio job. *)
Definition analyze_audio_gemini (filePath : jsstring) : M jsval :=
  try_catch
    (found <- existsSync filePath ;;
     (if negb found
      then throw (Error (js "Audio file not found at path: " ++ filePath))
      else ret tt) ;;
     let fileType := audio_fileType filePath in
     analyzeAudio filePath fileType)
    (fun error =>
       throw (Error (js "Failed to analyze audio with Gemini: "
                       ++ message error))).

(** The success update of the audio job. *)
Definition audio_update (analysisData : jsval) : M update :=
  transcript <- read_prop analysisData "transcript" ;;
  sentiment <- read_prop analysisData "sentiment" ;;
  speakers <- read_prop analysisData "speakers" ;;
  topics <- read_prop analysisData "topics" ;;
  now <- new_Date ;;
  ret [("status", FValue (JStr (js "COMPLETED")));
       ("transcript",
        FValue (js_or transcript (JStr (js "Transcript not available"))));
       ("sentiment", FValue sentiment);
       ("speakers", FValue speakers);
       ("topics", FValue topics);
       ("processedAt", now)]%string.

(** Step 2 of the audio job. *)
Definition update_database_audio (documentId : jsstring) (analysisData : jsval)
  : M unit :=
  connectToDatabase ;;
  try_catch
    (upd <- audio_update analysisData ;;
     updateResult <- findByIdAndUpdate documentId upd ;;
     (if negb (bool_decide (is_Some updateResult))
      then throw (Error (not_found_message documentId))
      else ret tt))
    (fun error => mark_failed documentId error).

Definition processFinancialAudio (ev : event_data) : M jsval :=
  let documentId := documentId ev in
  let filePath := filePath ev in
  analysisData <-
    step_run "analyze-audio-gemini" (analyze_audio_gemini filePath) ;;
  step_run "update-database" (update_database_audio documentId analysisData) ;;
  ret (completed documentId).

(* ================================================================== *)
(** * Observations on an execution                                     *)
(* ================================================================== *)

Arguments js : simpl never.

(** The record writes among some events. *)
Definition mutations (t : list event) : list (jsstring * update) :=
  omap (fun e => match e with
                 | EvMutate id upd => Some (id, upd)
                 | _ => None
                 end) t.

(** The events an execution of [m] from [w] adds to the trace. *)
Definition events_of {A} (m : M A) (w : World) : list event :=
  take (length (trace (snd (m w))) - length (trace w)) (trace (snd (m w))).

(** A field of the record [id], if the record and the field exist. *)
Definition field_of (w : World) (id : jsstring) (k : string) : option field :=
  match store w !! id with
  | Some r => r !! k
  | None => None
  end.

(** A field of an update document; the later of two entries wins. *)
Fixpoint update_field (k : string) (upd : update) : option field :=
  match upd with
  | [] => None
  | (k', v) :: r =>
      match update_field k r with
      | Some v' => Some v'
      | None => if decide (k = k') then Some v else None
      end
  end.

(** [text] occurs in [s]. *)
Definition contains (s text : jsstring) : Prop :=
  exists before after, s = before ++ text ++ after.

(** A computation that touches neither the store nor the environment:
    all it leaves behind is events that are not record writes. *)
Definition quiet {A} (m : M A) : Prop :=
  forall w, exists evs,
    snd (m w) = with_trace w (evs ++ trace w) /\ mutations evs = [].

(** [v.k], [undefined] where the read throws. *)
Definition prop (v : jsval) (k : string) : jsval :=
  default JUndefined (get_prop v (js k)).

(** The object literal of the document job's success write. *)
Definition document_fields (d : jsval) (now : field) : update :=
  [("status", FValue (JStr (js "COMPLETED")));
   ("documentType", FValue (prop d "documentType"));
   ("invoiceNumber", FValue (prop d "invoiceNumber"));
   ("invoiceDate", date_or_undefined (prop d "invoiceDate"));
   ("dueDate", date_or_undefined (prop d "dueDate"));
   ("vendorName", FValue (prop d "vendorName"));
   ("vendorAddress", FValue (prop d "vendorAddress"));
   ("clientName", FValue (prop d "clientName"));
   ("clientAddress", FValue (prop d "clientAddress"));
   ("subtotal", FValue (prop d "subtotal"));
   ("taxAmount", FValue (prop d "taxAmount"));
   ("totalAmount", FValue (prop d "totalAmount"));
   ("currency", FValue (prop d "currency"));
   ("lineItems", FValue (prop d "lineItems"));
   ("processedAt", now)]%string.

(** The object literal of the audio job's success write. *)
Definition audio_fields (a : jsval) (now : field) : update :=
  [("status", FValue (JStr (js "COMPLETED")));
   ("transcript",
    FValue (js_or (prop a "transcript")
                  (JStr (js "Transcript not available"))));
   ("sentiment", FValue (prop a "sentiment"));
   ("speakers", FValue (prop a "speakers"));
   ("topics", FValue (prop a "topics"));
   ("processedAt", now)]%string.

(** [null] or [undefined]: the values whose properties cannot be read. *)
Definition nullish (v : jsval) : bool :=
  match v with
  | JUndefined | JNull => true
  | _ => false
  end.

(** The shape shared by the two [update-database] steps: connect, try
    the success write built by [mk], mark the document failed otherwise. *)
Definition persist (id : jsstring) (mk : M update) : M unit :=
  connectToDatabase ;;
  try_catch
    (upd <- mk ;;
     updateResult <- findByIdAndUpdate id upd ;;
     if negb (bool_decide (is_Some updateResult))
     then throw (Error (not_found_message id))
     else ret tt)
    (fun error => mark_failed id error).

(** The world after the store applied [upd] to the record [r] of [id]. *)
Definition written (w : World) (id : jsstring) (upd : update)
  (r : gmap string field) : World :=
  with_trace (with_store w (<[id := apply_update upd r]> (store w)))
             (EvMutate id upd :: trace w).

(** The current time as [new Date()] gives it. *)
Definition now (w : World) : field := FDateAt (clock (env w)).

(** The two jobs side by side. *)
Inductive job_kind := DocumentJob | AudioJob.

Definition run_job (k : job_kind) (ev : event_data) : M jsval :=
  match k with
  | DocumentJob => processFinancialDocument ev
  | AudioJob => processFinancialAudio ev
  end.

(** The steps before [update-database]: steps 1 and 2 of the document
    job (read, extract), step 1 of the audio job (both at once). *)
Definition extraction_steps (k : job_kind) (ev : event_data) : M jsval :=
  match k with
  | DocumentJob =>
      fileContent <- read_file (filePath ev) ;;
      extract_data_with_ai fileContent
  | AudioJob => analyze_audio_gemini (filePath ev)
  end.

(** The success update of a job for extracted data [d]. *)
Definition success_fields (k : job_kind) (d : jsval) (t : field) : update :=
  match k with
  | DocumentJob => document_fields d t
  | AudioJob => audio_fields d t
  end.

(** The one default [FinancialDocumentSchema] declares: the currency
    its [parse] would give an object without one. *)
Definition FinancialDocumentSchema_default_currency : jsval :=
  JStr (js "USD").

(** The text the failing step puts before the message it wraps. *)
Definition step_prefix (k : job_kind) : jsstring :=
  match k with
  | DocumentJob => js "AI Extraction Failed: "
  | AudioJob => js "Failed to analyze audio with Gemini: "
  end.

(** The extraction client, called by the job on the content it
    acquired, raises [e0] and leaves the world [w1]. *)
Definition extraction_raises (k : job_kind) (ev : event_data)
  (w : World) (e0 : exn) (w1 : World) : Prop :=
  match k with
  | DocumentJob =>
      exists fileContent w0,
        read_file (filePath ev) w = (inr fileContent, w0)
        /\ extractFinancialData fileContent w0 = (inl e0, w1)
  | AudioJob =>
      is_Some (files (env w) !! filePath ev)
      /\ analyzeAudio (filePath ev) (audio_fileType (filePath ev)) w
         = (inl e0, w1)
  end.

(** A computation that adds only events satisfying [P] to the trace. *)
Definition emits {A} (P : event -> Prop) (m : M A) : Prop :=
  forall w, exists evs,
    trace (snd (m w)) = evs ++ trace w /\ Forall P evs.

(** The event hands [mime] to the extraction client or to the model as
    the type of the audio at [path]. *)
Definition carries_mime (path mime : jsstring) (e : event) : Prop :=
  match e with
  | EvAnalyzeAudio p t => p = path /\ t = mime
  | EvGenerate (AudioPrompt m _) => m = mime
  | _ => True
  end.

(** The store sets the field: its value is not [undefined]. *)
Definition defined_field (kv : string * field) : bool :=
  match snd kv with
  | FValue JUndefined => false
  | _ => true
  end.

(** [p] occurs somewhere in [s]. *)
Fixpoint occurs (p s : jsstring) : bool :=
  has_prefix p s
  || match s with
     | [] => false
     | _ :: r => occurs p r
     end.

(** A code fence around [text]: three backticks, the tag [json] or
    none, a line feed; the text; a line feed and three backticks. *)
Definition fence_open (tagged : bool) : jsstring :=
  if tagged then js "```json" ++ [LF] else FENCE ++ [LF].

Definition wrap (tagged : bool) (text : jsstring) : jsstring :=
  fence_open tagged ++ text ++ LF :: FENCE.

(** The object [analyzeAudio] builds from the parsed data. *)
Definition analysis_of (data : jsval) : jsval :=
  JObj [(js "sentiment", prop data "sentiment");
        (js "speakers", prop data "speakers");
        (js "topics", prop data "topics");
        (js "transcript", prop data "transcript")].

(** ** Sample executions *)

Module Scenario.

(** A string literal of JSON text. *)
Definition q (s : string) : jsstring := QUOTE :: js s ++ [QUOTE].

(** [text] in a code fence tagged [json]. *)
Definition fenced (text : jsstring) : jsstring := wrap true text.

Definition invoice_json : jsstring :=
  js "{" ++ q "documentType" ++ js ": " ++ q "Invoice" ++ js ", "
     ++ q "invoiceNumber" ++ js ": " ++ q "123" ++ js ", "
     ++ q "totalAmount" ++ js ": 500}".

Definition call_json (transcript : jsstring) : jsstring :=
  js "{" ++ q "sentiment" ++ js ": " ++ q "Positive" ++ js ", "
     ++ q "speakers" ++ js ": [" ++ q "Speaker 1" ++ js "], "
     ++ q "topics" ++ js ": [" ++ q "budget" ++ js "], "
     ++ q "transcript" ++ js ": " ++ transcript ++ js "}".

(** An object whose one string holds three backticks. *)
Definition backticks_json : jsstring :=
  js "{" ++ q "a" ++ js ":" ++ q "```" ++ js "}".

Definition invoice_event : event_data :=
  {| documentId := js "d1"; filePath := js "/tmp/invoice.txt" |}.

Definition call_event : event_data :=
  {| documentId := js "d2"; filePath := js "/tmp/call.wav" |}.

Definition disk : gmap jsstring fs_entry :=
  {[ js "/tmp/invoice.txt" :=
       Readable {| utf8_text := js "Invoice #123, Total: $500";
                   base64_data := js "SW52b2ljZSAjMTIzLCBUb3RhbDogJDUwMA==" |};
     js "/tmp/call.wav" :=
       Readable {| utf8_text := js "RIFF"; base64_data := js "UklGRg==" |} ]}.

(** The model answers a document with [document_answer] and an audio
    part with [audio_answer]. *)
Definition environment (key : option jsstring)
  (disk : gmap jsstring fs_entry)
  (document_answer audio_answer : jsstring + jsstring) : Env :=
  {| GEMINI_API_KEY := key;
     files := disk;
     model := fun req => match req with
                         | DocumentPrompt _ => document_answer
                         | AudioPrompt _ _ => audio_answer
                         end;
     clock := 1700000000000;
     connect_fault := None;
     write_fault := fun _ _ => None;
     syntax_error_message := fun _ => js "Unexpected token";
     type_error_message := fun _ _ => js "Cannot read properties of null";
     enoent_message := fun _ => js "ENOENT: no such file or directory" |}.

(** Records as the upload endpoint creates them. *)
Definition uploaded : gmap jsstring (gmap string field) :=
  {[ js "d1" := {[ "status"%string := FValue (JStr (js "PROCESSING")) ]};
     js "d2" := {[ "status"%string := FValue (JStr (js "PROCESSING")) ]} ]}.

Definition world (e : Env) (s : gmap jsstring (gmap string field)) : World :=
  {| env := e; store := s; trace := [] |}.

Definition invoice_text : jsstring := js "Invoice #123, Total: $500".

(** What [invoice_json] parses to. *)
Definition invoice_data : jsval :=
  JObj [(js "documentType", JStr (js "Invoice"));
        (js "invoiceNumber", JStr (js "123"));
        (js "totalAmount",
         JNum {| num_neg := false; num_digits := 500; num_exp10 := 0 |})].

(** The events of the document job up to the update step. *)
Definition invoice_trace : list event :=
  [EvGenerate (DocumentPrompt invoice_text);
   EvExtractFinancialData invoice_text;
   EvReadFile (js "/tmp/invoice.txt")].

(** What [analyzeAudio] returns for [call_json (q "Hello")]. *)
Definition call_analysis : jsval :=
  JObj [(js "sentiment", JStr (js "Positive"));
        (js "speakers", JArr [JStr (js "Speaker 1")]);
        (js "topics", JArr [JStr (js "budget")]);
        (js "transcript", JStr (js "Hello"))].

(** The events of the audio job up to the update step. *)
Definition call_trace : list event :=
  [EvGenerate (AudioPrompt (js "audio/wav") (js "UklGRg=="));
   EvReadFile (js "/tmp/call.wav");
   EvAnalyzeAudio (js "/tmp/call.wav") (js "audio/wav")].

(** Everything in place. *)
Definition healthy : World :=
  world (environment (Some (js "key")) disk
           (inr (fenced invoice_json))
           (inr (fenced (call_json (q "Hello")))))
        uploaded.

(** The uploaded files are gone. *)
Definition missing_file : World :=
  world (environment (Some (js "key")) ∅
           (inr (fenced invoice_json))
           (inr (fenced (call_json (q "Hello")))))
        uploaded.

(** The model call fails. *)
Definition model_down : World :=
  world (environment (Some (js "key")) disk
           (inl (js "429 Too Many Requests"))
           (inl (js "429 Too Many Requests")))
        uploaded.

(** No record was created for the events. *)
Definition no_record : World :=
  world (environment (Some (js "key")) disk
           (inr (fenced invoice_json))
           (inr (fenced (call_json (q "Hello")))))
        ∅.

(** The credential is not set. *)
Definition no_key : World :=
  world (environment None disk
           (inr (fenced invoice_json))
           (inr (fenced (call_json (q "Hello")))))
        uploaded.

(** The model answers a fenced object with backticks in a string. *)
Definition backticks : World :=
  world (environment (Some (js "key")) disk
           (inr (fenced backticks_json))
           (inr (fenced backticks_json)))
        uploaded.

(** The model answers an analysis whose transcript is [null]. *)
Definition null_transcript : World :=
  world (environment (Some (js "key")) disk
           (inr (fenced invoice_json))
           (inr (fenced (call_json (js "null")))))
        uploaded.

End Scenario.

(* ================================================================== *)
(** * Further observations                                             *)
(* ================================================================== *)

(** The requests sent to the model among some events. *)
Definition model_calls (t : list event) : list request :=
  omap (fun e => match e with
                 | EvGenerate req => Some req
                 | _ => None
                 end) t.

(** The error the [catch] block of the update step receives when the
    success write [upd] does not go through: the store's fault, or the
    missing record. *)
Definition caught_error (w : World) (id : jsstring) (upd : update)
  : option exn :=
  match write_fault (env w) id upd with
  | Some msg => Some (Error msg)
  | None =>
      match store w !! id with
      | None => Some (Error (not_found_message id))
      | Some _ => None
      end
  end.

(** The request a job sends to the model for the file [f] at its
    path. *)
Definition job_request (k : job_kind) (ev : event_data) (f : file) : request :=
  match k with
  | DocumentJob => DocumentPrompt (utf8_text f)
  | AudioJob => AudioPrompt (audio_fileType (filePath ev)) (base64_data f)
  end.

(** The message of the error a job raises when the model call fails
    with [msg]: the client's prefix and the step's prefix before it. *)
Definition model_error_message (k : job_kind) (msg : jsstring) : jsstring :=
  match k with
  | DocumentJob =>
      js "AI Extraction Failed: "
      ++ js "Failed to extract financial data from document: " ++ msg
  | AudioJob =>
      js "Failed to analyze audio with Gemini: "
      ++ js "Failed to analyze audio with Gemini: " ++ msg
  end.

(** A computation that does not look at the store or at the trace:
    from two worlds with one environment it gives one result and adds
    the same events, none of them a record write. *)
Definition store_blind {A} (m : M A) : Prop :=
  forall w w', env w = env w' ->
    exists r evs,
      m w = (r, with_trace w (evs ++ trace w))
      /\ m w' = (r, with_trace w' (evs ++ trace w'))
      /\ mutations evs = [].

(** ** More sample executions *)

Module Cases.

(** The success write: the update that sets status COMPLETED. *)
Definition is_success_write (upd : update) : bool :=
  match update_field "status" upd with
  | Some (FValue (JStr s)) => bool_decide (s = js "COMPLETED")
  | _ => false
  end.

(** [Scenario.environment] with a store that may fail. *)
Definition faulty (e : Env) (connect : option jsstring)
  (write : jsstring -> update -> option jsstring) : Env :=
  {| GEMINI_API_KEY := GEMINI_API_KEY e;
     files := files e;
     model := model e;
     clock := clock e;
     connect_fault := connect;
     write_fault := write;
     syntax_error_message := syntax_error_message e;
     type_error_message := type_error_message e;
     enoent_message := enoent_message e |}.

(** The store throws on the success write and takes the failure write. *)
Definition success_write_fails : World :=
  Scenario.world
    (faulty (env Scenario.healthy) None
       (fun _ upd => if is_success_write upd
                     then Some (js "connection reset") else None))
    Scenario.uploaded.

(** The store throws on every write. *)
Definition every_write_fails : World :=
  Scenario.world
    (faulty (env Scenario.healthy) None
       (fun _ upd => if is_success_write upd
                     then Some (js "connection reset")
                     else Some (js "connection closed")))
    Scenario.uploaded.

(** No record was created for the events; the store takes the success
    write and throws on the failure write. *)
Definition no_record_failure_write_fails : World :=
  Scenario.world
    (faulty (env Scenario.healthy) None
       (fun _ upd => if is_success_write upd
                     then None else Some (js "connection closed")))
    ∅.

(** The store cannot be reached. *)
Definition unreachable : World :=
  Scenario.world
    (faulty (env Scenario.healthy) (Some (js "ECONNREFUSED")) (fun _ _ => None))
    Scenario.uploaded.

(** The model answers a document with the JSON text [null]. *)
Definition null_answer : World :=
  Scenario.world
    (Scenario.environment (Some (js "key")) Scenario.disk
       (inr (js "null")) (inr (js "null")))
    Scenario.uploaded.

(** The record as the upload endpoint creates it. *)
Definition fresh : gmap string field :=
  {[ "status"%string := FValue (JStr (js "PROCESSING")) ]}.

End Cases.

(* ================================================================== *)
(** * The diagnostic scripts                                           *)
(* ================================================================== *)

Module Scripts.

(** ** scripts/list-models-rest.js: the handler of the response's end *)

(** What the [try] block can throw: [JSON.parse] a SyntaxError, the
    property reads and method calls a TypeError. *)
Inductive thrown := SyntaxError | TypeError.

(** The calls of [console.log] and [console.error], in order, each with
    the values it is given besides its fixed label. *)
Inductive printed :=
| ApiError (e : jsval)
| AvailableModels
| ModelLine (name : jsstring)
| NoModels (head : jsstring)
| ParseError (e : thrown)
| RawData (head : jsstring).

Definition MODELS : jsstring := js "models/".

(** [s.replace(p, '')] for a string pattern [p]: the first occurrence
    is removed. *)
Fixpoint remove_first (p s : jsstring) : jsstring :=
  if has_prefix p s then drop (length p) s
  else match s with
       | [] => []
       | c :: r => c :: remove_first p r
       end.

(** [ms.forEach(m => console.log(`- ${m.name.replace('models/', '')}`))]:
    the lines printed, and the TypeError of an [m] that is [null] or
    whose [name] is no string, which ends the loop. *)
Fixpoint forEach_log (ms : list jsval) : list printed * option thrown :=
  match ms with
  | [] => ([], None)
  | m :: r =>
      match get_prop m (js "name") with
      | Some (JStr n) =>
          let '(out, t) := forEach_log r in
          (ModelLine (remove_first MODELS n) :: out, t)
      | _ => ([], Some TypeError)
      end
  end.

(** The [try] block. *)
Definition try_block (data : jsstring) : list printed * option thrown :=
  match JSON_parse data with
  | None => ([], Some SyntaxError)
  | Some json =>
      match get_prop json (js "error") with
      | None => ([], Some TypeError)
      | Some e =>
          if truthy e then ([ApiError e], None)
          else
            match get_prop json (js "models") with
            | None => ([], Some TypeError)
            | Some ms =>
                if truthy ms then
                  match ms with
                  | JArr items =>
                      let '(out, t) := forEach_log items in
                      (AvailableModels :: out, t)
                  | _ => ([AvailableModels], Some TypeError)
                  end
                else ([NoModels (take 200 data)], None)
            end
      end
  end.

(** [res.on('end', ...)] for the accumulated [data]. *)
Definition on_end (data : jsstring) : list printed :=
  let '(out, t) := try_block data in
  match t with
  | None => out
  | Some e => out ++ [ParseError e; RawData (take 200 data)]
  end.

(** ** The model probe: [listModels] *)

Definition modelsToTry : list jsstring :=
  [ js "gemini-1.5-flash-002"; js "gemini-1.5-pro-002";
    js "gemini-2.0-flash-exp"; js "gemini-1.5-flash-8b";
    js "gemini-1.5-flash"; js "gemini-pro" ].

(** What the script writes: [console.log] ends the line,
    [process.stdout.write] does not. *)
Inductive shown :=
| Line (text : jsstring)
| Chunk (text : jsstring).

Definition shown_text (o : shown) : jsstring :=
  match o with Line t | Chunk t => t end.

(** [msg.split('\n')[0]] *)
Fixpoint first_line (msg : jsstring) : jsstring :=
  match msg with
  | [] => []
  | c :: r => if N.eqb c LF then [] else c :: first_line r
  end.

Definition testing (modelName : jsstring) : shown :=
  Chunk (js "Testing " ++ modelName ++ js ": ").

Definition failed (msg : jsstring) : shown :=
  Line (js "FAILED - " ++ first_line msg).

Definition recommendation (modelName : jsstring) : shown :=
  Line (js "RECOMMENDATION: Use '" ++ modelName ++ js "'").

(** The [for] loop over the model names.  [api m] is the outcome of
    [generateContent("Hello")] on the model [m]: the message of the
    error thrown, or the response.  The result is what is written and
    the models that were called. *)
Fixpoint try_models (api : jsstring -> jsstring + jsstring)
  (ms : list jsstring) : list shown * list jsstring :=
  match ms with
  | [] => ([], [])
  | modelName :: r =>
      match api modelName with
      | inr _ =>
          ([testing modelName; Line (js "SUCCESS");
            recommendation modelName], [modelName])
      | inl msg =>
          let '(out, called) := try_models api r in
          (testing modelName :: failed msg :: out, modelName :: called)
      end
  end.

Definition listModels (api : jsstring -> jsstring + jsstring)
  : list shown * list jsstring :=
  let '(out, called) := try_models api modelsToTry in
  (Line (js "Testing specific models...") :: out, called).

(** The output of the attempts on [ms] that failed with [msgs]. *)
Definition failures (ms msgs : list jsstring) : list shown :=
  concat (zip_with (fun m msg => [testing m; failed msg]) ms msgs).

End Scripts.

(** ** Sample responses of the model list *)

Module Responses.

Definition entry (name : string) : jsstring :=
  js "{" ++ Scenario.q "name" ++ js ":" ++ Scenario.q name ++ js "}".

(** Two models. *)
Definition two_models : jsstring :=
  js "{" ++ Scenario.q "models" ++ js ":["
  ++ entry "models/gemini-pro" ++ js ","
  ++ entry "models/gemini-1.5-flash" ++ js "]}".

(** A [null] between two models. *)
Definition null_entry : jsstring :=
  js "{" ++ Scenario.q "models" ++ js ":["
  ++ entry "models/gemini-pro" ++ js ",null,"
  ++ entry "models/gemini-1.5-flash" ++ js "]}".

(** [models] is a string. *)
Definition models_text : jsstring :=
  js "{" ++ Scenario.q "models" ++ js ":" ++ Scenario.q "none" ++ js "}".

Definition named (name : string) : jsval := JObj [(js "name", JStr (js name))].

End Responses.

(* ================================================================== *)
(** * Sample runs                                                      *)
(* ================================================================== *)

(** Split a conjunction into its parts. *)
Ltac conjuncts := intros; repeat match goal with |- _ /\ _ => split end.

Example strip_fences_tagged :
  strip_fences (Scenario.fenced (js "{}")) = js "{}".
Proof. vm_compute; reflexivity. Qed.

Example JSON_parse_values :
  JSON_parse (js " [1, -2.50e3, true, null, {}] ")
  = Some (JArr [JNum {| num_neg := false; num_digits := 1; num_exp10 := 0 |};
                JNum {| num_neg := true; num_digits := 250; num_exp10 := 1 |};
                JBool true; JNull; JObj []])
  /\ JSON_parse (js "[1e5, 12E-2, 0.5e+10]")
     = Some (JArr [JNum {| num_neg := false; num_digits := 1; num_exp10 := 5 |};
                   JNum {| num_neg := false; num_digits := 12; num_exp10 := -2 |};
                   JNum {| num_neg := false; num_digits := 5; num_exp10 := 9 |}])
  /\ JSON_parse (js "1e") = None
  /\ JSON_parse (js "1e+") = None
  /\ JSON_parse (js "1.") = None
  /\ JSON_parse (js "[1,]") = None
  /\ JSON_parse (js "01") = None
  /\ JSON_parse (js "json {}") = None
  /\ JSON_parse Scenario.invoice_json = Some Scenario.invoice_data.
Proof. conjuncts; vm_compute; reflexivity. Qed.

Example JSON_parse_strings :
  JSON_parse (QUOTE :: js "a\u0041\n\u20aC\/" ++ [QUOTE])
  = Some (JStr [97; 65; 10; 8364; 47]%N)
  /\ JSON_parse (QUOTE :: js "a\x" ++ [QUOTE]) = None
  /\ JSON_parse (QUOTE :: js "a\u12" ++ [QUOTE]) = None
  /\ JSON_parse (QUOTE :: js "a" ++ [LF; QUOTE]) = None
  /\ JSON_parse (QUOTE :: js "a") = None
  /\ JSON_parse (js "{" ++ Scenario.q "k" ++ js ":1," ++ Scenario.q "k" ++ js ":2}")
     = Some (JObj [(js "k", JNum {| num_neg := false; num_digits := 1;
                                   num_exp10 := 0 |});
                   (js "k", JNum {| num_neg := false; num_digits := 2;
                                   num_exp10 := 0 |})])
  /\ get_prop (JObj [(js "k", JBool false); (js "k", JBool true)]) (js "k")
     = Some (JBool true).
Proof. conjuncts; vm_compute; reflexivity. Qed.

(** Numbers that are zero as doubles: zero digits, or a magnitude that
    rounds to zero (the least subnormal is about [4.94e-324]). *)
Example truthy_numbers :
  (truthy <$> JSON_parse (js "0")) = Some false
  /\ (truthy <$> JSON_parse (js "-0.0e7")) = Some false
  /\ (truthy <$> JSON_parse (js "2e-324")) = Some false
  /\ (truthy <$> JSON_parse (js "3e-324")) = Some true
  /\ (truthy <$> JSON_parse (js "0.1")) = Some true.
Proof. conjuncts; vm_compute; reflexivity. Qed.

Example string_operations :
  trim ([9; 10; 160; 65279]%N ++ js "a b" ++ [32; 8232; 13]%N) = js "a b"
  /\ trim [133; 97]%N = [133; 97]%N
  /\ endsWith (js "/tmp/call.wav") (js ".wav") = true
  /\ endsWith (js "/tmp/call.WAV") (js ".wav") = false
  /\ endsWith (js "wav") (js ".wav") = false
  /\ remove_all [js "ab"; js "abc"] 0 (js "xabcabx") = js "xcx"
  /\ remove_all [js "aa"] 0 (js "aaa") = js "a"
  /\ strip_fences (js "```" ++ [LF] ++ js "[1]" ++ [LF] ++ js "```" ++ [LF])
     = js "[1]"
  /\ strip_fences (js "```json" ++ [13; 10]%N ++ js "{}" ++ [13; 10]%N
                     ++ js "```")
     = js "json" ++ [13; 10]%N ++ js "{}".
Proof. conjuncts; vm_compute; reflexivity. Qed.

(** The document job where everything is in place: the record ends as
    [COMPLETED] with the extracted fields and [processedAt]. *)
Example healthy_document_completed :
  let ev := Scenario.invoice_event in
  let w' := snd (processFinancialDocument ev Scenario.healthy) in
  fst (processFinancialDocument ev Scenario.healthy)
  = inr (completed (js "d1"))
  /\ field_of w' (js "d1") "status" = Some (FValue (JStr (js "COMPLETED")))
  /\ field_of w' (js "d1") "documentType"
     = Some (FValue (JStr (js "Invoice")))
  /\ field_of w' (js "d1") "invoiceNumber" = Some (FValue (JStr (js "123")))
  /\ field_of w' (js "d1") "currency" = None
  /\ field_of w' (js "d1") "processedAt" = Some (FDateAt 1700000000000).
Proof. conjuncts; vm_compute; reflexivity. Qed.

(** The audio job where everything is in place. *)
Example healthy_audio_completed :
  let ev := Scenario.call_event in
  let w' := snd (processFinancialAudio ev Scenario.healthy) in
  field_of w' (js "d2") "status" = Some (FValue (JStr (js "COMPLETED")))
  /\ field_of w' (js "d2") "sentiment"
     = Some (FValue (JStr (js "Positive")))
  /\ field_of w' (js "d2") "speakers"
     = Some (FValue (JArr [JStr (js "Speaker 1")]))
  /\ field_of w' (js "d2") "topics" = Some (FValue (JArr [JStr (js "budget")]))
  /\ field_of w' (js "d2") "transcript" = Some (FValue (JStr (js "Hello"))).
Proof. conjuncts; vm_compute; reflexivity. Qed.

(* ================================================================== *)
(** * Basic facts about computations                                   *)
(* ================================================================== *)

Lemma with_trace_id (w : World) : with_trace w (trace w) = w.
Proof. by destruct w. Qed.

Lemma mutations_app (a b : list event) :
  mutations (a ++ b) = mutations a ++ mutations b.
Proof. unfold mutations. apply omap_app. Qed.

Section Quiet.
Context {A B : Type}.

Lemma quiet_ret (a : A) : quiet (ret a).
Proof. intros w. exists []. by rewrite with_trace_id. Qed.

Lemma quiet_throw (e : exn) : quiet (@throw A e).
Proof. intros w. exists []. by rewrite with_trace_id. Qed.

Lemma quiet_bind (m : M A) (k : A -> M B) :
  quiet m -> (forall a, quiet (k a)) -> quiet (bind m k).
Proof.
  intros Hm Hk w. unfold bind.
  destruct (Hm w) as (e1 & Hw1 & Hn1).
  destruct (m w) as [[e|a] w1]; simpl in Hw1; subst w1.
  - by exists e1.
  - destruct (Hk a (with_trace w (e1 ++ trace w))) as (e2 & Hw2 & Hn2).
    exists (e2 ++ e1). rewrite Hw2. simpl. split.
    + by rewrite app_assoc.
    + by rewrite mutations_app, Hn1, Hn2.
Qed.

Lemma quiet_try_catch (m : M A) (h : exn -> M A) :
  quiet m -> (forall e, quiet (h e)) -> quiet (try_catch m h).
Proof.
  intros Hm Hh w. unfold try_catch.
  destruct (Hm w) as (e1 & Hw1 & Hn1).
  destruct (m w) as [[e|a] w1]; simpl in Hw1; subst w1.
  - destruct (Hh e (with_trace w (e1 ++ trace w))) as (e2 & Hw2 & Hn2).
    exists (e2 ++ e1). rewrite Hw2. simpl. split.
    + by rewrite app_assoc.
    + by rewrite mutations_app, Hn1, Hn2.
  - by exists e1.
Qed.

Lemma quiet_if (b : bool) (m1 m2 : M A) :
  quiet m1 -> quiet m2 -> quiet (if b then m1 else m2).
Proof. by destruct b. Qed.
End Quiet.

Lemma quiet_enter (e : event) : mutations [e] = [] -> quiet (enter e).
Proof. intros H w. by exists [e]. Qed.

Lemma quiet_getenv : quiet getenv_GEMINI_API_KEY.
Proof. intros w. exists []. by rewrite with_trace_id. Qed.

Lemma quiet_existsSync (p : jsstring) : quiet (existsSync p).
Proof. intros w. exists []. by rewrite with_trace_id. Qed.

Lemma quiet_readFile_utf8 (p : jsstring) : quiet (readFile_utf8 p).
Proof.
  intros w. exists [EvReadFile p]. unfold readFile_utf8.
  by destruct (read_entry (env w) p).
Qed.

Lemma quiet_readFileSync_base64 (p : jsstring) : quiet (readFileSync_base64 p).
Proof.
  intros w. exists [EvReadFile p]. unfold readFileSync_base64.
  by destruct (read_entry (env w) p).
Qed.

Lemma quiet_generateContent (req : request) : quiet (generateContent req).
Proof.
  intros w. exists [EvGenerate req]. unfold generateContent.
  by destruct (model (env w) req).
Qed.

Lemma quiet_JSON_parse_or_throw (text : jsstring) :
  quiet (JSON_parse_or_throw text).
Proof.
  intros w. exists []. unfold JSON_parse_or_throw.
  destruct (JSON_parse text); by rewrite with_trace_id.
Qed.

Lemma quiet_read_prop (v : jsval) (k : string) : quiet (read_prop v k).
Proof.
  intros w. exists []. unfold read_prop.
  destruct (get_prop v (js k)); by rewrite with_trace_id.
Qed.

Create HintDb quiet.
#[local] Hint Resolve quiet_ret quiet_throw quiet_getenv quiet_existsSync
  quiet_readFile_utf8 quiet_readFileSync_base64 quiet_generateContent
  quiet_JSON_parse_or_throw quiet_read_prop : quiet.

(** Decompose a computation along its binds, handlers and branches. *)
Ltac quiet_steps :=
  repeat first
    [ apply quiet_bind; [| intros ?]
    | apply quiet_try_catch; [| intros ?]
    | apply quiet_if
    | apply quiet_enter; reflexivity
    | solve [auto with quiet] ].

Lemma quiet_extractFinancialData (c : jsstring) :
  quiet (extractFinancialData c).
Proof. unfold extractFinancialData. quiet_steps. Qed.

Lemma quiet_analyzeAudio (p t : jsstring) : quiet (analyzeAudio p t).
Proof. unfold analyzeAudio. quiet_steps. Qed.

Lemma quiet_read_file (p : jsstring) : quiet (read_file p).
Proof. unfold read_file. quiet_steps. Qed.

Lemma quiet_extract_data_with_ai (c : jsstring) :
  quiet (extract_data_with_ai c).
Proof.
  unfold extract_data_with_ai.
  apply quiet_try_catch; [apply quiet_extractFinancialData |].
  intros e. apply quiet_throw.
Qed.

Lemma quiet_analyze_audio_gemini (p : jsstring) :
  quiet (analyze_audio_gemini p).
Proof.
  unfold analyze_audio_gemini.
  apply quiet_try_catch; [| intros e; apply quiet_throw].
  apply quiet_bind; [apply quiet_existsSync | intros found].
  apply quiet_bind; [apply quiet_if; auto with quiet | intros _].
  apply quiet_analyzeAudio.
Qed.

(** What a quiet step leaves of the world. *)
Lemma quiet_result {A} (m : M A) (w w1 : World) (r : exn + A) :
  quiet m -> m w = (r, w1) ->
  env w1 = env w /\ store w1 = store w
  /\ exists evs, trace w1 = evs ++ trace w /\ mutations evs = [].
Proof.
  intros Hq Hm. destruct (Hq w) as (evs & Hw & Hn).
  rewrite Hm in Hw. simpl in Hw. subst w1. simpl. eauto.
Qed.

(* ================================================================== *)
(** * The update-database steps                                        *)
(* ================================================================== *)

Lemma document_update_eq (d : jsval) (w : World) :
  document_update d w =
    if nullish d
    then (inl (Error (type_error_message (env w) d (js "documentType"))), w)
    else (inr (document_fields d (now w)), w).
Proof. by destruct d. Qed.

Lemma audio_update_eq (a : jsval) (w : World) :
  audio_update a w =
    if nullish a
    then (inl (Error (type_error_message (env w) a (js "transcript"))), w)
    else (inr (audio_fields a (now w)), w).
Proof. by destruct a. Qed.

Lemma update_database_persist (id : jsstring) (d : jsval) (w : World) :
  update_database id d w = persist id (document_update d) w.
Proof.
  unfold update_database, persist, bind, try_catch.
  destruct (connectToDatabase w) as [[e|[]] w1]; [done |].
  destruct (document_update d w1) as [[e|upd] w2]; [done |].
  destruct (findByIdAndUpdate id upd w2) as [[e|r] w3]; [done |].
  by destruct (negb (bool_decide (is_Some r))).
Qed.

Lemma update_database_audio_persist (id : jsstring) (a : jsval) (w : World) :
  update_database_audio id a w = persist id (audio_update a) w.
Proof. reflexivity. Qed.

(** The [catch] block: the failure write, then the error again, unless
    the write itself throws. *)
Lemma mark_failed_eq {A} (id : jsstring) (e : exn) (w : World) :
  @mark_failed A id e w =
    match write_fault (env w) id (failed_update e (now w)) with
    | Some msg => (inl (Error msg), w)
    | None =>
        match store w !! id with
        | None => (inl e, w)
        | Some r => (inl e, written w id (failed_update e (now w)) r)
        end
    end.
Proof.
  unfold mark_failed, bind, new_Date, findByIdAndUpdate, now. simpl.
  destruct (write_fault _ _ _); [done |].
  by destruct (store w !! id).
Qed.

(** The step around a success update [upd] that is built without
    effect. *)
Lemma persist_built (id : jsstring) (mk : M update) (upd : update) (w : World) :
  mk w = (inr upd, w) ->
  persist id mk w =
    match connect_fault (env w) with
    | Some msg => (inl (Error msg), w)
    | None =>
        match write_fault (env w) id upd with
        | Some msg => @mark_failed unit id (Error msg) w
        | None =>
            match store w !! id with
            | None => @mark_failed unit id (Error (not_found_message id)) w
            | Some r => (inr tt, written w id upd r)
            end
        end
    end.
Proof.
  intros Hmk. unfold persist, bind, try_catch, connectToDatabase.
  destruct (connect_fault (env w)); [done |].
  rewrite Hmk. unfold findByIdAndUpdate.
  destruct (write_fault (env w) id upd); [done |].
  by destruct (store w !! id).
Qed.

(** The step when building the success update throws [e]. *)
Lemma persist_unbuilt (id : jsstring) (mk : M update) (e : exn) (w : World) :
  mk w = (inl e, w) ->
  persist id mk w =
    match connect_fault (env w) with
    | Some msg => (inl (Error msg), w)
    | None => @mark_failed unit id e w
    end.
Proof.
  intros Hmk. unfold persist, bind, try_catch, connectToDatabase.
  destruct (connect_fault (env w)); [done |].
  by rewrite Hmk.
Qed.

(* ================================================================== *)
(** * The jobs, step by step                                           *)
(* ================================================================== *)

Lemma events_of_app {A} (m : M A) (w : World) (evs : list event) :
  trace (snd (m w)) = evs ++ trace w -> events_of m w = evs.
Proof.
  intros H. unfold events_of. rewrite H, length_app.
  replace (length evs + length (trace w) - length (trace w)) with (length evs)
    by lia.
  by rewrite take_app_length.
Qed.

Lemma quiet_extraction_steps (k : job_kind) (ev : event_data) :
  quiet (extraction_steps k ev).
Proof.
  destruct k; simpl.
  - apply quiet_bind; [apply quiet_read_file |].
    intros c. apply quiet_extract_data_with_ai.
  - apply quiet_analyze_audio_gemini.
Qed.

(** A job is its extraction steps, then the update step on what they
    extracted. *)
Lemma run_job_eq (k : job_kind) (ev : event_data) (w : World) :
  run_job k ev w =
    match extraction_steps k ev w with
    | (inl e, w1) => (inl e, w1)
    | (inr d, w1) =>
        match persist (documentId ev)
                (match k with
                 | DocumentJob => document_update d
                 | AudioJob => audio_update d
                 end) w1 with
        | (inl e, w2) => (inl e, w2)
        | (inr _, w2) => (inr (completed (documentId ev)), w2)
        end
    end.
Proof.
  destruct k; simpl.
  - unfold processFinancialDocument, step_run, bind.
    destruct (read_file (filePath ev) w) as [[e|c] w0]; [done |].
    destruct (extract_data_with_ai c w0) as [[e|d] w1]; [done |].
    rewrite update_database_persist.
    by destruct (persist _ _ w1) as [[e|[]] w2].
  - unfold processFinancialAudio, step_run, bind.
    destruct (analyze_audio_gemini (filePath ev) w) as [[e|d] w1]; [done |].
    rewrite update_database_audio_persist.
    by destruct (persist _ _ w1) as [[e|[]] w2].
Qed.

(** The success update of a job is built without effect, unless the
    extracted data is [null]. *)
Lemma success_update_eq (k : job_kind) (d : jsval) (w : World) :
  nullish d = false ->
  match k with
  | DocumentJob => document_update d
  | AudioJob => audio_update d
  end w = (inr (success_fields k d (now w)), w).
Proof.
  intros Hd. destruct k; simpl.
  - by rewrite document_update_eq, Hd.
  - by rewrite audio_update_eq, Hd.
Qed.

Lemma success_update_null (k : job_kind) (d : jsval) (w : World) :
  nullish d = true ->
  exists e,
    match k with
    | DocumentJob => document_update d
    | AudioJob => audio_update d
    end w = (inl e, w).
Proof.
  intros Hd. destruct k; simpl.
  - rewrite document_update_eq, Hd. eauto.
  - rewrite audio_update_eq, Hd. eauto.
Qed.

(** Step 1 of the document job when the file is missing. *)
Lemma read_file_missing (p : jsstring) (w : World) :
  files (env w) !! p = None ->
  read_file p w =
    (inl (Error (js "Failed to read uploaded file: "
                   ++ js "File not found at path: " ++ p)), w).
Proof.
  intros H. unfold read_file, try_catch, bind, existsSync.
  by rewrite H.
Qed.

(** Step 2 of the document job wraps what the extraction raises. *)
Lemma extract_data_with_ai_raises (c : jsstring) (w w1 : World) (e0 : exn) :
  extractFinancialData c w = (inl e0, w1) ->
  extract_data_with_ai c w =
    (inl (Error (js "AI Extraction Failed: " ++ message e0)), w1).
Proof.
  intros H. unfold extract_data_with_ai, try_catch. by rewrite H.
Qed.

(** Step 1 of the audio job wraps what the analysis raises. *)
Lemma analyze_audio_gemini_raises (p : jsstring) (w w1 : World) (e0 : exn) :
  is_Some (files (env w) !! p) ->
  analyzeAudio p (audio_fileType p) w = (inl e0, w1) ->
  analyze_audio_gemini p w =
    (inl (Error (js "Failed to analyze audio with Gemini: " ++ message e0)), w1).
Proof.
  intros Hf H. unfold analyze_audio_gemini, try_catch, bind, existsSync.
  rewrite bool_decide_eq_true_2 by done. simpl. by rewrite H.
Qed.

(** The extraction client without its credential. *)
Lemma extractFinancialData_no_key (c : jsstring) (w : World) :
  key_missing (GEMINI_API_KEY (env w)) = true ->
  extractFinancialData c w =
    (inl (Error (js "Failed to extract financial data from document: "
                   ++ js "GEMINI_API_KEY is missing")),
     with_trace w (EvExtractFinancialData c :: trace w)).
Proof.
  intros H. unfold extractFinancialData, bind, try_catch, enter,
    getenv_GEMINI_API_KEY. simpl. by rewrite H.
Qed.

Lemma analyzeAudio_no_key (p t : jsstring) (w : World) :
  key_missing (GEMINI_API_KEY (env w)) = true ->
  analyzeAudio p t w =
    (inl (Error (js "Failed to analyze audio with Gemini: "
                   ++ js "GEMINI_API_KEY is missing")),
     with_trace w (EvAnalyzeAudio p t :: trace w)).
Proof.
  intros H. unfold analyzeAudio, bind, try_catch, enter,
    getenv_GEMINI_API_KEY. simpl. by rewrite H.
Qed.

(** The extraction client with its credential and an answer of the
    model. *)
Lemma extractFinancialData_answer (c text : jsstring) (w : World) :
  key_missing (GEMINI_API_KEY (env w)) = false ->
  model (env w) (DocumentPrompt c) = inr text ->
  extractFinancialData c w =
    (match JSON_parse (strip_fences text) with
     | Some v => inr v
     | None =>
         inl (Error (js "Failed to extract financial data from document: "
                       ++ syntax_error_message (env w) (strip_fences text)))
     end,
     with_trace w (EvGenerate (DocumentPrompt c)
                     :: EvExtractFinancialData c :: trace w)).
Proof.
  intros Hk Hm. unfold extractFinancialData, bind, try_catch, enter,
    getenv_GEMINI_API_KEY, generateContent, JSON_parse_or_throw. simpl.
  rewrite Hk. simpl. rewrite Hm.
  by destruct (JSON_parse (strip_fences text)).
Qed.

Lemma extractFinancialData_model_error (c msg : jsstring) (w : World) :
  key_missing (GEMINI_API_KEY (env w)) = false ->
  model (env w) (DocumentPrompt c) = inl msg ->
  extractFinancialData c w =
    (inl (Error (js "Failed to extract financial data from document: " ++ msg)),
     with_trace w (EvGenerate (DocumentPrompt c)
                     :: EvExtractFinancialData c :: trace w)).
Proof.
  intros Hk Hm. unfold extractFinancialData, bind, try_catch, enter,
    getenv_GEMINI_API_KEY, generateContent. simpl.
  rewrite Hk. simpl. by rewrite Hm.
Qed.

(* ================================================================== *)
(** * Failures before the update step                                  *)
(* ================================================================== *)

(** A failure of the steps before the update is the failure of the
    job, and nothing has been written by then. *)
Lemma steps_failure_propagates
  (k : job_kind) (ev : event_data) (w w1 : World) (e : exn) :
  extraction_steps k ev w = (inl e, w1) ->
  run_job k ev w = (inl e, w1)
  /\ store w1 = store w
  /\ mutations (events_of (run_job k ev) w) = [].
Proof.
  intros H.
  destruct (quiet_result _ _ _ _ (quiet_extraction_steps k ev) H)
    as (_ & Hs & evs & Ht & Hn).
  assert (Hrun : run_job k ev w = (inl e, w1)) by by rewrite run_job_eq, H.
  repeat split; [done | done |].
  rewrite (events_of_app _ _ evs); [done |]. by rewrite Hrun.
Qed.

(** C1.  The claim fails on the code, which misses the write the claim
    describes: the uploaded file is missing, step 1 of the document job
    raises, and the job raises that error without marking the record:
    after the job the record still reads [PROCESSING], with no
    [processingError] and no [processedAt].  The [catch] that writes
    [FAILED] ("Mark document as failed") belongs to the update step and
    is not reached by a failure of the steps before it. *)
Lemma step_failure_not_marked_failed :
  let ev := Scenario.invoice_event in
  let w := Scenario.missing_file in
  fst (read_file (filePath ev) w)
  = inl (Error (js "Failed to read uploaded file: "
                  ++ js "File not found at path: " ++ js "/tmp/invoice.txt"))
  /\ fst (processFinancialDocument ev w)
     = inl (Error (js "Failed to read uploaded file: "
                     ++ js "File not found at path: " ++ js "/tmp/invoice.txt"))
  /\ field_of (snd (processFinancialDocument ev w)) (documentId ev) "status"
     = Some (FValue (JStr (js "PROCESSING")))
  /\ field_of (snd (processFinancialDocument ev w)) (documentId ev)
       "processingError" = None
  /\ field_of (snd (processFinancialDocument ev w)) (documentId ev)
       "processedAt" = None.
Proof. conjuncts; vm_compute; reflexivity. Qed.

(** The document job on a missing file, for every event and world: it
    raises the error of step 1, which names the path, and does nothing
    else; [extractFinancialData] is not entered and the store is not
    reached. *)
Theorem missing_file_raises_unwritten (ev : event_data) (w : World) :
  files (env w) !! filePath ev = None ->
  processFinancialDocument ev w =
    (inl (Error (js "Failed to read uploaded file: "
                   ++ js "File not found at path: " ++ filePath ev)), w)
  /\ events_of (processFinancialDocument ev) w = [].
Proof.
  intros H.
  assert (Hrun : processFinancialDocument ev w =
    (inl (Error (js "Failed to read uploaded file: "
                   ++ js "File not found at path: " ++ filePath ev)), w)).
  { unfold processFinancialDocument, step_run, bind.
    by rewrite read_file_missing. }
  split; [done |].
  apply events_of_app. by rewrite Hrun.
Qed.

Lemma missing_file_raises_unwritten_witness :
  files (env Scenario.missing_file) !! filePath Scenario.invoice_event = None
  /\ events_of (processFinancialDocument Scenario.invoice_event)
       Scenario.missing_file = [].
Proof.
  assert (H : files (env Scenario.missing_file)
                !! filePath Scenario.invoice_event = None) by reflexivity.
  split; [exact H |].
  exact (proj2 (missing_file_raises_unwritten _ _ H)).
Defined.

(** C3.  The claim fails on the code, which misses the [FAILED] write:
    with the file missing at the referenced path the document job
    raises the not-found error that names the path, and
    [extractFinancialData] is never invoked (the execution holds no
    event at all), but the record does not end as [FAILED]: it still
    reads [PROCESSING] and has no [processingError]. *)
Lemma missing_file_record_not_failed :
  let ev := Scenario.invoice_event in
  let w := Scenario.missing_file in
  files (env w) !! filePath ev = None
  /\ fst (processFinancialDocument ev w)
     = inl (Error (js "Failed to read uploaded file: "
                     ++ js "File not found at path: " ++ js "/tmp/invoice.txt"))
  /\ events_of (processFinancialDocument ev) w = []
  /\ field_of (snd (processFinancialDocument ev w)) (documentId ev) "status"
     = Some (FValue (JStr (js "PROCESSING")))
  /\ field_of (snd (processFinancialDocument ev w)) (documentId ev)
       "processingError" = None.
Proof. conjuncts; vm_compute; reflexivity. Qed.

(** A job whose extraction raises, for every event and world: the job
    raises the step's prefix followed by the message of the error of
    the extraction, and the store is not reached. *)
Theorem extraction_error_reraised_unwritten
  (k : job_kind) (ev : event_data) (w w1 : World) (e0 : exn) :
  extraction_raises k ev w e0 w1 ->
  run_job k ev w = (inl (Error (step_prefix k ++ message e0)), w1)
  /\ contains (step_prefix k ++ message e0) (message e0)
  /\ store w1 = store w
  /\ mutations (events_of (run_job k ev) w) = [].
Proof.
  intros H.
  assert (Hsteps : extraction_steps k ev w
                   = (inl (Error (step_prefix k ++ message e0)), w1)).
  { destruct k; simpl in *.
    - destruct H as (c & w0 & Hread & Hex). unfold bind. rewrite Hread.
      by apply extract_data_with_ai_raises.
    - destruct H as (Hf & Han). by apply analyze_audio_gemini_raises. }
  destruct (steps_failure_propagates _ _ _ _ _ Hsteps) as (Hrun & Hs & Hm).
  repeat split; try done.
  exists (step_prefix k), []. by rewrite app_nil_r.
Qed.

Lemma extraction_error_reraised_unwritten_witness :
  let ev := Scenario.invoice_event in
  let w := Scenario.model_down in
  let c := js "Invoice #123, Total: $500" in
  let e0 := Error (js "Failed to extract financial data from document: "
                     ++ js "429 Too Many Requests") in
  let w1 := with_trace w [EvGenerate (DocumentPrompt c);
                          EvExtractFinancialData c;
                          EvReadFile (filePath ev)] in
  extraction_raises DocumentJob ev w e0 w1
  /\ run_job DocumentJob ev w
     = (inl (Error (js "AI Extraction Failed: " ++ message e0)), w1).
Proof.
  intros ev w c e0 w1.
  assert (H : extraction_raises DocumentJob ev w e0 w1).
  { exists c, (with_trace w [EvReadFile (filePath ev)]).
    split; vm_compute; reflexivity. }
  split; [exact H |].
  exact (proj1 (extraction_error_reraised_unwritten _ _ _ _ _ H)).
Defined.

(** C4.  The claim fails on the code, which misses the [FAILED] write:
    the model call fails, the extraction raises, and the job raises the
    wrapped error, but the message is persisted nowhere: after the job
    the record still reads [PROCESSING] and has no [processingError].
    The [catch] that writes [processingError] belongs to the update
    step and is not reached by a failure of the extraction. *)
Lemma extraction_error_not_persisted :
  let ev := Scenario.invoice_event in
  let w := Scenario.model_down in
  fst (extractFinancialData (js "Invoice #123, Total: $500") w)
  = inl (Error (js "Failed to extract financial data from document: "
                  ++ js "429 Too Many Requests"))
  /\ fst (processFinancialDocument ev w)
     = inl (Error (js "AI Extraction Failed: "
                     ++ js "Failed to extract financial data from document: "
                     ++ js "429 Too Many Requests"))
  /\ field_of (snd (processFinancialDocument ev w)) (documentId ev) "status"
     = Some (FValue (JStr (js "PROCESSING")))
  /\ field_of (snd (processFinancialDocument ev w)) (documentId ev)
       "processingError" = None.
Proof. conjuncts; vm_compute; reflexivity. Qed.

(* ================================================================== *)
(** * The update step                                                  *)
(* ================================================================== *)

Lemma contains_middle (a s b : jsstring) : contains (a ++ s ++ b) s.
Proof. by exists a, b. Qed.

(** C5 (as amended).  In the update step, if no record with the event's
    documentId exists at the time of the success write, the job always
    raises an error out of the job rather than swallowing it, and that
    error is the one identifying the missing document whenever the
    failure write that the [catch] block attempts before raising again
    does not itself throw. *)
Theorem missing_record_raises
  (k : job_kind) (ev : event_data) (w w1 : World) (d : jsval) :
  extraction_steps k ev w = (inr d, w1) ->
  nullish d = false ->
  connect_fault (env w) = None ->
  write_fault (env w) (documentId ev) (success_fields k d (now w)) = None ->
  store w !! documentId ev = None ->
  (exists e, fst (run_job k ev w) = inl e)
  /\ (write_fault (env w) (documentId ev)
        (failed_update (Error (not_found_message (documentId ev))) (now w))
      = None ->
      run_job k ev w = (inl (Error (not_found_message (documentId ev))), w1)
      /\ contains (not_found_message (documentId ev)) (documentId ev)
      /\ store w1 = store w).
Proof.
  intros Hsteps Hd Hc Hw Hs.
  destruct (quiet_result _ _ _ _ (quiet_extraction_steps k ev) Hsteps)
    as (He & Hs1 & _).
  assert (Hnow : now w1 = now w) by (unfold now; by rewrite He).
  rewrite run_job_eq, Hsteps.
  rewrite (persist_built _ _ _ _ (success_update_eq k d w1 Hd)).
  rewrite He, Hc, Hnow, Hw, Hs1, Hs.
  rewrite mark_failed_eq, He, Hnow, Hs1, Hs.
  split.
  - destruct (write_fault _ _ (failed_update _ _)); simpl; eauto.
  - intros ->. split; [done | split; [apply contains_middle | done]].
Qed.

Lemma missing_record_raises_witness :
  let ev := Scenario.call_event in
  let w := Scenario.no_record in
  store w !! documentId ev = None
  /\ run_job AudioJob ev w
     = (inl (Error (js "Document with ID " ++ js "d2" ++ js " not found")),
        with_trace w Scenario.call_trace).
Proof.
  intros ev w. split; [reflexivity |].
  refine (proj1 (proj2 (missing_record_raises AudioJob ev w
                          (with_trace w Scenario.call_trace)
                          Scenario.call_analysis
                          _ eq_refl eq_refl eq_refl eq_refl) eq_refl)).
  vm_compute; reflexivity.
Defined.

(** C5 as stated fails: no record has the documentId and the success
    write finds none, but the failure write that the [catch] block
    awaits before [throw error] throws in its turn; the job raises the
    error of that write, which does not identify the missing document. *)
Lemma missing_record_error_replaced :
  let ev := Scenario.invoice_event in
  let w := Cases.no_record_failure_write_fails in
  store w !! documentId ev = None
  /\ fst (extraction_steps DocumentJob ev w) = inr Scenario.invoice_data
  /\ write_fault (env w) (documentId ev)
       (success_fields DocumentJob Scenario.invoice_data (now w)) = None
  /\ fst (processFinancialDocument ev w)
     = inl (Error (js "connection closed"))
  /\ Error (js "connection closed")
     <> Error (not_found_message (documentId ev))
  /\ occurs (documentId ev) (js "connection closed") = false.
Proof. conjuncts; vm_compute; (reflexivity || discriminate). Qed.

(* ================================================================== *)
(** * The extraction client                                            *)
(* ================================================================== *)

(** C8.  For every call to [extractFinancialData] or [analyzeAudio]
    made while the generative-AI credential is absent from the
    environment, the call raises an error whose message names the
    missing credential, before any model call and, for [analyzeAudio],
    before the file is read: the only event left is the entry into the
    function. *)
Theorem missing_credential_raises (c p t : jsstring) (w : World) :
  GEMINI_API_KEY (env w) = None ->
  extractFinancialData c w =
    (inl (Error (js "Failed to extract financial data from document: "
                   ++ js "GEMINI_API_KEY is missing")),
     with_trace w (EvExtractFinancialData c :: trace w))
  /\ analyzeAudio p t w =
       (inl (Error (js "Failed to analyze audio with Gemini: "
                      ++ js "GEMINI_API_KEY is missing")),
        with_trace w (EvAnalyzeAudio p t :: trace w)).
Proof.
  intros H. split.
  - apply extractFinancialData_no_key. by rewrite H.
  - apply analyzeAudio_no_key. by rewrite H.
Qed.

Lemma missing_credential_raises_witness :
  GEMINI_API_KEY (env Scenario.no_key) = None
  /\ fst (extractFinancialData (js "Invoice") Scenario.no_key)
     = inl (Error (js "Failed to extract financial data from document: "
                     ++ js "GEMINI_API_KEY is missing"))
  /\ fst (analyzeAudio (js "/tmp/call.wav") (js "audio/wav") Scenario.no_key)
     = inl (Error (js "Failed to analyze audio with Gemini: "
                     ++ js "GEMINI_API_KEY is missing")).
Proof.
  assert (H : GEMINI_API_KEY (env Scenario.no_key) = None) by reflexivity.
  split; [exact H |].
  destruct (missing_credential_raises (js "Invoice") (js "/tmp/call.wav")
              (js "audio/wav") _ H) as [-> ->].
  split; reflexivity.
Defined.

(** The update step writes at most once, and what it writes is the
    success update or a failure update. *)
Lemma persist_writes_at_most_once
  (id : jsstring) (mk : M update) (w : World) (r0 : exn + update) :
  mk w = (r0, w) ->
  snd (persist id mk w) = w
  \/ exists upd rec,
       store w !! id = Some rec
       /\ snd (persist id mk w) = written w id upd rec
       /\ (r0 = inr upd \/ exists e, upd = failed_update e (now w)).
Proof.
  intros Hmk. destruct r0 as [e|upd].
  - rewrite (persist_unbuilt _ _ _ _ Hmk).
    destruct (connect_fault (env w)); [by left |].
    rewrite mark_failed_eq.
    destruct (write_fault _ _ _); [by left |].
    destruct (store w !! id) as [rec|] eqn:Hs; [| by left].
    right. exists (failed_update e (now w)), rec. eauto.
  - rewrite (persist_built _ _ _ _ Hmk).
    destruct (connect_fault (env w)); [by left |].
    destruct (write_fault (env w) id upd).
    + rewrite mark_failed_eq.
      destruct (write_fault _ _ _); [by left |].
      destruct (store w !! id) as [rec|] eqn:Hs; [| by left].
      right. exists (failed_update (Error l) (now w)), rec. eauto.
    + destruct (store w !! id) as [rec|] eqn:Hs.
      * right. exists upd, rec. eauto.
      * rewrite mark_failed_eq.
        destruct (write_fault _ _ _); [by left |].
        rewrite Hs. by left.
Qed.

(** It writes once when the store is reached, holds the record and
    takes the failure write. *)
Lemma persist_writes_once
  (id : jsstring) (mk : M update) (w : World) (r0 : exn + update)
  (rec : gmap string field) :
  mk w = (r0, w) ->
  connect_fault (env w) = None ->
  store w !! id = Some rec ->
  (forall e, write_fault (env w) id (failed_update e (now w)) = None) ->
  exists upd, snd (persist id mk w) = written w id upd rec.
Proof.
  intros Hmk Hc Hs Hf. destruct r0 as [e|upd].
  - rewrite (persist_unbuilt _ _ _ _ Hmk), Hc, mark_failed_eq, Hf, Hs. eauto.
  - rewrite (persist_built _ _ _ _ Hmk), Hc.
    destruct (write_fault (env w) id upd).
    + rewrite mark_failed_eq, Hf, Hs. eauto.
    + rewrite Hs. eauto.
Qed.

(** It writes nothing when the record does not exist. *)
Lemma persist_no_record
  (id : jsstring) (mk : M update) (w : World) (r0 : exn + update) :
  mk w = (r0, w) ->
  store w !! id = None ->
  snd (persist id mk w) = w.
Proof.
  intros Hmk Hs.
  destruct (persist_writes_at_most_once id mk w r0 Hmk)
    as [H | (upd & rec & Hrec & _)]; [done |].
  congruence.
Qed.

Lemma success_update_built (k : job_kind) (d : jsval) (w : World) :
  exists r0,
    match k with
    | DocumentJob => document_update d
    | AudioJob => audio_update d
    end w = (r0, w)
    /\ forall upd, r0 = inr upd -> upd = success_fields k d (now w).
Proof.
  destruct (nullish d) eqn:Hd.
  - destruct (success_update_null k d w Hd) as (e & He).
    exists (inl e). split; [done |]. intros upd [=].
  - exists (inr (success_fields k d (now w))).
    split; [by apply success_update_eq |]. by intros upd [= <-].
Qed.

Lemma processedAt_success (k : job_kind) (d : jsval) (t : field) :
  update_field "processedAt" (success_fields k d t) = Some t.
Proof. by destruct k. Qed.

Lemma processedAt_failed (e : exn) (t : field) :
  update_field "processedAt" (failed_update e t) = Some t.
Proof. reflexivity. Qed.

(** The world a job leaves: that of its extraction steps, then that of
    the update step if they succeeded. *)
Lemma run_job_world (k : job_kind) (ev : event_data) (w : World) :
  snd (run_job k ev w) =
    match extraction_steps k ev w with
    | (inl e, w1) => w1
    | (inr d, w1) =>
        snd (persist (documentId ev)
               (match k with
                | DocumentJob => document_update d
                | AudioJob => audio_update d
                end) w1)
    end.
Proof.
  rewrite run_job_eq.
  destruct (extraction_steps k ev w) as [[e|d] w1]; [done |].
  by destruct (persist _ _ w1) as [[e|u] w2].
Qed.

(** A job whose steps succeed and whose success write the store
    applies returns, and that write is all it writes. *)
Lemma run_job_success (k : job_kind) (ev : event_data) (w w1 : World)
  (d : jsval) (rec : gmap string field) :
  extraction_steps k ev w = (inr d, w1) ->
  nullish d = false ->
  connect_fault (env w) = None ->
  write_fault (env w) (documentId ev) (success_fields k d (now w)) = None ->
  store w !! documentId ev = Some rec ->
  run_job k ev w =
    (inr (completed (documentId ev)),
     written w1 (documentId ev) (success_fields k d (now w)) rec)
  /\ mutations (events_of (run_job k ev) w)
     = [(documentId ev, success_fields k d (now w))].
Proof.
  intros Hsteps Hd Hc Hw Hs.
  destruct (quiet_result _ _ _ _ (quiet_extraction_steps k ev) Hsteps)
    as (He & Hs1 & evs & Ht & Hn).
  assert (Hnow : now w1 = now w) by (unfold now; by rewrite He).
  assert (Hrun : run_job k ev w =
    (inr (completed (documentId ev)),
     written w1 (documentId ev) (success_fields k d (now w)) rec)).
  { rewrite run_job_eq, Hsteps.
    rewrite (persist_built _ _ _ _ (success_update_eq k d w1 Hd)).
    by rewrite He, Hc, Hnow, Hw, Hs1, Hs. }
  split; [done |].
  rewrite (events_of_app _ _
             (EvMutate (documentId ev) (success_fields k d (now w)) :: evs)).
  - change (EvMutate ?i ?u :: evs) with ([EvMutate i u] ++ evs).
    by rewrite mutations_app, Hn.
  - rewrite Hrun. simpl. by rewrite Ht.
Qed.

(** C2 (as amended).  Every job execution performs at most one record
    mutation, on the record of its documentId: either the success write
    (COMPLETED with the extracted fields) or the failure write (FAILED
    with processingError), never both, and the applied write sets
    processedAt.  It performs exactly one when the steps before the
    update succeed, the store is reached and holds the record, assuming
    the failure write itself does not fail.  It performs none when no
    record has the documentId. *)
Theorem one_write_at_most (k : job_kind) (ev : event_data) (w : World) :
  (mutations (events_of (run_job k ev) w) = []
   \/ exists upd,
        mutations (events_of (run_job k ev) w) = [(documentId ev, upd)]
        /\ update_field "processedAt" upd = Some (now w)
        /\ ((exists d w1,
               extraction_steps k ev w = (inr d, w1)
               /\ upd = success_fields k d (now w))
            \/ (exists e, upd = failed_update e (now w))))
  /\ (forall d w1,
        extraction_steps k ev w = (inr d, w1) ->
        connect_fault (env w) = None ->
        is_Some (store w !! documentId ev) ->
        (forall e, write_fault (env w) (documentId ev)
                     (failed_update e (now w)) = None) ->
        exists upd,
          mutations (events_of (run_job k ev) w) = [(documentId ev, upd)])
  /\ (store w !! documentId ev = None ->
      mutations (events_of (run_job k ev) w) = []).
Proof.
  pose proof (run_job_world k ev w) as Hw.
  destruct (extraction_steps k ev w) as [[e|d] w1] eqn:Hsteps.
  - (* the steps before the update fail *)
    destruct (quiet_result _ _ _ _ (quiet_extraction_steps k ev) Hsteps)
      as (_ & _ & evs & Ht & Hn).
    assert (Hev : events_of (run_job k ev) w = evs)
      by (apply events_of_app; by rewrite Hw).
    rewrite Hev. split; [by left |]. split; [| done].
    intros d w2 [=].
  - destruct (quiet_result _ _ _ _ (quiet_extraction_steps k ev) Hsteps)
      as (He & Hs & evs & Ht & Hn).
    assert (Hnow : now w1 = now w) by (unfold now; by rewrite He).
    destruct (success_update_built k d w1) as (r0 & Hmk & Hr0).
    set (id := documentId ev) in *.
    set (mk := match k with
               | DocumentJob => document_update d
               | AudioJob => audio_update d
               end) in *.
    assert (Hquiet : snd (persist id mk w1) = w1 ->
                     mutations (events_of (run_job k ev) w) = []).
    { intros Hp. rewrite (events_of_app _ _ evs); [done |].
      by rewrite Hw, Hp. }
    assert (Hwritten : forall upd rec,
               snd (persist id mk w1) = written w1 id upd rec ->
               mutations (events_of (run_job k ev) w) = [(id, upd)]).
    { intros upd rec Hp.
      rewrite (events_of_app _ _ (EvMutate id upd :: evs)).
      - change (EvMutate id upd :: evs) with ([EvMutate id upd] ++ evs).
        by rewrite mutations_app, Hn.
      - rewrite Hw, Hp. simpl. by rewrite Ht. }
    split; [| split].
    + destruct (persist_writes_at_most_once id mk w1 r0 Hmk)
        as [Hp | (upd & rec & Hrec & Hp & Hupd)]; [left; auto |].
      right. exists upd. split; [by apply (Hwritten upd rec) |].
      rewrite Hnow in *.
      destruct Hupd as [-> | (e & ->)].
      * rewrite (Hr0 upd eq_refl).
        split; [apply processedAt_success | left; by exists d, w1].
      * split; [apply processedAt_failed | right; by exists e].
    + intros d' w1' [= <- <-] Hc [rec Hrec] Hf.
      destruct (persist_writes_once id mk w1 r0 rec Hmk) as (upd & Hp).
      * by rewrite He.
      * by rewrite Hs.
      * intros e. rewrite He, Hnow. apply Hf.
      * exists upd. by apply (Hwritten upd rec).
    + intros Hnone.
      apply Hquiet. apply (persist_no_record id mk w1 r0 Hmk).
      by rewrite Hs.
Qed.

Lemma one_write_at_most_witness :
  let ev := Scenario.invoice_event in
  let w := Scenario.healthy in
  is_Some (store w !! documentId ev)
  /\ exists upd,
       mutations (events_of (run_job DocumentJob ev) w)
       = [(documentId ev, upd)].
Proof.
  intros ev w.
  assert (Hrec : is_Some (store w !! documentId ev))
    by (vm_compute; eauto).
  split; [exact Hrec |].
  refine (proj1 (proj2 (one_write_at_most DocumentJob ev w))
            Scenario.invoice_data
            (with_trace w Scenario.invoice_trace) _ _ Hrec _).
  - vm_compute; reflexivity.
  - reflexivity.
  - intros e; reflexivity.
Defined.

(** C2 as stated fails: no record has the documentId.  The steps
    before the update succeed, the store is reached and no write of its
    throws, yet the execution performs no record mutation at all,
    neither the success write nor the failure write: there is no record
    to write to. *)
Lemma missing_record_mutates_nothing :
  let ev := Scenario.invoice_event in
  let w := Scenario.no_record in
  fst (extraction_steps DocumentJob ev w) = inr Scenario.invoice_data
  /\ connect_fault (env w) = None
  /\ (forall id upd, write_fault (env w) id upd = None)
  /\ fst (processFinancialDocument ev w)
     = inl (Error (js "Document with ID " ++ js "d1" ++ js " not found"))
  /\ mutations (events_of (processFinancialDocument ev) w) = []
  /\ store (snd (processFinancialDocument ev w)) = store w.
Proof. conjuncts; vm_compute; reflexivity. Qed.

(** C7.  [extractFinancialData] returns exactly the value [JSON.parse]
    produces from the fence-stripped response text, whatever its shape:
    nothing is validated against [FinancialDocumentSchema].  In
    particular a result without a [currency] member has none when it is
    returned, and the update written from it carries [undefined], not
    the schema's default ["USD"]. *)
Theorem extract_returns_parsed_unvalidated
  (c text : jsstring) (w : World) (v : jsval) :
  key_missing (GEMINI_API_KEY (env w)) = false ->
  model (env w) (DocumentPrompt c) = inr text ->
  JSON_parse (strip_fences text) = Some v ->
  fst (extractFinancialData c w) = inr v
  /\ forall ms,
       v = JObj ms -> lookup_member (js "currency") ms = None ->
       get_prop v (js "currency") = Some JUndefined
       /\ JUndefined <> FinancialDocumentSchema_default_currency
       /\ forall t, update_field "currency" (document_fields v t)
                    = Some (FValue JUndefined).
Proof.
  intros Hk Hm Hp.
  rewrite (extractFinancialData_answer _ _ _ Hk Hm), Hp.
  split; [done |].
  intros ms -> Hms. split; [| split].
  - simpl. by rewrite Hms.
  - discriminate.
  - intros t. unfold document_fields, prop. simpl get_prop.
    rewrite Hms. reflexivity.
Qed.

Lemma extract_returns_parsed_unvalidated_witness :
  let w := Scenario.healthy in
  let c := js "Invoice #123, Total: $500" in
  JSON_parse (strip_fences (Scenario.fenced Scenario.invoice_json))
  = Some Scenario.invoice_data
  /\ fst (extractFinancialData c w) = inr Scenario.invoice_data.
Proof.
  intros w c.
  assert (Hp : JSON_parse (strip_fences (Scenario.fenced Scenario.invoice_json))
               = Some Scenario.invoice_data) by (vm_compute; reflexivity).
  split; [exact Hp |].
  exact (proj1 (extract_returns_parsed_unvalidated c
                  (Scenario.fenced Scenario.invoice_json) w
                  Scenario.invoice_data eq_refl eq_refl Hp)).
Defined.

(* ================================================================== *)
(** * What the store holds after a write                               *)
(* ================================================================== *)

(** A field after an update: the last defined value the update gives
    it, or else what the record held. *)
Lemma apply_update_lookup (upd : update) (r : gmap string field) (k : string) :
  apply_update upd r !! k =
    match update_field k (List.filter defined_field upd) with
    | Some v => Some v
    | None => r !! k
    end.
Proof.
  unfold apply_update. revert r.
  induction upd as [|[k' v] upd IH]; intros r; [done |].
  simpl foldl. rewrite IH. simpl List.filter.
  unfold defined_field at 2. simpl snd.
  assert (Hset : forall v', 
    (match update_field k (List.filter defined_field upd) with
     | Some v0 => Some v0
     | None => <[k' := v']> r !! k
     end) =
    (match update_field k ((k', v') :: List.filter defined_field upd) with
     | Some v0 => Some v0
     | None => r !! k
     end)).
  { intros v'. simpl.
    destruct (update_field k (List.filter defined_field upd)); [done |].
    destruct (decide (k = k')) as [->|Hne].
    - by rewrite lookup_insert_eq.
    - by rewrite lookup_insert_ne. }
  destruct v as [[]| |]; simpl; first [done | apply Hset].
Qed.

Lemma field_of_written (w : World) (id : jsstring) (upd : update)
  (r : gmap string field) (k : string) :
  field_of (written w id upd r) id k = apply_update upd r !! k.
Proof. unfold field_of, written. simpl. by rewrite lookup_insert_eq. Qed.

(** The values JavaScript takes for false. *)
Lemma truthy_false_iff (v : jsval) :
  truthy v = false <->
  v = JUndefined \/ v = JNull \/ v = JBool false \/ v = JStr []
  \/ exists n, v = JNum n /\ num_is_zero n = true.
Proof.
  split.
  - destruct v as [| |[]|n|[|c s]| |]; simpl; intros H; try done; eauto 6.
    right; right; right; right. exists n. split; [done |].
    by destruct (num_is_zero n).
  - intros [->|[->|[->|[->|(n & -> & Hn)]]]]; simpl; try done.
    by rewrite Hn.
Qed.

(* ================================================================== *)
(** * The audio analysis                                               *)
(* ================================================================== *)

(** What [analyzeAudio] returns is the four-member object it builds. *)
Lemma analyzeAudio_returns (p t : jsstring) (w w1 : World) (a : jsval) :
  analyzeAudio p t w = (inr a, w1) ->
  exists data, a = analysis_of data.
Proof.
  unfold analyzeAudio, bind, try_catch, enter, getenv_GEMINI_API_KEY,
    readFileSync_base64, generateContent, JSON_parse_or_throw, read_prop,
    throw, ret. simpl.
  destruct (key_missing _); [done |]. simpl.
  destruct (read_entry _ _); [done |]. simpl.
  destruct (model _ _); [done |].
  destruct (JSON_parse _) as [data|]; [| done].
  intros H. exists data.
  destruct data; simpl in H; try done; by injection H as <-.
Qed.

Lemma analyze_audio_gemini_returns (p : jsstring) (w w1 : World) (a : jsval) :
  analyze_audio_gemini p w = (inr a, w1) ->
  exists data, a = analysis_of data.
Proof.
  unfold analyze_audio_gemini, try_catch, bind, existsSync. simpl.
  destruct (bool_decide _); simpl; [| done].
  destruct (analyzeAudio _ _ _) as [[e|a'] w'] eqn:Han; [done |].
  intros [= <- <-]. by eapply analyzeAudio_returns.
Qed.

Lemma transcript_written (a : jsval) (t : field) (r : gmap string field) :
  apply_update (audio_fields a t) r !! "transcript"%string =
    Some (FValue (js_or (prop a "transcript")
                        (JStr (js "Transcript not available")))).
Proof.
  rewrite apply_update_lookup.
  assert (Hdef : defined_field
            ("transcript"%string,
             FValue (js_or (prop a "transcript")
                           (JStr (js "Transcript not available")))) = true).
  { unfold defined_field, js_or. simpl.
    by destruct (prop a "transcript") as [| |[]|n|[|c s]| |];
      simpl; try done; destruct (num_is_zero n). }
  unfold audio_fields. simpl List.filter. rewrite Hdef.
  repeat match goal with
         | |- context [if ?b then _ else _] => destruct b
         end; reflexivity.
Qed.

(** C9 (as amended).  For every audio-job execution that reaches the
    success write and whose write the store applies: if the analysis
    result's transcript is absent or is a value JavaScript takes for
    false (the empty string, but also [null], [false] and zero), the
    persisted transcript is the literal string "Transcript not
    available"; otherwise the persisted transcript equals the returned
    transcript.  The one write of the execution is the success update,
    which carries that transcript. *)
Theorem transcript_falls_back_when_falsy
  (ev : event_data) (w w1 : World) (a : jsval) (rec : gmap string field) :
  analyze_audio_gemini (filePath ev) w = (inr a, w1) ->
  connect_fault (env w) = None ->
  write_fault (env w) (documentId ev) (audio_fields a (now w)) = None ->
  store w !! documentId ev = Some rec ->
  let transcript := prop a "transcript" in
  let persisted :=
    field_of (snd (processFinancialAudio ev w)) (documentId ev) "transcript" in
  (transcript = JUndefined \/ transcript = JNull \/ transcript = JBool false
   \/ transcript = JStr []
   \/ (exists n, transcript = JNum n /\ num_is_zero n = true) ->
   persisted = Some (FValue (JStr (js "Transcript not available"))))
  /\ (truthy transcript = true -> persisted = Some (FValue transcript))
  /\ mutations (events_of (processFinancialAudio ev) w)
     = [(documentId ev, audio_fields a (now w))]
  /\ update_field "transcript" (audio_fields a (now w)) = persisted.
Proof.
  intros Hsteps Hc Hw Hs transcript persisted.
  destruct (analyze_audio_gemini_returns _ _ _ _ Hsteps) as (data & Ha).
  assert (Hnn : nullish a = false) by by subst a.
  destruct (run_job_success AudioJob ev w w1 a rec Hsteps Hnn Hc Hw Hs)
    as (Hrun & Hmut).
  assert (Hp : persisted
               = Some (FValue (js_or transcript
                                 (JStr (js "Transcript not available"))))).
  { unfold persisted.
    change (processFinancialAudio ev w) with (run_job AudioJob ev w).
    rewrite Hrun. simpl snd. rewrite field_of_written.
    apply transcript_written. }
  rewrite Hp. unfold js_or. conjuncts.
  - intros H. apply truthy_false_iff in H. by rewrite H.
  - intros H. by rewrite H.
  - exact Hmut.
  - reflexivity.
Qed.

Lemma transcript_falls_back_when_falsy_witness :
  let ev := Scenario.call_event in
  let w := Scenario.healthy in
  analyze_audio_gemini (filePath ev) w
  = (inr Scenario.call_analysis, with_trace w Scenario.call_trace)
  /\ field_of (snd (processFinancialAudio ev w)) (documentId ev) "transcript"
     = Some (FValue (JStr (js "Hello"))).
Proof.
  intros ev w.
  assert (H : analyze_audio_gemini (filePath ev) w
              = (inr Scenario.call_analysis, with_trace w Scenario.call_trace))
    by (vm_compute; reflexivity).
  split; [exact H |].
  refine (proj1 (proj2 (transcript_falls_back_when_falsy ev w _ _
                   {[ "status"%string := FValue (JStr (js "PROCESSING")) ]}
                   H _ _ _)) _); reflexivity.
Defined.

(** C9 as stated fails: the analysis returns a transcript that is
    present and is not the empty string, namely [null]; the persisted
    transcript is the literal string, not the returned transcript. *)
Lemma null_transcript_replaced :
  let ev := Scenario.call_event in
  let w := Scenario.null_transcript in
  (exists a,
     fst (analyzeAudio (filePath ev) (js "audio/wav") w) = inr a
     /\ lookup_member (js "transcript") 
          (match a with JObj ms => ms | _ => [] end) = Some JNull)
  /\ field_of (snd (processFinancialAudio ev w)) (documentId ev) "transcript"
     = Some (FValue (JStr (js "Transcript not available")))
  /\ FValue (JStr (js "Transcript not available")) <> FValue JNull.
Proof.
  split; [| split; [vm_compute; reflexivity | discriminate]].
  eexists. split; vm_compute; reflexivity.
Qed.

(* ================================================================== *)
(** * Events of an execution                                           *)
(* ================================================================== *)

Section Emits.
Context {A B : Type} (P : event -> Prop).

Lemma emits_ret (a : A) : emits P (ret a).
Proof. intros w. by exists []. Qed.

Lemma emits_throw (e : exn) : emits P (@throw A e).
Proof. intros w. by exists []. Qed.

Lemma emits_bind (m : M A) (k : A -> M B) :
  emits P m -> (forall a, emits P (k a)) -> emits P (bind m k).
Proof.
  intros Hm Hk w. unfold bind.
  destruct (Hm w) as (e1 & Hw1 & Hn1).
  destruct (m w) as [[e|a] w1]; simpl in Hw1.
  - by exists e1.
  - destruct (Hk a w1) as (e2 & Hw2 & Hn2).
    exists (e2 ++ e1). rewrite Hw2, Hw1, app_assoc. split; [done |].
    by apply Forall_app.
Qed.

Lemma emits_try_catch (m : M A) (h : exn -> M A) :
  emits P m -> (forall e, emits P (h e)) -> emits P (try_catch m h).
Proof.
  intros Hm Hh w. unfold try_catch.
  destruct (Hm w) as (e1 & Hw1 & Hn1).
  destruct (m w) as [[e|a] w1]; simpl in Hw1.
  - destruct (Hh e w1) as (e2 & Hw2 & Hn2).
    exists (e2 ++ e1). rewrite Hw2, Hw1, app_assoc. split; [done |].
    by apply Forall_app.
  - by exists e1.
Qed.

Lemma emits_if (b : bool) (m1 m2 : M A) :
  emits P m1 -> emits P m2 -> emits P (if b then m1 else m2).
Proof. by destruct b. Qed.
End Emits.

(** A computation with no record write adds whatever its events are;
    what they satisfy is read off case by case. *)
Lemma emits_enter (P : event -> Prop) (e : event) : P e -> emits P (enter e).
Proof. intros H w. exists [e]. split; [done |]. by constructor. Qed.

Lemma emits_silent {A} (P : event -> Prop) (m : M A) :
  (forall w, snd (m w) = w) -> emits P m.
Proof. intros H w. exists []. by rewrite H. Qed.

Lemma emits_readFileSync_base64 (P : event -> Prop) (p : jsstring) :
  P (EvReadFile p) -> emits P (readFileSync_base64 p).
Proof.
  intros H w. exists [EvReadFile p]. unfold readFileSync_base64.
  split; [by destruct (read_entry _ _) |]. by constructor.
Qed.

Lemma emits_generateContent (P : event -> Prop) (req : request) :
  P (EvGenerate req) -> emits P (generateContent req).
Proof.
  intros H w. exists [EvGenerate req]. unfold generateContent.
  split; [by destruct (model _ _) |]. by constructor.
Qed.

Lemma emits_findByIdAndUpdate (P : event -> Prop) (id : jsstring)
  (upd : update) :
  P (EvMutate id upd) -> emits P (findByIdAndUpdate id upd).
Proof.
  intros H w. unfold findByIdAndUpdate.
  destruct (write_fault _ _ _); [by exists [] |].
  destruct (store w !! id); [| by exists []].
  exists [EvMutate id upd]. split; [done |]. by constructor.
Qed.

Lemma emits_analyzeAudio (p t : jsstring) :
  emits (carries_mime p t) (analyzeAudio p t).
Proof.
  unfold analyzeAudio.
  apply emits_bind; [by apply emits_enter | intros _].
  apply emits_try_catch; [| intros e; apply emits_throw].
  apply emits_bind; [by apply emits_silent | intros key].
  apply emits_bind; [apply emits_if; by apply emits_silent | intros _].
  apply emits_bind; [by apply emits_readFileSync_base64 | intros b].
  apply emits_bind; [by apply emits_generateContent | intros text].
  apply emits_bind.
  { apply emits_silent. intros w. unfold JSON_parse_or_throw.
    by destruct (JSON_parse _). }
  intros data.
  repeat (apply emits_bind;
          [apply emits_silent; intros w; unfold read_prop;
           by destruct (get_prop _ _) | intros ?]).
  apply emits_ret.
Qed.

Lemma emits_persist (P : event -> Prop) (id : jsstring) (mk : M update) :
  (forall upd, P (EvMutate id upd)) ->
  (forall w, snd (mk w) = w) ->
  emits P (persist id mk).
Proof.
  intros HP Hmk. unfold persist.
  apply emits_bind.
  { apply emits_silent. intros w. unfold connectToDatabase.
    by destruct (connect_fault _). }
  intros _. apply emits_try_catch.
  - apply emits_bind; [by apply emits_silent | intros upd].
    apply emits_bind; [by apply emits_findByIdAndUpdate | intros r].
    apply emits_if; [apply emits_throw | apply emits_ret].
  - intros e. unfold mark_failed.
    apply emits_bind; [by apply emits_silent | intros t].
    apply emits_bind; [by apply emits_findByIdAndUpdate | intros _].
    apply emits_throw.
Qed.

Lemma emits_processFinancialAudio (ev : event_data) :
  emits (carries_mime (filePath ev) (audio_fileType (filePath ev)))
        (processFinancialAudio ev).
Proof.
  unfold processFinancialAudio, step_run.
  apply emits_bind.
  { unfold analyze_audio_gemini.
    apply emits_try_catch; [| intros e; apply emits_throw].
    apply emits_bind; [by apply emits_silent | intros found].
    apply emits_bind; [apply emits_if; by apply emits_silent | intros _].
    apply emits_analyzeAudio. }
  intros a. apply emits_bind; [| intros _; apply emits_ret].
  change (update_database_audio (documentId ev) a)
    with (persist (documentId ev) (audio_update a)).
  apply emits_persist; [done |].
  intros w. rewrite audio_update_eq. by destruct (nullish a).
Qed.

(** Once entered, [analyzeAudio] leaves its entry among the events. *)
Lemma analyzeAudio_entered (p t : jsstring) (w : World) :
  exists evs,
    trace (snd (analyzeAudio p t w)) = evs ++ EvAnalyzeAudio p t :: trace w.
Proof.
  unfold analyzeAudio. unfold bind at 1. unfold enter.
  match goal with
  | |- context [try_catch ?m ?h] =>
      assert (Hq : quiet (try_catch m h)) by quiet_steps;
      destruct (Hq (with_trace w (EvAnalyzeAudio p t :: trace w)))
        as (evs & Hw & _)
  end.
  exists evs.
  destruct (try_catch _ _ _) as [[e|a] w1]; simpl in *; by subst w1.
Qed.

(** C10.  For every audio-job execution, the mime type passed to
    [analyzeAudio] is determined by the suffix of the event's file path
    alone: "audio/wav" if the path ends with ".wav" and "audio/mp3" for
    every other path, whatever the file holds.  Every call of
    [analyzeAudio] and every audio request to the model in the
    execution carries that type, and the call is made whenever the path
    exists. *)
Theorem audio_mime_from_suffix (ev : event_data) (w : World) :
  let mime := if endsWith (filePath ev) (js ".wav")
              then js "audio/wav" else js "audio/mp3" in
  (forall p t,
     EvAnalyzeAudio p t ∈ events_of (processFinancialAudio ev) w ->
     p = filePath ev /\ t = mime)
  /\ (forall m b,
        EvGenerate (AudioPrompt m b) ∈ events_of (processFinancialAudio ev) w ->
        m = mime)
  /\ (is_Some (files (env w) !! filePath ev) ->
      EvAnalyzeAudio (filePath ev) mime
        ∈ events_of (processFinancialAudio ev) w).
Proof.
  intros mime.
  destruct (emits_processFinancialAudio ev w) as (evs & Ht & Hall).
  rewrite Forall_forall in Hall.
  split; [| split].
  - intros p t Hin. rewrite (events_of_app _ _ _ Ht) in Hin.
    exact (Hall _ Hin).
  - intros m b Hin. rewrite (events_of_app _ _ _ Ht) in Hin.
    exact (Hall _ Hin).
  - intros Hf.
    destruct (analyzeAudio_entered (filePath ev) mime w) as (evs1 & He1).
    assert (Hstep : trace (snd (analyze_audio_gemini (filePath ev) w))
                    = evs1 ++ EvAnalyzeAudio (filePath ev) mime :: trace w).
    { unfold analyze_audio_gemini, try_catch, bind, existsSync.
      rewrite bool_decide_eq_true_2 by done. simpl.
      unfold audio_fileType. fold mime.
      by destruct (analyzeAudio _ _ _) as [[e|a] w1]. }
    assert (Hjob : exists evs2,
               trace (snd (processFinancialAudio ev w))
               = (evs2 ++ evs1 ++ [EvAnalyzeAudio (filePath ev) mime])
                   ++ trace w).
    { change (processFinancialAudio ev w) with (run_job AudioJob ev w).
      rewrite run_job_world. simpl extraction_steps.
      destruct (analyze_audio_gemini (filePath ev) w) as [[e|a] w1];
        simpl in Hstep.
      - exists []. rewrite Hstep. simpl. by rewrite <- app_assoc.
      - destruct (emits_persist (fun _ => True) (documentId ev)
                    (audio_update a)) with (w := w1) as (evs2 & He2 & _).
        + done.
        + intros w'. rewrite audio_update_eq. by destruct (nullish a).
        + exists evs2. rewrite He2, Hstep. by rewrite <- !app_assoc. }
    destruct Hjob as (evs2 & Hjob).
    rewrite (events_of_app _ _ _ Hjob). set_solver.
Qed.

Lemma audio_mime_from_suffix_witness :
  let ev := Scenario.call_event in
  let w := Scenario.healthy in
  is_Some (files (env w) !! filePath ev)
  /\ EvAnalyzeAudio (js "/tmp/call.wav") (js "audio/wav")
       ∈ events_of (processFinancialAudio ev) w.
Proof.
  intros ev w.
  assert (H : is_Some (files (env w) !! filePath ev)) by (vm_compute; eauto).
  split; [exact H |].
  exact (proj2 (proj2 (audio_mime_from_suffix ev w)) H).
Defined.

(* ================================================================== *)
(** * The fuel of [JSON_parse]                                         *)
(* ================================================================== *)

(** A parse consumes tokens, and any fuel from the number of tokens
    consumed on gives the same parse: the fuel [JSON_parse] starts
    with, one more than the number of tokens, never runs out on text
    that parses with some fuel. *)
Lemma parse_fuel_enough (fuel : nat) :
  (forall ts v r,
     parse_value fuel ts = Some (v, r) ->
     length r < length ts
     /\ forall f, length ts - length r <= f -> parse_value f ts = Some (v, r))
  /\ (forall ts vs r,
        parse_elements fuel ts = Some (vs, r) ->
        length r < length ts
        /\ forall f, length ts - length r <= f ->
                     parse_elements f ts = Some (vs, r))
  /\ (forall ts ms r,
        parse_members fuel ts = Some (ms, r) ->
        length r < length ts
        /\ forall f, length ts - length r <= f ->
                     parse_members f ts = Some (ms, r)).
Proof.
  induction fuel as [|fuel (IHv & IHe & IHm)]; [by repeat split |].
  split; [| split].
  - intros ts v r H. simpl in H.
    destruct ts as [|t ts]; [done |].
    destruct t; try done.
    + (* an object *)
      destruct ts as [|t' ts']; [by destruct fuel |].
      assert (Hm : forall ms r',
                 parse_members fuel (t' :: ts') = Some (ms, r') ->
                 length r' < length (TLBrace :: t' :: ts')
                 /\ forall f, length (TLBrace :: t' :: ts') - length r' <= f ->
                      t' <> TRBrace ->
                      parse_value f (TLBrace :: t' :: ts') = Some (JObj ms, r')).
      { intros ms r' Hp. destruct (IHm _ _ _ Hp) as (Hl & Hf).
        split; [simpl in *; lia |].
        intros [|f] Hle Hne; [simpl in *; lia |].
        simpl. rewrite Hf by (simpl in *; lia). by destruct t'. }
      assert (Hcase : t' = TRBrace \/ t' <> TRBrace)
        by (destruct t'; (by left) || (by right)).
      destruct Hcase as [-> | Hne].
      * injection H as <- <-. split; [simpl; lia |].
        intros [|f] Hle; [simpl in Hle; lia | done].
      * assert (H' : match parse_members fuel (t' :: ts') with
                     | Some (ms, r') => Some (JObj ms, r')
                     | None => None
                     end = Some (v, r)) by (by destruct t').
        destruct (parse_members fuel _) as [[ms r']|] eqn:Hp; [| done].
        injection H' as <- <-. destruct (Hm _ _ eq_refl) as (Hl & Hf).
        split; [done |]. intros f Hle. by apply Hf.
    + (* an array *)
      destruct ts as [|t' ts']; [by destruct fuel as [|[|]] |].
      assert (He : forall vs r',
                 parse_elements fuel (t' :: ts') = Some (vs, r') ->
                 length r' < length (TLBracket :: t' :: ts')
                 /\ forall f, length (TLBracket :: t' :: ts') - length r' <= f ->
                      t' <> TRBracket ->
                      parse_value f (TLBracket :: t' :: ts') = Some (JArr vs, r')).
      { intros vs r' Hp. destruct (IHe _ _ _ Hp) as (Hl & Hf).
        split; [simpl in *; lia |].
        intros [|f] Hle Hne; [simpl in *; lia |].
        simpl. rewrite Hf by (simpl in *; lia). by destruct t'. }
      assert (Hcase : t' = TRBracket \/ t' <> TRBracket)
        by (destruct t'; (by left) || (by right)).
      destruct Hcase as [-> | Hne].
      * injection H as <- <-. split; [simpl; lia |].
        intros [|f] Hle; [simpl in Hle; lia | done].
      * assert (H' : match parse_elements fuel (t' :: ts') with
                     | Some (vs, r') => Some (JArr vs, r')
                     | None => None
                     end = Some (v, r)) by (by destruct t').
        destruct (parse_elements fuel _) as [[vs r']|] eqn:Hp; [| done].
        injection H' as <- <-. destruct (He _ _ eq_refl) as (Hl & Hf).
        split; [done |]. intros f Hle. by apply Hf.
    + (* a string *)
      injection H as <- <-. split; [simpl; lia |].
      intros [|f] Hle; [simpl in Hle; lia | done].
    + (* a literal name or a number *)
      destruct (word_value w) as [v'|] eqn:Hw; [| done].
      injection H as <- <-. split; [simpl; lia |].
      intros [|f] Hle; [simpl in Hle; lia |]. simpl. by rewrite Hw.
  - intros ts vs r H. simpl in H.
    destruct (parse_value fuel ts) as [[v rest]|] eqn:Hv; [| done].
    destruct (IHv _ _ _ Hv) as (Hlv & Hfv).
    destruct rest as [|t rest]; [done |].
    destruct t; try done.
    + (* the closing bracket *)
      injection H as <- <-. split; [simpl in *; lia |].
      intros [|f] Hle; [simpl in *; lia |].
      simpl. by rewrite Hfv by (simpl in *; lia).
    + (* a comma *)
      destruct (parse_elements fuel rest) as [[vs' r']|] eqn:Hp; [| done].
      injection H as <- <-. destruct (IHe _ _ _ Hp) as (Hle' & Hfe).
      split; [simpl in *; lia |].
      intros [|f] Hle; [simpl in *; lia |].
      simpl. rewrite Hfv by (simpl in *; lia).
      by rewrite Hfe by (simpl in *; lia).
  - intros ts ms r H. simpl in H.
    destruct ts as [|[] [|[] ts]]; try done.
    destruct (parse_value fuel ts) as [[v rest]|] eqn:Hv; [| done].
    destruct (IHv _ _ _ Hv) as (Hlv & Hfv).
    destruct rest as [|t rest]; [done |].
    destruct t; try done.
    + (* the closing brace *)
      injection H as <- <-. split; [simpl in *; lia |].
      intros [|f] Hle; [simpl in *; lia |].
      simpl. by rewrite Hfv by (simpl in *; lia).
    + (* a comma *)
      destruct (parse_members fuel rest) as [[ms' r']|] eqn:Hp; [| done].
      injection H as <- <-. destruct (IHm _ _ _ Hp) as (Hle' & Hfm).
      split; [simpl in *; lia |].
      intros [|f] Hle; [simpl in *; lia |].
      simpl. rewrite Hfv by (simpl in *; lia).
      by rewrite Hfm by (simpl in *; lia).
Qed.

(** [JSON_parse] finds every parse of the whole token list. *)
Lemma JSON_parse_complete (text : jsstring) (ts : list token) (fuel : nat)
  (v : jsval) :
  lex Idle text = Some ts ->
  parse_value fuel ts = Some (v, []) ->
  JSON_parse text = Some v.
Proof.
  intros Hl Hp. unfold JSON_parse. rewrite Hl.
  destruct (proj1 (parse_fuel_enough fuel) _ _ _ Hp) as (_ & Hf).
  rewrite Hf; [done |]. simpl. lia.
Qed.

(* ================================================================== *)
(** * Code fences                                                      *)
(* ================================================================== *)

(** Decide the comparisons of a code unit against constants. *)
Ltac cmp_cases :=
  repeat match goal with
         | |- context [N.eqb ?a ?b] =>
             destruct (N.eqb_spec a b); simpl; try lia
         | |- context [N.leb ?a ?b] =>
             destruct (N.leb_spec a b); simpl; try lia
         | |- context [N.ltb ?a ?b] =>
             destruct (N.ltb_spec a b); simpl; try lia
         end.

(** The whitespace [trim] removes: the controls 9 to 13, the space,
    and code units from 160 on. *)
Lemma js_whitespace_range (c : N) :
  is_js_whitespace c = true -> (9 <= c <= 13 \/ c = 32 \/ 160 <= c)%N.
Proof. unfold is_js_whitespace. cmp_cases; intros ?; try done; lia. Qed.

(** Of these JSON skips 9, 10, 13 and 32; the others lie outside the
    code units JSON text is made of. *)
Lemma js_whitespace_cases (c : N) :
  is_js_whitespace c = true ->
  is_json_ws c = true \/ (c = 11 \/ c = 12 \/ 160 <= c)%N.
Proof.
  intros H. apply js_whitespace_range in H.
  unfold is_json_ws. cmp_cases; auto; right; lia.
Qed.

Lemma lex_idle_json_ws (c : N) :
  is_json_ws c = true -> lex_idle c = Some ([], Idle).
Proof. intros H. unfold lex_idle. by rewrite H. Qed.

Lemma lex_idle_other_space (c : N) :
  (c = 11 \/ c = 12 \/ 160 <= c)%N -> lex_idle c = None.
Proof.
  intros H. unfold lex_idle, is_json_ws, QUOTE, punctuation, is_word_char,
    is_digit. cmp_cases; try done.
Qed.

Lemma word_char_not_space (c : N) :
  is_js_whitespace c = true -> is_word_char c = false.
Proof.
  intros H. apply js_whitespace_range in H.
  unfold is_word_char, is_digit. cmp_cases; try done.
Qed.

(** Whitespace at the end of the text adds no token: if the text
    scans with it, it scans to the same tokens without it. *)
Lemma lex_step_space_end (m : lexmode) (c : N) (ts : list token) :
  is_js_whitespace c = true ->
  lex m [c] = Some ts -> lex_end m = Some ts.
Proof.
  intros Hc. simpl.
  destruct m as [|acc|acc|acc|acc hex]; simpl.
  - destruct (js_whitespace_cases c Hc) as [Hj|Ho].
    + rewrite (lex_idle_json_ws c Hj). simpl. done.
    + by rewrite (lex_idle_other_space c Ho).
  - rewrite (word_char_not_space c Hc).
    destruct (js_whitespace_cases c Hc) as [Hj|Ho].
    + rewrite (lex_idle_json_ws c Hj). simpl. done.
    + by rewrite (lex_idle_other_space c Ho).
  - apply js_whitespace_range in Hc. unfold QUOTE, BACKSLASH.
    cmp_cases; try done.
  - apply js_whitespace_range in Hc. unfold simple_escape.
    cmp_cases; try done.
  - apply js_whitespace_range in Hc. unfold hex_value, is_digit.
    cmp_cases; try done.
Qed.

Lemma lex_drop_last_space (s : jsstring) :
  forall (m : lexmode) (c : N) (ts : list token),
    is_js_whitespace c = true ->
    lex m (s ++ [c]) = Some ts -> lex m s = Some ts.
Proof.
  induction s as [|a s IH]; intros m c ts Hc H.
  - by apply (lex_step_space_end m c).
  - simpl in *. destruct (lex_step m a) as [[t1 m']|]; [| done].
    destruct (lex m' (s ++ [c])) as [ts'|] eqn:Hl; [| done].
    by rewrite (IH m' c ts' Hc Hl).
Qed.

Lemma trimEnd_snoc (s : jsstring) (c : N) :
  trimEnd (s ++ [c]) = if is_js_whitespace c then trimEnd s else s ++ [c].
Proof.
  unfold trimEnd. rewrite rev_app_distr. simpl.
  destruct (is_js_whitespace c); [done |].
  simpl. by rewrite rev_involutive.
Qed.

Lemma lex_trimEnd (s : jsstring) (ts : list token) :
  lex Idle s = Some ts -> lex Idle (trimEnd s) = Some ts.
Proof.
  induction s as [|c s IH] using rev_ind; intros H; [done |].
  rewrite trimEnd_snoc. destruct (is_js_whitespace c) eqn:Hc; [| done].
  apply IH. by apply (lex_drop_last_space s Idle c).
Qed.

Lemma lex_trimStart (s : jsstring) (ts : list token) :
  lex Idle s = Some ts -> lex Idle (trimStart s) = Some ts.
Proof.
  induction s as [|c s IH]; intros H; [done |].
  simpl. destruct (is_js_whitespace c) eqn:Hc; [| done].
  apply IH. simpl in H.
  destruct (js_whitespace_cases c Hc) as [Hj|Ho].
  - rewrite (lex_idle_json_ws c Hj) in H.
    by destruct (lex Idle s).
  - by rewrite (lex_idle_other_space c Ho) in H.
Qed.

(** [JSON.parse] of valid text does not depend on the whitespace
    [trim] removes around it. *)
Lemma JSON_parse_trim (text : jsstring) (v : jsval) :
  JSON_parse text = Some v -> JSON_parse (trim text) = Some v.
Proof.
  unfold JSON_parse, trim. intros H.
  destruct (lex Idle text) as [ts|] eqn:Hl; [| done].
  by rewrite (lex_trimEnd _ ts (lex_trimStart _ ts Hl)).
Qed.

(** ** Removing the fence markup *)

Lemma occurs_cons (p : jsstring) (c : N) (s : jsstring) :
  occurs p (c :: s) = false ->
  has_prefix p (c :: s) = false /\ occurs p s = false.
Proof. simpl. intros H. by apply orb_false_elim in H. Qed.

Lemma occurs_head (p s : jsstring) :
  occurs p s = false -> has_prefix p s = false.
Proof. destruct s; simpl; intros H; by apply orb_false_elim in H as [? _]. Qed.

(** A prefix of a prefix is a prefix. *)
Lemma has_prefix_app (p q s : jsstring) :
  has_prefix (p ++ q) s = true -> has_prefix p s = true.
Proof.
  revert s. induction p as [|a p IH]; intros s; [done |].
  destruct s as [|b s]; simpl; [done |].
  intros H. apply andb_true_iff in H as [-> H]. by apply IH.
Qed.

(** A pattern without the code unit [c] starts in [s ++ c :: x] only
    where it starts in [s]. *)
Lemma has_prefix_before (p s x : jsstring) (c : N) :
  Forall (fun a => a <> c) p ->
  has_prefix p (s ++ c :: x) = has_prefix p s.
Proof.
  intros Hp. revert s. induction Hp as [|a p Ha Hp IH]; intros s; [done |].
  destruct s as [|b s]; simpl.
  - apply andb_false_iff. left. by apply N.eqb_neq.
  - by rewrite IH.
Qed.

(** Three backticks do not start at the line feed that closes the
    fence. *)
Lemma fence_prefix_app (s x : jsstring) :
  has_prefix FENCE (s ++ LF :: x) = has_prefix FENCE s.
Proof. apply has_prefix_before. by repeat constructor. Qed.

(** Where no alternative matches, the scan keeps the code unit. *)
Lemma remove_all_keep (alts : list jsstring) (c : N) (s : jsstring) :
  List.find (fun p => has_prefix p (c :: s)) alts = None ->
  remove_all alts 0 (c :: s) = c :: remove_all alts 0 s.
Proof.
  intros H.
  change (remove_all alts 0 (c :: s))
    with (match List.find (fun p => has_prefix p (c :: s)) alts with
          | Some p => remove_all alts (Nat.pred (length p)) s
          | None => c :: remove_all alts 0 s
          end).
  by rewrite H.
Qed.

(** Dropping the rest of a match is dropping that many code units. *)
Lemma remove_all_skip (alts : list jsstring) (k : nat) (s : jsstring) :
  remove_all alts k s = remove_all alts 0 (drop k s).
Proof.
  revert k. induction s as [|c s IH]; intros [|k]; try done.
  simpl drop. by rewrite <- IH.
Qed.

(** Where an alternative matches, the scan drops it. *)
Lemma remove_all_match (alts : list jsstring) (p : jsstring) (c : N)
  (s : jsstring) :
  List.find (fun q => has_prefix q (c :: s)) alts = Some p ->
  remove_all alts 0 (c :: s) = remove_all alts 0 (drop (Nat.pred (length p)) s).
Proof.
  intros H. rewrite <- remove_all_skip.
  change (remove_all alts 0 (c :: s))
    with (match List.find (fun p => has_prefix p (c :: s)) alts with
          | Some p => remove_all alts (Nat.pred (length p)) s
          | None => c :: remove_all alts 0 s
          end).
  by rewrite H.
Qed.

(** The second [replace] leaves text without backtick triples alone. *)
Lemma remove_fences_clean (s : jsstring) :
  occurs FENCE s = false -> remove_all [FENCE] 0 s = s.
Proof.
  induction s as [|c s IH]; intros H; [done |].
  apply occurs_cons in H as [Hp Ho].
  rewrite remove_all_keep.
  - by rewrite IH.
  - unfold List.find. by rewrite Hp.
Qed.

(** The first [replace] on such text followed by the closing fence
    removes that fence and nothing else. *)
Lemma remove_closing_fence (s : jsstring) :
  occurs FENCE s = false ->
  remove_all [js "```json" ++ [LF]; LF :: FENCE] 0 (s ++ LF :: FENCE) = s.
Proof.
  induction s as [|c s IH]; intros H; [done |].
  apply occurs_cons in H as [Hp Ho].
  assert (H1 : has_prefix (js "```json" ++ [LF]) ((c :: s) ++ LF :: FENCE)
               = false).
  { apply not_true_is_false. intros Ht.
    change (js "```json" ++ [LF]) with (FENCE ++ js "json" ++ [LF]) in Ht.
    apply has_prefix_app in Ht. rewrite fence_prefix_app in Ht. congruence. }
  assert (H2 : has_prefix (LF :: FENCE) ((c :: s) ++ LF :: FENCE) = false).
  { change (has_prefix (LF :: FENCE) ((c :: s) ++ LF :: FENCE))
      with (N.eqb LF c && has_prefix FENCE (s ++ LF :: FENCE)).
    rewrite fence_prefix_app, (occurs_head _ _ Ho).
    apply andb_false_r. }
  rewrite <- app_comm_cons in *. rewrite remove_all_keep.
  - by rewrite IH.
  - unfold List.find. by rewrite H1, H2.
Qed.

(** The markup around fenced text without backtick triples goes, and
    the text stays. *)
Lemma strip_fences_wrap (tagged : bool) (text : jsstring) :
  occurs FENCE text = false ->
  strip_fences (wrap tagged text) = trim text.
Proof.
  intros H. unfold strip_fences, wrap, fence_open.
  pose proof (remove_closing_fence text H) as Hc.
  pose proof (occurs_head _ _ H) as Hp.
  set (alts := [js "```json" ++ [LF]; LF :: FENCE]) in *.
  destruct tagged.
  - change ((js "```json" ++ [LF]) ++ text ++ LF :: FENCE)
      with (96%N :: ([96; 96; 106; 115; 111; 110; 10]%N
                       ++ text ++ LF :: FENCE)).
    rewrite (remove_all_match alts (js "```json" ++ [LF])) by reflexivity.
    change (drop _ _) with (text ++ LF :: FENCE).
    rewrite Hc. by rewrite remove_fences_clean.
  - change ((FENCE ++ [LF]) ++ text ++ LF :: FENCE)
      with (96%N :: 96%N :: 96%N :: LF :: text ++ LF :: FENCE).
    rewrite !(remove_all_keep alts); try reflexivity.
    + rewrite Hc.
      rewrite (remove_all_match [FENCE] FENCE) by reflexivity.
      change (drop _ _) with (LF :: text).
      rewrite (remove_all_keep [FENCE]) by reflexivity.
      by rewrite remove_fences_clean.
    + unfold alts, List.find.
      change (has_prefix (LF :: FENCE) (LF :: text ++ LF :: FENCE))
        with (has_prefix FENCE (text ++ LF :: FENCE)).
      by rewrite fence_prefix_app, Hp.
Qed.

(** [analyzeAudio] with its credential, a readable file and an answer
    of the model that parses. *)
Lemma analyzeAudio_answer (p t text : jsstring) (f : file) (w : World)
  (data : jsval) :
  key_missing (GEMINI_API_KEY (env w)) = false ->
  files (env w) !! p = Some (Readable f) ->
  model (env w) (AudioPrompt t (base64_data f)) = inr text ->
  JSON_parse (strip_fences text) = Some data ->
  nullish data = false ->
  fst (analyzeAudio p t w) = inr (analysis_of data).
Proof.
  intros Hk Hf Hm Hp Hn.
  unfold analyzeAudio, bind, try_catch, enter, getenv_GEMINI_API_KEY,
    readFileSync_base64, generateContent, JSON_parse_or_throw, read_entry.
  simpl. rewrite Hk. simpl. rewrite Hf. simpl. rewrite Hm, Hp.
  by destruct data.
Qed.

(** C6 (as amended).  For every model response whose text is a valid
    JSON object wrapped in code-fence markup (three backticks, tagged
    json or not, and a line feed before it; a line feed and three
    backticks after it) and whose JSON text holds no three backticks in
    a row, the extraction client strips the fence markup and
    successfully parses the enclosed JSON, returning the parsed object
    ([analyzeAudio]: the four members it reads from it). *)
Theorem fenced_json_parsed
  (tagged : bool) (text : jsstring) (ms : list (jsstring * jsval)) (w : World) :
  JSON_parse text = Some (JObj ms) ->
  occurs FENCE text = false ->
  JSON_parse (strip_fences (wrap tagged text)) = Some (JObj ms)
  /\ (forall c,
        key_missing (GEMINI_API_KEY (env w)) = false ->
        model (env w) (DocumentPrompt c) = inr (wrap tagged text) ->
        fst (extractFinancialData c w) = inr (JObj ms))
  /\ (forall p t f,
        key_missing (GEMINI_API_KEY (env w)) = false ->
        files (env w) !! p = Some (Readable f) ->
        model (env w) (AudioPrompt t (base64_data f)) = inr (wrap tagged text) ->
        fst (analyzeAudio p t w) = inr (analysis_of (JObj ms))).
Proof.
  intros Hp Hf.
  assert (Hs : JSON_parse (strip_fences (wrap tagged text)) = Some (JObj ms)).
  { rewrite strip_fences_wrap by done. by apply JSON_parse_trim. }
  split; [done |]. split.
  - intros c Hk Hm. by rewrite (extractFinancialData_answer _ _ _ Hk Hm), Hs.
  - intros p t f Hk Hfile Hm.
    by apply (analyzeAudio_answer p t (wrap tagged text) f).
Qed.

Lemma fenced_json_parsed_witness :
  JSON_parse Scenario.invoice_json = Some Scenario.invoice_data
  /\ occurs FENCE Scenario.invoice_json = false
  /\ fst (extractFinancialData Scenario.invoice_text Scenario.healthy)
     = inr Scenario.invoice_data.
Proof.
  assert (Hp : JSON_parse Scenario.invoice_json = Some Scenario.invoice_data)
    by (vm_compute; reflexivity).
  assert (Hf : occurs FENCE Scenario.invoice_json = false)
    by (vm_compute; reflexivity).
  split; [exact Hp |]. split; [exact Hf |].
  exact (proj1 (proj2 (fenced_json_parsed true _ _ Scenario.healthy Hp Hf))
           Scenario.invoice_text eq_refl eq_refl).
Defined.

(** C6 as stated fails: the model answers a fenced JSON object one of
    whose strings holds three backticks; the second [replace] removes
    them inside the JSON too, and the client returns an object that is
    not the one the enclosed JSON denotes. *)
Lemma fenced_backticks_altered :
  model (env Scenario.backticks) (DocumentPrompt Scenario.invoice_text)
  = inr (wrap true Scenario.backticks_json)
  /\ JSON_parse Scenario.backticks_json = Some (JObj [(js "a", JStr FENCE)])
  /\ fst (extractFinancialData Scenario.invoice_text Scenario.backticks)
     = inr (JObj [(js "a", JStr [])]).
Proof. conjuncts; vm_compute; reflexivity. Qed.

(* ================================================================== *)
(** * More on the update step                                          *)
(* ================================================================== *)

(** Looking a key up in the defined part of an update: entries under
    other keys do not matter. *)
Lemma update_field_filter_skip (k k' : string) (v : field) (upd : update) :
  k <> k' ->
  update_field k (List.filter defined_field ((k', v) :: upd))
  = update_field k (List.filter defined_field upd).
Proof.
  intros Hne. simpl. destruct (defined_field (k', v)); [| done].
  simpl. destruct (update_field k _); [done |].
  by destruct (decide (k = k')).
Qed.

Lemma update_field_filter_hit (k : string) (v : field) (upd : update) :
  defined_field (k, v) = true ->
  update_field k (List.filter defined_field upd) = None ->
  update_field k (List.filter defined_field ((k, v) :: upd)) = Some v.
Proof.
  intros Hd Hn. simpl. rewrite Hd. simpl. rewrite Hn.
  by destruct (decide (k = k)).
Qed.

(** Read a field off an update whose keys are literal. *)
Ltac update_lookup :=
  repeat (rewrite update_field_filter_skip by discriminate);
  try (rewrite update_field_filter_hit;
       [reflexivity | reflexivity
       | repeat (rewrite update_field_filter_skip by discriminate);
         reflexivity]);
  try reflexivity.

(** What the failure write leaves in the record. *)
Lemma failed_update_written (e : exn) (t : Z) (r : gmap string field)
  (k : string) :
  apply_update (failed_update e (FDateAt t)) r !! k =
    if decide (k = "status"%string)
    then Some (FValue (JStr (js "FAILED")))
    else if decide (k = "processingError"%string)
    then Some (FValue (JStr (message e)))
    else if decide (k = "processedAt"%string)
    then Some (FDateAt t)
    else r !! k.
Proof.
  rewrite apply_update_lookup. unfold failed_update.
  destruct (decide (k = "status"%string)) as [->|H1]; [by update_lookup |].
  destruct (decide (k = "processingError"%string)) as [->|H2];
    [by update_lookup |].
  destruct (decide (k = "processedAt"%string)) as [->|H3];
    [by update_lookup |].
  rewrite !update_field_filter_skip by congruence. done.
Qed.

(** The update step when the success update is built and the store is
    reached: the write goes through, or the [catch] block runs on the
    error of [caught_error]. *)
Lemma persist_caught (id : jsstring) (mk : M update) (upd : update)
  (w : World) (e : exn) :
  mk w = (inr upd, w) ->
  connect_fault (env w) = None ->
  caught_error w id upd = Some e ->
  persist id mk w = @mark_failed unit id e w.
Proof.
  intros Hmk Hc He. rewrite (persist_built _ _ _ _ Hmk), Hc.
  unfold caught_error in He.
  destruct (write_fault (env w) id upd); [by injection He as <- |].
  destruct (store w !! id); [done |]. by injection He as <-.
Qed.

(** X1.  When the success write of the update step itself throws (the
    store faults on it) while the record exists and the failure write
    goes through, the job marks the record: status FAILED,
    processingError the store's message, processedAt now; that write is
    its only one, and the job raises the store's error again. *)
Theorem write_failure_marks_failed
  (k : job_kind) (ev : event_data) (w w1 : World) (d : jsval)
  (rec : gmap string field) (msg : jsstring) :
  extraction_steps k ev w = (inr d, w1) ->
  nullish d = false ->
  connect_fault (env w) = None ->
  write_fault (env w) (documentId ev) (success_fields k d (now w)) = Some msg ->
  write_fault (env w) (documentId ev) (failed_update (Error msg) (now w))
  = None ->
  store w !! documentId ev = Some rec ->
  let w' := snd (run_job k ev w) in
  fst (run_job k ev w) = inl (Error msg)
  /\ field_of w' (documentId ev) "status" = Some (FValue (JStr (js "FAILED")))
  /\ field_of w' (documentId ev) "processingError" = Some (FValue (JStr msg))
  /\ field_of w' (documentId ev) "processedAt" = Some (now w)
  /\ mutations (events_of (run_job k ev) w)
     = [(documentId ev, failed_update (Error msg) (now w))].
Proof.
  intros Hsteps Hd Hc Hw Hf Hs w'.
  destruct (quiet_result _ _ _ _ (quiet_extraction_steps k ev) Hsteps)
    as (He & Hs1 & evs & Ht & Hn).
  assert (Hnow : now w1 = now w) by (unfold now; by rewrite He).
  assert (Hrun : run_job k ev w =
    (inl (Error msg),
     written w1 (documentId ev) (failed_update (Error msg) (now w)) rec)).
  { rewrite run_job_eq, Hsteps.
    rewrite (persist_caught _ _ _ _ (Error msg) (success_update_eq k d w1 Hd)).
    - by rewrite mark_failed_eq, He, Hnow, Hf, Hs1, Hs.
    - by rewrite He.
    - unfold caught_error. by rewrite He, Hnow, Hw. }
  unfold w'. rewrite Hrun. simpl fst. simpl snd.
  rewrite !field_of_written. unfold now. rewrite !failed_update_written.
  conjuncts; try done.
  rewrite (events_of_app _ _
    (EvMutate (documentId ev)
       (failed_update (Error msg) (FDateAt (clock (env w)))) :: evs)).
  - change (EvMutate ?i ?u :: evs) with ([EvMutate i u] ++ evs).
    by rewrite mutations_app, Hn.
  - rewrite Hrun. simpl. by rewrite Ht.
Qed.

(** X2.  A double fault: when the [catch] block of the update step runs
    (the success write faulted, or found no record) and its failure
    write throws in turn, the job raises the error of the failure write;
    the error that was caught is lost and nothing is written. *)
Theorem double_fault_loses_error
  (k : job_kind) (ev : event_data) (w w1 : World) (d : jsval)
  (e : exn) (msg : jsstring) :
  extraction_steps k ev w = (inr d, w1) ->
  nullish d = false ->
  connect_fault (env w) = None ->
  caught_error w (documentId ev) (success_fields k d (now w)) = Some e ->
  write_fault (env w) (documentId ev) (failed_update e (now w)) = Some msg ->
  run_job k ev w = (inl (Error msg), w1)
  /\ store w1 = store w
  /\ mutations (events_of (run_job k ev) w) = [].
Proof.
  intros Hsteps Hd Hc He Hf.
  destruct (quiet_result _ _ _ _ (quiet_extraction_steps k ev) Hsteps)
    as (Henv & Hs1 & evs & Ht & Hn).
  assert (Hnow : now w1 = now w) by (unfold now; by rewrite Henv).
  assert (Hrun : run_job k ev w = (inl (Error msg), w1)).
  { rewrite run_job_eq, Hsteps.
    rewrite (persist_caught _ _ _ _ e (success_update_eq k d w1 Hd)).
    - by rewrite mark_failed_eq, Henv, Hnow, Hf.
    - by rewrite Henv.
    - unfold caught_error in *. by rewrite Henv, Hnow, Hs1. }
  conjuncts; try done.
  rewrite (events_of_app _ _ evs); [done |]. by rewrite Hrun.
Qed.

(** X3.  When the data extracted for a document is [null] (the model
    answered the JSON text [null]), building the success update throws
    inside the [try] of the update step; with the record in place and
    the failure write going through, the record is marked FAILED with
    the TypeError's message and the job raises that TypeError. *)
Theorem null_data_marks_failed
  (ev : event_data) (w w1 : World) (d : jsval) (rec : gmap string field) :
  extraction_steps DocumentJob ev w = (inr d, w1) ->
  nullish d = true ->
  connect_fault (env w) = None ->
  store w !! documentId ev = Some rec ->
  let e := Error (type_error_message (env w) d (js "documentType")) in
  write_fault (env w) (documentId ev) (failed_update e (now w)) = None ->
  let w' := snd (processFinancialDocument ev w) in
  fst (processFinancialDocument ev w) = inl e
  /\ field_of w' (documentId ev) "status" = Some (FValue (JStr (js "FAILED")))
  /\ field_of w' (documentId ev) "processingError"
     = Some (FValue (JStr (message e)))
  /\ mutations (events_of (processFinancialDocument ev) w)
     = [(documentId ev, failed_update e (now w))].
Proof.
  intros Hsteps Hd Hc Hs e Hf w'.
  destruct (quiet_result _ _ _ _ (quiet_extraction_steps DocumentJob ev) Hsteps)
    as (Henv & Hs1 & evs & Ht & Hn).
  assert (Hnow : now w1 = now w) by (unfold now; by rewrite Henv).
  assert (Hmk : document_update d w1 = (inl e, w1)).
  { rewrite document_update_eq, Hd. unfold e. by rewrite Henv. }
  assert (Hrun : processFinancialDocument ev w =
    (inl e, written w1 (documentId ev) (failed_update e (now w)) rec)).
  { change (processFinancialDocument ev w) with (run_job DocumentJob ev w).
    rewrite run_job_eq, Hsteps.
    rewrite (persist_unbuilt _ _ _ _ Hmk), Henv, Hc.
    by rewrite mark_failed_eq, Henv, Hnow, Hf, Hs1, Hs. }
  unfold w'. rewrite Hrun. simpl fst. simpl snd.
  rewrite !field_of_written. unfold now. rewrite !failed_update_written.
  conjuncts; try done.
  rewrite (events_of_app _ _
    (EvMutate (documentId ev)
       (failed_update e (FDateAt (clock (env w)))) :: evs)).
  - change (EvMutate ?i ?u :: evs) with ([EvMutate i u] ++ evs).
    by rewrite mutations_app, Hn.
  - rewrite Hrun. simpl. by rewrite Ht.
Qed.

(** X4.  [connectToDatabase] is awaited before the [try] of the update
    step: when it throws, the job raises its error and writes nothing;
    the record, though it may exist, is not marked FAILED. *)
Theorem connect_failure_writes_nothing
  (k : job_kind) (ev : event_data) (w w1 : World) (d : jsval)
  (msg : jsstring) :
  extraction_steps k ev w = (inr d, w1) ->
  connect_fault (env w) = Some msg ->
  run_job k ev w = (inl (Error msg), w1)
  /\ store w1 = store w
  /\ mutations (events_of (run_job k ev) w) = [].
Proof.
  intros Hsteps Hc.
  destruct (quiet_result _ _ _ _ (quiet_extraction_steps k ev) Hsteps)
    as (Henv & Hs1 & evs & Ht & Hn).
  assert (Hrun : run_job k ev w = (inl (Error msg), w1)).
  { rewrite run_job_eq, Hsteps.
    unfold persist, bind, connectToDatabase. by rewrite Henv, Hc. }
  conjuncts; try done.
  rewrite (events_of_app _ _ evs); [done |]. by rewrite Hrun.
Qed.

(** What the success write leaves in the record, for the fields every
    success update sets and for one it never lists. *)
Lemma success_fields_written (k : job_kind) (d : jsval) (t : Z)
  (r : gmap string field) :
  apply_update (success_fields k d (FDateAt t)) r !! "status"%string
  = Some (FValue (JStr (js "COMPLETED")))
  /\ apply_update (success_fields k d (FDateAt t)) r !! "processedAt"%string
     = Some (FDateAt t)
  /\ apply_update (success_fields k d (FDateAt t)) r !! "processingError"%string
     = r !! "processingError"%string.
Proof.
  rewrite !apply_update_lookup.
  destruct k; unfold success_fields, document_fields, audio_fields;
    conjuncts; by update_lookup.
Qed.

(** A job returns only through the success write. *)
Lemma run_job_returns (k : job_kind) (ev : event_data) (w w' : World)
  (v : jsval) :
  run_job k ev w = (inr v, w') ->
  v = completed (documentId ev)
  /\ exists d w1 rec,
       extraction_steps k ev w = (inr d, w1)
       /\ nullish d = false
       /\ connect_fault (env w) = None
       /\ write_fault (env w) (documentId ev) (success_fields k d (now w))
          = None
       /\ store w !! documentId ev = Some rec
       /\ w' = written w1 (documentId ev) (success_fields k d (now w)) rec.
Proof.
  rewrite run_job_eq.
  destruct (extraction_steps k ev w) as [[e|d] w1] eqn:Hsteps; [done |].
  destruct (quiet_result _ _ _ _ (quiet_extraction_steps k ev) Hsteps)
    as (Henv & Hs1 & _).
  assert (Hnow : now w1 = now w) by (unfold now; by rewrite Henv).
  destruct (nullish d) eqn:Hd.
  - destruct (success_update_null k d w1 Hd) as (e & Hmk).
    rewrite (persist_unbuilt _ _ _ _ Hmk), Henv.
    destruct (connect_fault (env w)); [done |].
    rewrite mark_failed_eq. destruct (write_fault (env w1) _ _); [done |].
    by destruct (store w1 !! documentId ev).
  - rewrite (persist_built _ _ _ _ (success_update_eq k d w1 Hd)).
    rewrite Henv, Hnow, Hs1.
    destruct (connect_fault (env w)) eqn:Hc; [done |].
    destruct (write_fault (env w) (documentId ev) (success_fields k d (now w)))
      eqn:Hw.
    { rewrite mark_failed_eq. destruct (write_fault (env w1) _ _); [done |].
      by destruct (store w1 !! documentId ev). }
    destruct (store w !! documentId ev) as [rec|] eqn:Hs.
    + intros [= <- <-]. split; [done |]. by exists d, w1, rec.
    + rewrite mark_failed_eq. destruct (write_fault (env w1) _ _); [done |].
      by destruct (store w1 !! documentId ev).
Qed.

(** A job that raises has written nothing, or the failure update. *)
Lemma run_job_raises (k : job_kind) (ev : event_data) (w w' : World)
  (e : exn) :
  run_job k ev w = (inl e, w') ->
  store w' = store w
  \/ exists w1 rec,
       store w1 = store w
       /\ store w !! documentId ev = Some rec
       /\ w' = written w1 (documentId ev) (failed_update e (now w)) rec.
Proof.
  rewrite run_job_eq.
  destruct (extraction_steps k ev w) as [[e0|d] w1] eqn:Hsteps.
  { intros [= <- <-]. left.
    by destruct (quiet_result _ _ _ _ (quiet_extraction_steps k ev) Hsteps)
      as (_ & ? & _). }
  destruct (quiet_result _ _ _ _ (quiet_extraction_steps k ev) Hsteps)
    as (Henv & Hs1 & _).
  assert (Hnow : now w1 = now w) by (unfold now; by rewrite Henv).
  assert (Hmark : forall e0,
    @mark_failed unit (documentId ev) e0 w1 = (inl e, w') ->
    store w' = store w
    \/ exists w1 rec,
         store w1 = store w
         /\ store w !! documentId ev = Some rec
         /\ w' = written w1 (documentId ev) (failed_update e (now w)) rec).
  { intros e0. rewrite mark_failed_eq, Hnow, Hs1.
    destruct (write_fault _ _ _); [intros [= <- <-]; by left |].
    destruct (store w !! documentId ev) as [rec|] eqn:Hs;
      intros [= <- <-]; [right; by exists w1, rec | by left]. }
  destruct (nullish d) eqn:Hd.
  - destruct (success_update_null k d w1 Hd) as (e0 & Hmk).
    rewrite (persist_unbuilt _ _ _ _ Hmk).
    destruct (connect_fault (env w1)); [intros [= <- <-]; by left |].
    destruct (mark_failed _ _ _) as [[e1|[]] w2] eqn:Hm;
      intros [= <- <-]; by apply (Hmark _ Hm).
  - rewrite (persist_built _ _ _ _ (success_update_eq k d w1 Hd)).
    destruct (connect_fault (env w1)); [intros [= <- <-]; by left |].
    destruct (write_fault (env w1) _ _).
    { destruct (mark_failed _ _ _) as [[e1|[]] w2] eqn:Hm;
        intros [= <- <-]; by apply (Hmark _ Hm). }
    destruct (store w1 !! documentId ev); [done |].
    destruct (mark_failed _ _ _) as [[e1|[]] w2] eqn:Hm;
      intros [= <- <-]; by apply (Hmark _ Hm).
Qed.

(** X5.  A job returns normally only after its success write was
    applied: whenever it returns, the value is
    [{ documentId, status: 'completed' }], the record of the documentId
    exists and now reads status COMPLETED with processedAt set, and the
    success update is the one write of the execution. *)
Theorem return_implies_completed
  (k : job_kind) (ev : event_data) (w w' : World) (v : jsval) :
  run_job k ev w = (inr v, w') ->
  v = completed (documentId ev)
  /\ is_Some (store w !! documentId ev)
  /\ field_of w' (documentId ev) "status"
     = Some (FValue (JStr (js "COMPLETED")))
  /\ field_of w' (documentId ev) "processedAt" = Some (now w)
  /\ exists d, mutations (events_of (run_job k ev) w)
               = [(documentId ev, success_fields k d (now w))].
Proof.
  intros Hrun.
  destruct (run_job_returns _ _ _ _ _ Hrun)
    as (-> & d & w1 & rec & Hsteps & Hd & Hc & Hw & Hs & ->).
  destruct (success_fields_written k d (clock (env w)) rec) as (H1 & H2 & _).
  rewrite !field_of_written. unfold now in *.
  conjuncts; try done.
  exists d. by apply (run_job_success k ev w w1 d rec).
Qed.

(** X6.  Writes touch the listed fields only.  A job that returns
    leaves processingError as it was: the success update does not list
    it, so the message of an earlier failure is not cleared.  A job that
    raises leaves every field but status, processingError and
    processedAt as it was: fields extracted earlier stay. *)
Theorem writes_keep_unlisted_fields
  (k : job_kind) (ev : event_data) (w : World) :
  let w' := snd (run_job k ev w) in
  (forall v, fst (run_job k ev w) = inr v ->
     field_of w' (documentId ev) "processingError"
     = field_of w (documentId ev) "processingError")
  /\ (forall e name,
        fst (run_job k ev w) = inl e ->
        name <> "status"%string -> name <> "processingError"%string ->
        name <> "processedAt"%string ->
        field_of w' (documentId ev) name = field_of w (documentId ev) name).
Proof.
  intros w'. unfold w'.
  destruct (run_job k ev w) as [[e|v] w2] eqn:Hrun; simpl; split;
    try done.
  - intros e' name [= <-] H1 H2 H3.
    destruct (run_job_raises _ _ _ _ _ Hrun)
      as [Hs | (w1 & rec & Hs1 & Hs & ->)].
    + unfold field_of. by rewrite Hs.
    + rewrite field_of_written. unfold now. rewrite failed_update_written.
      repeat (destruct (decide _); [done |]).
      unfold field_of. by rewrite Hs.
  - intros v' [= <-].
    destruct (run_job_returns _ _ _ _ _ Hrun)
      as (-> & d & w1 & rec & Hsteps & Hd & Hc & Hw & Hs & ->).
    destruct (success_fields_written k d (clock (env w)) rec) as (_ & _ & H3).
    rewrite field_of_written. unfold now. rewrite H3.
    unfold field_of. by rewrite Hs.
Qed.

(** X7.  A job touches no record but its own and creates none: after
    any execution every other identifier holds what it held, and the
    identifiers that hold a record are the same. *)
Theorem job_touches_own_record_only
  (k : job_kind) (ev : event_data) (w : World) :
  let w' := snd (run_job k ev w) in
  (forall id, id <> documentId ev -> store w' !! id = store w !! id)
  /\ (forall id, is_Some (store w' !! id) <-> is_Some (store w !! id)).
Proof.
  intros w'. unfold w'.
  assert (Hcases : store (snd (run_job k ev w)) = store w
    \/ exists upd rec,
         store w !! documentId ev = Some rec
         /\ store (snd (run_job k ev w))
            = <[documentId ev := apply_update upd rec]> (store w)).
  { destruct (run_job k ev w) as [[e|v] w2] eqn:Hrun; simpl.
    - destruct (run_job_raises _ _ _ _ _ Hrun)
        as [Hs | (w1 & rec & Hs1 & Hs & ->)]; [by left |].
      right. exists (failed_update e (now w)), rec.
      split; [done |]. simpl. by rewrite Hs1.
    - destruct (run_job_returns _ _ _ _ _ Hrun)
        as (-> & d & w1 & rec & Hsteps & Hd & Hc & Hw & Hs & ->).
      destruct (quiet_result _ _ _ _ (quiet_extraction_steps k ev) Hsteps)
        as (_ & Hs1 & _).
      right. exists (success_fields k d (now w)), rec.
      split; [done |]. simpl. by rewrite Hs1. }
  destruct Hcases as [-> | (upd & rec & Hs & ->)]; [done |].
  split.
  - intros id Hne. by rewrite lookup_insert_ne.
  - intros id. destruct (decide (id = documentId ev)) as [->|Hne].
    + rewrite lookup_insert_eq, Hs. by split; eauto.
    + by rewrite lookup_insert_ne.
Qed.

(** ** Instances *)

Lemma write_failure_marks_failed_witness :
  let ev := Scenario.invoice_event in
  let w := Cases.success_write_fails in
  write_fault (env w) (documentId ev)
    (success_fields DocumentJob Scenario.invoice_data (now w))
  = Some (js "connection reset")
  /\ fst (run_job DocumentJob ev w) = inl (Error (js "connection reset"))
  /\ field_of (snd (run_job DocumentJob ev w)) (documentId ev) "processingError"
     = Some (FValue (JStr (js "connection reset"))).
Proof.
  intros ev w.
  assert (Hw : write_fault (env w) (documentId ev)
                 (success_fields DocumentJob Scenario.invoice_data (now w))
               = Some (js "connection reset")) by (vm_compute; reflexivity).
  split; [exact Hw |].
  assert (Hsteps : extraction_steps DocumentJob ev w
                   = (inr Scenario.invoice_data,
                      with_trace w Scenario.invoice_trace))
    by (vm_compute; reflexivity).
  pose proof (write_failure_marks_failed DocumentJob ev w _ _ Cases.fresh _
                Hsteps eq_refl eq_refl Hw eq_refl eq_refl) as H.
  split; [exact (proj1 H) | exact (proj1 (proj2 (proj2 H)))].
Defined.

Lemma double_fault_loses_error_witness :
  let ev := Scenario.invoice_event in
  let w := Cases.every_write_fails in
  caught_error w (documentId ev)
    (success_fields DocumentJob Scenario.invoice_data (now w))
  = Some (Error (js "connection reset"))
  /\ run_job DocumentJob ev w
     = (inl (Error (js "connection closed")),
        with_trace w Scenario.invoice_trace).
Proof.
  intros ev w.
  assert (He : caught_error w (documentId ev)
                 (success_fields DocumentJob Scenario.invoice_data (now w))
               = Some (Error (js "connection reset")))
    by (vm_compute; reflexivity).
  split; [exact He |].
  assert (Hsteps : extraction_steps DocumentJob ev w
                   = (inr Scenario.invoice_data,
                      with_trace w Scenario.invoice_trace))
    by (vm_compute; reflexivity).
  exact (proj1 (double_fault_loses_error DocumentJob ev w _ _ _
                  (js "connection closed") Hsteps eq_refl eq_refl He eq_refl)).
Defined.

Lemma null_data_marks_failed_witness :
  let ev := Scenario.invoice_event in
  let w := Cases.null_answer in
  fst (extraction_steps DocumentJob ev w) = inr JNull
  /\ field_of (snd (processFinancialDocument ev w)) (documentId ev) "status"
     = Some (FValue (JStr (js "FAILED")))
  /\ field_of (snd (processFinancialDocument ev w)) (documentId ev)
       "processingError"
     = Some (FValue (JStr (js "Cannot read properties of null"))).
Proof.
  intros ev w.
  assert (Hsteps : extraction_steps DocumentJob ev w
                   = (inr JNull, with_trace w Scenario.invoice_trace))
    by (vm_compute; reflexivity).
  split; [by rewrite Hsteps |].
  pose proof (null_data_marks_failed ev w _ _ Cases.fresh
                Hsteps eq_refl eq_refl eq_refl eq_refl) as H.
  split; [exact (proj1 (proj2 H)) | exact (proj1 (proj2 (proj2 H)))].
Defined.

Lemma connect_failure_writes_nothing_witness :
  let ev := Scenario.call_event in
  let w := Cases.unreachable in
  connect_fault (env w) = Some (js "ECONNREFUSED")
  /\ run_job AudioJob ev w
     = (inl (Error (js "ECONNREFUSED")), with_trace w Scenario.call_trace).
Proof.
  intros ev w. split; [reflexivity |].
  assert (Hsteps : extraction_steps AudioJob ev w
                   = (inr Scenario.call_analysis,
                      with_trace w Scenario.call_trace))
    by (vm_compute; reflexivity).
  exact (proj1 (connect_failure_writes_nothing AudioJob ev w _ _ _
                  Hsteps eq_refl)).
Defined.

Lemma return_implies_completed_witness :
  let ev := Scenario.invoice_event in
  let w := Scenario.healthy in
  fst (run_job DocumentJob ev w) = inr (completed (documentId ev))
  /\ field_of (snd (run_job DocumentJob ev w)) (documentId ev) "status"
     = Some (FValue (JStr (js "COMPLETED"))).
Proof.
  intros ev w.
  assert (Hrun : run_job DocumentJob ev w
                 = (inr (completed (documentId ev)),
                    snd (run_job DocumentJob ev w)))
    by (vm_compute; reflexivity).
  split; [by rewrite Hrun |].
  exact (proj1 (proj2 (proj2 (return_implies_completed _ _ _ _ _ Hrun)))).
Defined.

Lemma writes_keep_unlisted_fields_witness :
  let ev := Scenario.invoice_event in
  let w := Cases.success_write_fails in
  fst (run_job DocumentJob ev w) = inl (Error (js "connection reset"))
  /\ field_of (snd (run_job DocumentJob ev w)) (documentId ev) "documentType"
     = field_of w (documentId ev) "documentType".
Proof.
  intros ev w.
  assert (H : fst (run_job DocumentJob ev w)
              = inl (Error (js "connection reset")))
    by (vm_compute; reflexivity).
  split; [exact H |].
  refine (proj2 (writes_keep_unlisted_fields DocumentJob ev w) _
            "documentType"%string H _ _ _); discriminate.
Defined.

Lemma job_touches_own_record_only_witness :
  let ev := Scenario.invoice_event in
  let w := Scenario.healthy in
  js "d2" <> documentId ev
  /\ store (snd (run_job DocumentJob ev w)) !! js "d2" = store w !! js "d2".
Proof.
  intros ev w.
  assert (H : js "d2" <> documentId ev) by discriminate.
  split; [exact H |].
  exact (proj1 (job_touches_own_record_only DocumentJob ev w) (js "d2") H).
Defined.

(* ================================================================== *)
(** * More on the extraction client                                    *)
(* ================================================================== *)

Lemma model_calls_app (a b : list event) :
  model_calls (a ++ b) = model_calls a ++ model_calls b.
Proof. unfold model_calls. apply omap_app. Qed.

(** The events of a call of [extractFinancialData]. *)
Lemma extractFinancialData_trace (c : jsstring) (w : World) :
  trace (snd (extractFinancialData c w)) =
    ((if key_missing (GEMINI_API_KEY (env w)) then []
      else [EvGenerate (DocumentPrompt c)])
     ++ [EvExtractFinancialData c]) ++ trace w.
Proof.
  destruct (key_missing (GEMINI_API_KEY (env w))) eqn:Hk.
  - by rewrite extractFinancialData_no_key.
  - destruct (model (env w) (DocumentPrompt c)) as [msg|text] eqn:Hm.
    + by rewrite (extractFinancialData_model_error _ _ _ Hk Hm).
    + by rewrite (extractFinancialData_answer _ _ _ Hk Hm).
Qed.

(** The events of a call of [analyzeAudio]. *)
Lemma analyzeAudio_trace (p t : jsstring) (w : World) :
  trace (snd (analyzeAudio p t w)) =
    ((if key_missing (GEMINI_API_KEY (env w)) then []
      else match read_entry (env w) p with
           | inl _ => [EvReadFile p]
           | inr f => [EvGenerate (AudioPrompt t (base64_data f)); EvReadFile p]
           end)
     ++ [EvAnalyzeAudio p t]) ++ trace w.
Proof.
  unfold analyzeAudio, bind, try_catch, enter, getenv_GEMINI_API_KEY,
    readFileSync_base64, generateContent, JSON_parse_or_throw, read_prop,
    throw, ret. simpl.
  destruct (key_missing _); [done |]. simpl.
  destruct (read_entry _ _); [done |]. simpl.
  destruct (model _ _); [done |].
  destruct (JSON_parse _) as [data|]; [| done].
  by destruct data.
Qed.

(** X8.  The extraction client calls the model at most once per call
    and never retries.  [extractFinancialData] sends exactly one
    request, built from the content it was given whatever that is (the
    empty string too), unless the credential is unset or empty, when it
    sends none.  [analyzeAudio] sends exactly one request, carrying the
    given mime type and the file's base64, unless the credential is
    unset or empty or the file cannot be read, when it sends none. *)
Theorem one_model_call_at_most (c p t : jsstring) (w : World) :
  model_calls (events_of (extractFinancialData c) w)
  = (if key_missing (GEMINI_API_KEY (env w)) then []
     else [DocumentPrompt c])
  /\ model_calls (events_of (analyzeAudio p t) w)
     = (if key_missing (GEMINI_API_KEY (env w)) then []
        else match read_entry (env w) p with
             | inl _ => []
             | inr f => [AudioPrompt t (base64_data f)]
             end).
Proof.
  split.
  - rewrite (events_of_app _ _ _ (extractFinancialData_trace c w)).
    by destruct (key_missing _).
  - rewrite (events_of_app _ _ _ (analyzeAudio_trace p t w)).
    by destruct (key_missing _); [| destruct (read_entry _ _)].
Qed.

(** X13.  [analyzeAudio] on a path it cannot read (no such file, or an
    entry whose read throws): with the credential set it raises the
    read error under its own prefix, after the read attempt and before
    any model call. *)
Theorem analyzeAudio_unreadable_file (p t : jsstring) (w : World) (e : exn) :
  key_missing (GEMINI_API_KEY (env w)) = false ->
  read_entry (env w) p = inl e ->
  analyzeAudio p t w =
    (inl (Error (js "Failed to analyze audio with Gemini: " ++ message e)),
     with_trace w (EvReadFile p :: EvAnalyzeAudio p t :: trace w))
  /\ model_calls (events_of (analyzeAudio p t) w) = [].
Proof.
  intros Hk Hr. split.
  - unfold analyzeAudio, bind, try_catch, enter, getenv_GEMINI_API_KEY,
      readFileSync_base64. simpl. rewrite Hk. simpl. by rewrite Hr.
  - rewrite (events_of_app _ _ _ (analyzeAudio_trace p t w)).
    by rewrite Hk, Hr.
Qed.

Lemma analyzeAudio_unreadable_file_witness :
  let w := Scenario.missing_file in
  read_entry (env w) (js "/tmp/call.wav")
  = inl (Error (js "ENOENT: no such file or directory"))
  /\ fst (analyzeAudio (js "/tmp/call.wav") (js "audio/wav") w)
     = inl (Error (js "Failed to analyze audio with Gemini: "
                     ++ js "ENOENT: no such file or directory")).
Proof.
  intros w.
  assert (Hr : read_entry (env w) (js "/tmp/call.wav")
               = inl (Error (js "ENOENT: no such file or directory")))
    by reflexivity.
  split; [exact Hr |].
  by rewrite (proj1 (analyzeAudio_unreadable_file (js "/tmp/call.wav")
                       (js "audio/wav") w _ eq_refl Hr)).
Defined.

(** X14.  For every audio-job execution where the audio file is missing
    at the referenced path, the job raises an error naming the path and
    leaves the world untouched: [analyzeAudio] is not entered, no file
    is read, no model call is made, and the record is not written. *)
Theorem audio_missing_file_raises_unwritten (ev : event_data) (w : World) :
  files (env w) !! filePath ev = None ->
  processFinancialAudio ev w =
    (inl (Error (js "Failed to analyze audio with Gemini: "
                   ++ js "Audio file not found at path: " ++ filePath ev)), w)
  /\ events_of (processFinancialAudio ev) w = [].
Proof.
  intros H.
  assert (Hrun : processFinancialAudio ev w =
    (inl (Error (js "Failed to analyze audio with Gemini: "
                   ++ js "Audio file not found at path: " ++ filePath ev)), w)).
  { unfold processFinancialAudio, step_run, bind, analyze_audio_gemini,
      try_catch, bind, existsSync. by rewrite H. }
  split; [done |]. apply events_of_app. by rewrite Hrun.
Qed.

Lemma audio_missing_file_raises_unwritten_witness :
  files (env Scenario.missing_file) !! filePath Scenario.call_event = None
  /\ events_of (processFinancialAudio Scenario.call_event)
       Scenario.missing_file = [].
Proof.
  assert (H : files (env Scenario.missing_file)
                !! filePath Scenario.call_event = None) by reflexivity.
  split; [exact H |].
  exact (proj2 (audio_missing_file_raises_unwritten _ _ H)).
Defined.

(** Step 1 of the document job on a readable file. *)
Lemma read_file_readable (p : jsstring) (w : World) (f : file) :
  files (env w) !! p = Some (Readable f) ->
  read_file p w = (inr (utf8_text f), with_trace w (EvReadFile p :: trace w)).
Proof.
  intros Hf. unfold read_file, try_catch, bind, existsSync, readFile_utf8,
    read_entry. rewrite Hf. simpl. by rewrite ?Hf.
Qed.

(** The steps before the update when the model call fails. *)
Lemma extraction_steps_model_error (k : job_kind) (ev : event_data)
  (w : World) (f : file) (msg : jsstring) :
  key_missing (GEMINI_API_KEY (env w)) = false ->
  files (env w) !! filePath ev = Some (Readable f) ->
  model (env w) (job_request k ev f) = inl msg ->
  exists evs,
    extraction_steps k ev w
    = (inl (Error (model_error_message k msg)), with_trace w (evs ++ trace w))
    /\ model_calls evs = [job_request k ev f].
Proof.
  intros Hk Hf Hm. destruct k; simpl in *.
  - exists [EvGenerate (DocumentPrompt (utf8_text f));
            EvExtractFinancialData (utf8_text f);
            EvReadFile (filePath ev)].
    split; [| done].
    unfold bind. rewrite (read_file_readable _ _ _ Hf).
    unfold extract_data_with_ai, try_catch.
    by rewrite (extractFinancialData_model_error _ msg
                  (with_trace w (EvReadFile (filePath ev) :: trace w)) Hk Hm).
  - exists [EvGenerate (AudioPrompt (audio_fileType (filePath ev))
                          (base64_data f));
            EvReadFile (filePath ev);
            EvAnalyzeAudio (filePath ev) (audio_fileType (filePath ev))].
    split; [| done].
    unfold analyze_audio_gemini, try_catch, bind, existsSync.
    rewrite Hf. simpl.
    unfold analyzeAudio, bind, try_catch, enter, getenv_GEMINI_API_KEY,
      readFileSync_base64, generateContent, read_entry. simpl.
    rewrite Hk. simpl. rewrite Hf. simpl. by rewrite Hm.
Qed.

(** X15.  When the one model call of a job fails with a message, the
    job raises an error whose message is that message under two
    prefixes, the client's and the step's: "AI Extraction Failed:
    Failed to extract financial data from document: " for a document,
    and "Failed to analyze audio with Gemini: " twice for audio.  The
    model was called once and the record is not written. *)
Theorem model_error_reaches_job
  (k : job_kind) (ev : event_data) (w : World) (f : file) (msg : jsstring) :
  key_missing (GEMINI_API_KEY (env w)) = false ->
  files (env w) !! filePath ev = Some (Readable f) ->
  model (env w) (job_request k ev f) = inl msg ->
  fst (run_job k ev w) = inl (Error (model_error_message k msg))
  /\ model_calls (events_of (run_job k ev) w) = [job_request k ev f]
  /\ mutations (events_of (run_job k ev) w) = []
  /\ store (snd (run_job k ev w)) = store w.
Proof.
  intros Hk Hf Hm.
  destruct (extraction_steps_model_error k ev w f msg Hk Hf Hm)
    as (evs & Hsteps & Hcalls).
  destruct (steps_failure_propagates _ _ _ _ _ Hsteps) as (Hrun & Hs & Hmut).
  rewrite Hrun. simpl. conjuncts; try done.
  rewrite (events_of_app _ _ evs); [done |]. by rewrite Hrun.
Qed.

Lemma model_error_reaches_job_witness :
  let ev := Scenario.call_event in
  let w := Scenario.model_down in
  model (env w)
    (job_request AudioJob ev
       {| utf8_text := js "RIFF"; base64_data := js "UklGRg==" |})
  = inl (js "429 Too Many Requests")
  /\ fst (run_job AudioJob ev w)
     = inl (Error (js "Failed to analyze audio with Gemini: "
                     ++ js "Failed to analyze audio with Gemini: "
                     ++ js "429 Too Many Requests")).
Proof.
  intros ev w. split; [reflexivity |].
  refine (proj1 (model_error_reaches_job AudioJob ev w
                   {| utf8_text := js "RIFF"; base64_data := js "UklGRg==" |}
                   (js "429 Too Many Requests") eq_refl _ eq_refl)).
  vm_compute; reflexivity.
Defined.

(* ================================================================== *)
(** * More on fence stripping                                          *)
(* ================================================================== *)

Lemma has_prefix_true (p s : jsstring) :
  has_prefix p s = true <-> exists t, s = p ++ t.
Proof.
  split.
  - revert s. induction p as [|a p IH]; intros s H; [by exists s |].
    destruct s as [|b s]; [done |]. simpl in H.
    apply andb_true_iff in H as [Hab H]. apply N.eqb_eq in Hab as ->.
    destruct (IH s H) as (t & ->). by exists t.
  - intros (t & ->). induction p as [|a p IH]; [done |].
    simpl. by rewrite N.eqb_refl.
Qed.

(** The first [replace] leaves text without backtick triples alone. *)
Lemma remove_tagged_clean (s : jsstring) :
  occurs FENCE s = false ->
  remove_all [js "```json" ++ [LF]; LF :: FENCE] 0 s = s.
Proof.
  induction s as [|c s IH]; intros H; [done |].
  apply occurs_cons in H as [Hp Ho].
  rewrite remove_all_keep; [by rewrite IH |].
  assert (H1 : has_prefix (js "```json" ++ [LF]) (c :: s) = false).
  { apply not_true_is_false. intros Ht.
    change (js "```json" ++ [LF]) with (FENCE ++ js "json" ++ [LF]) in Ht.
    apply has_prefix_app in Ht. congruence. }
  assert (H2 : has_prefix (LF :: FENCE) (c :: s) = false).
  { change (has_prefix (LF :: FENCE) (c :: s))
      with (N.eqb LF c && has_prefix FENCE s).
    rewrite (occurs_head _ _ Ho). apply andb_false_r. }
  unfold List.find. by rewrite H1, H2.
Qed.

(** X9.  A response that holds no three backticks in a row goes to
    [JSON.parse] as it is, trimmed: nothing else is removed from it.
    So the client returns what valid unfenced JSON text denotes. *)
Theorem unfenced_response_parsed
  (text : jsstring) (v : jsval) (c : jsstring) (w : World) :
  occurs FENCE text = false ->
  strip_fences text = trim text
  /\ (JSON_parse text = Some v ->
      key_missing (GEMINI_API_KEY (env w)) = false ->
      model (env w) (DocumentPrompt c) = inr text ->
      fst (extractFinancialData c w) = inr v).
Proof.
  intros H.
  assert (Hs : strip_fences text = trim text).
  { unfold strip_fences. by rewrite remove_tagged_clean, remove_fences_clean. }
  split; [done |]. intros Hp Hk Hm.
  rewrite (extractFinancialData_answer _ _ _ Hk Hm), Hs.
  by rewrite (JSON_parse_trim _ _ Hp).
Qed.

(** ** Text that cannot parse *)

(** A word under way ends as one token, whatever follows. *)
Lemma lex_in_word (s : jsstring) :
  forall acc ts,
    lex (InWord acc) s = Some ts ->
    exists w ts', ts = TWord (rev acc ++ w) :: ts'.
Proof.
  induction s as [|c s IH]; intros acc ts H.
  - injection H as <-. exists [], []. by rewrite app_nil_r.
  - simpl in H. destruct (is_word_char c).
    + destruct (lex (InWord (c :: acc)) s) as [ts'|] eqn:Hl; [| done].
      injection H as <-. destruct (IH _ _ Hl) as (w & ts'' & ->).
      exists (c :: w), ts''. simpl. by rewrite <- app_assoc.
    + destruct (lex_idle c) as [[ts0 m']|]; [| done].
      destruct (lex m' s) as [ts'|]; [| done].
      injection H as <-. exists [], (ts0 ++ ts'). by rewrite app_nil_r.
Qed.

(** No JSON text starts with the letter [j]. *)
Lemma JSON_parse_j (s : jsstring) : JSON_parse (106%N :: s) = None.
Proof.
  unfold JSON_parse.
  change (lex Idle (106%N :: s))
    with (match lex (InWord [106%N]) s with
          | None => None
          | Some ts' => Some ([] ++ ts')
          end).
  destruct (lex (InWord [106%N]) s) as [ts|] eqn:Hl; [| done].
  destruct (lex_in_word _ _ _ Hl) as (w & ts' & ->).
  reflexivity.
Qed.

Lemma trimStart_snoc_nonspace (s : jsstring) (c : N) :
  is_js_whitespace c = false -> trimStart (s ++ [c]) = trimStart s ++ [c].
Proof.
  intros Hc. induction s as [|a s IH]; simpl; [by rewrite Hc |].
  by destruct (is_js_whitespace a).
Qed.

(** [trim] keeps a first code unit that is not whitespace. *)
Lemma trim_cons_nonspace (c : N) (s : jsstring) :
  is_js_whitespace c = false -> trim (c :: s) = c :: trimEnd s.
Proof.
  intros Hc. unfold trim. simpl. rewrite Hc. unfold trimEnd. simpl.
  by rewrite (trimStart_snoc_nonspace _ _ Hc), rev_app_distr.
Qed.

(** X10.  A response that opens with a fence tagged json and a
    carriage return (a code fence with Windows line ends) is never
    parsed: the first [replace] does not match the opening, the second
    leaves the tag behind, and [JSON.parse] rejects the text.  The
    client raises the SyntaxError under its prefix. *)
Theorem crlf_fence_rejected (rest c : jsstring) (w : World) :
  let text := js "```json" ++ 13%N :: rest in
  JSON_parse (strip_fences text) = None
  /\ (key_missing (GEMINI_API_KEY (env w)) = false ->
      model (env w) (DocumentPrompt c) = inr text ->
      fst (extractFinancialData c w)
      = inl (Error (js "Failed to extract financial data from document: "
                      ++ syntax_error_message (env w) (strip_fences text)))).
Proof.
  intros text.
  assert (Hp : JSON_parse (strip_fences text) = None).
  { unfold text, strip_fences.
    set (alts := [js "```json" ++ [LF]; LF :: FENCE]).
    change (js "```json" ++ 13%N :: rest)
      with ([96; 96; 96; 106; 115; 111; 110; 13]%N ++ rest).
    simpl app. rewrite !(remove_all_keep alts) by reflexivity.
    rewrite (remove_all_match [FENCE] FENCE) by reflexivity.
    simpl drop. rewrite !(remove_all_keep [FENCE]) by reflexivity.
    rewrite trim_cons_nonspace by reflexivity. apply JSON_parse_j. }
  split; [done |]. intros Hk Hm.
  by rewrite (extractFinancialData_answer _ _ _ Hk Hm), Hp.
Qed.

(** X11.  A response that starts with a line feed followed by a fence
    tagged json is never parsed either: the first [replace] takes the
    line feed and the backticks for a closing fence and leaves the tag
    behind. *)
Theorem leading_newline_fence_rejected (rest c : jsstring) (w : World) :
  let text := LF :: js "```json" ++ rest in
  JSON_parse (strip_fences text) = None
  /\ (key_missing (GEMINI_API_KEY (env w)) = false ->
      model (env w) (DocumentPrompt c) = inr text ->
      fst (extractFinancialData c w)
      = inl (Error (js "Failed to extract financial data from document: "
                      ++ syntax_error_message (env w) (strip_fences text)))).
Proof.
  intros text.
  assert (Hp : JSON_parse (strip_fences text) = None).
  { unfold text, strip_fences.
    set (alts := [js "```json" ++ [LF]; LF :: FENCE]).
    change (LF :: js "```json" ++ rest)
      with (10%N :: [96; 96; 96; 106; 115; 111; 110]%N ++ rest).
    simpl app.
    rewrite (remove_all_match alts (LF :: FENCE)) by reflexivity.
    simpl drop. rewrite !(remove_all_keep alts) by reflexivity.
    rewrite !(remove_all_keep [FENCE]) by reflexivity.
    rewrite trim_cons_nonspace by reflexivity. apply JSON_parse_j. }
  split; [done |]. intros Hk Hm.
  by rewrite (extractFinancialData_answer _ _ _ Hk Hm), Hp.
Qed.

Lemma unfenced_response_parsed_witness :
  occurs FENCE Scenario.invoice_json = false
  /\ strip_fences Scenario.invoice_json = trim Scenario.invoice_json.
Proof.
  assert (H : occurs FENCE Scenario.invoice_json = false)
    by (vm_compute; reflexivity).
  split; [exact H |].
  exact (proj1 (unfenced_response_parsed Scenario.invoice_json JNull []
                  Scenario.healthy H)).
Defined.

Lemma crlf_fence_rejected_witness :
  let w := Scenario.world
             (Scenario.environment (Some (js "key")) Scenario.disk
                (inr (js "```json" ++ 13%N :: LF :: js "{}"
                         ++ 13%N :: LF :: js "```"))
                (inl (js "unused")))
             Scenario.uploaded in
  key_missing (GEMINI_API_KEY (env w)) = false
  /\ exists msg, fst (extractFinancialData Scenario.invoice_text w)
                 = inl (Error msg).
Proof.
  intros w. split; [reflexivity |].
  eexists.
  exact (proj2 (crlf_fence_rejected
                  (LF :: js "{}" ++ 13%N :: LF :: js "```")
                  Scenario.invoice_text w) eq_refl eq_refl).
Defined.

Lemma leading_newline_fence_rejected_witness :
  let w := Scenario.world
             (Scenario.environment (Some (js "key")) Scenario.disk
                (inr (LF :: js "```json" ++ LF :: js "{}" ++ LF :: js "```"))
                (inl (js "unused")))
             Scenario.uploaded in
  key_missing (GEMINI_API_KEY (env w)) = false
  /\ exists msg, fst (extractFinancialData Scenario.invoice_text w)
                 = inl (Error msg).
Proof.
  intros w. split; [reflexivity |].
  eexists.
  exact (proj2 (leading_newline_fence_rejected
                  (LF :: js "{}" ++ LF :: js "```")
                  Scenario.invoice_text w) eq_refl eq_refl).
Defined.

(** ** What stripping leaves *)

Lemma has_prefix_extend (p s t : jsstring) :
  has_prefix p s = true -> has_prefix p (s ++ t) = true.
Proof.
  intros H. apply has_prefix_true in H as (u & ->).
  apply has_prefix_true. exists (u ++ t). by rewrite app_assoc.
Qed.

(** Text in which [p] does not occur has no part in which it does. *)
Lemma occurs_app_l (p s t : jsstring) :
  occurs p (s ++ t) = false -> occurs p s = false.
Proof.
  induction s as [|c s IH]; intros H.
  - simpl. destruct (has_prefix p []) eqn:Hp; [| done].
    apply (has_prefix_extend _ _ t) in Hp.
    by rewrite (occurs_head _ _ H) in Hp.
  - rewrite <- app_comm_cons in H. apply occurs_cons in H as [Hp Ho].
    simpl. rewrite (IH Ho), orb_false_r.
    apply not_true_is_false. intros Ht.
    apply (has_prefix_extend _ _ t) in Ht. simpl in Ht, Hp. congruence.
Qed.

Lemma occurs_trimStart (p s : jsstring) :
  occurs p s = false -> occurs p (trimStart s) = false.
Proof.
  induction s as [|c s IH]; intros H; [done |].
  simpl. destruct (is_js_whitespace c); [| done].
  apply IH. by apply occurs_cons in H as [_ ?].
Qed.

Lemma occurs_trimEnd (p s : jsstring) :
  occurs p s = false -> occurs p (trimEnd s) = false.
Proof.
  induction s as [|c s IH] using rev_ind; intros H; [done |].
  rewrite trimEnd_snoc. destruct (is_js_whitespace c); [| done].
  apply IH. by apply occurs_app_l in H.
Qed.

Lemma has_prefix_cons (a b : N) (p s : jsstring) :
  has_prefix (a :: p) (b :: s) = N.eqb a b && has_prefix p s.
Proof. reflexivity. Qed.

(** A first code unit that is no backtick starts no fence. *)
Lemma fence_needs_backtick (b : N) (s : jsstring) :
  N.eqb 96 b = false -> has_prefix FENCE (b :: s) = false.
Proof.
  intros H. change FENCE with [96; 96; 96]%N.
  by rewrite has_prefix_cons, H.
Qed.

(** After the second [replace], two backticks start the text only if
    they did before. *)
Lemma remove_fences_two (s : jsstring) :
  has_prefix [96; 96]%N s = false ->
  has_prefix [96; 96]%N (remove_all [FENCE] 0 s) = false.
Proof.
  intros H. destruct s as [|a s]; [done |].
  assert (Ha : has_prefix FENCE (a :: s) = false).
  { apply not_true_is_false. intros Ht.
    change FENCE with ([96; 96]%N ++ [96%N]) in Ht.
    apply has_prefix_app in Ht. congruence. }
  rewrite remove_all_keep by (unfold List.find; by rewrite Ha).
  rewrite has_prefix_cons in *.
  destruct (N.eqb 96 a); [| done]. rewrite andb_true_l in *.
  destruct s as [|b s]; [done |].
  rewrite has_prefix_cons in H. change (has_prefix [] s) with true in H.
  rewrite andb_true_r in H.
  rewrite remove_all_keep
    by (unfold List.find; by rewrite (fence_needs_backtick _ _ H)).
  by rewrite has_prefix_cons, H.
Qed.

(** The second [replace] leaves no three backticks in a row. *)
Lemma remove_fences_none (n : nat) :
  forall s, length s <= n -> occurs FENCE (remove_all [FENCE] 0 s) = false.
Proof.
  induction n as [|n IH]; intros s Hn.
  - destruct s; [done | simpl in Hn; lia].
  - destruct s as [|c s]; [done |].
    destruct (has_prefix FENCE (c :: s)) eqn:Hp.
    + rewrite (remove_all_match [FENCE] FENCE)
        by (unfold List.find; by rewrite Hp).
      apply IH. simpl in Hn. rewrite length_drop. simpl. lia.
    + rewrite remove_all_keep by (unfold List.find; by rewrite Hp).
      change (occurs FENCE (c :: ?x))
        with (has_prefix FENCE (c :: x) || occurs FENCE x).
      rewrite (IH s) by (simpl in Hn; lia). rewrite orb_false_r.
      change FENCE with [96; 96; 96]%N in Hp |- * at 1.
      rewrite has_prefix_cons in *.
      destruct (N.eqb 96 c); [| done]. rewrite andb_true_l in *.
      by apply remove_fences_two.
Qed.

Lemma trimStart_idem (s : jsstring) : trimStart (trimStart s) = trimStart s.
Proof.
  induction s as [|c s IH]; [done |]. simpl.
  destruct (is_js_whitespace c) eqn:Hc; [done |]. simpl. by rewrite Hc.
Qed.

Lemma trimEnd_idem (s : jsstring) : trimEnd (trimEnd s) = trimEnd s.
Proof. unfold trimEnd. by rewrite rev_involutive, trimStart_idem. Qed.

(** What [trimStart] leaves is empty or starts with a code unit that is
    not whitespace. *)
Lemma trimStart_head (s : jsstring) :
  trimStart s = []
  \/ exists c r, trimStart s = c :: r /\ is_js_whitespace c = false.
Proof.
  induction s as [|c s IH]; [by left |]. simpl.
  destruct (is_js_whitespace c) eqn:Hc; [done |]. right. by exists c, s.
Qed.

Lemma trimEnd_cons_nonspace (c : N) (s : jsstring) :
  is_js_whitespace c = false -> trimEnd (c :: s) = c :: trimEnd s.
Proof.
  intros Hc. rewrite <- (trim_cons_nonspace c s Hc).
  unfold trim. simpl. by rewrite Hc.
Qed.

Lemma trim_idem (s : jsstring) : trim (trim s) = trim s.
Proof.
  unfold trim at 2 3.
  destruct (trimStart_head s) as [-> | (c & r & -> & Hc)]; [done |].
  rewrite (trimEnd_cons_nonspace c r Hc).
  by rewrite (trim_cons_nonspace _ _ Hc), trimEnd_idem.
Qed.

(** X12.  Whatever the response, the text handed to [JSON.parse] holds
    no three backticks in a row, and stripping it again changes
    nothing. *)
Theorem strip_fences_leaves_no_fence (responseText : jsstring) :
  occurs FENCE (strip_fences responseText) = false
  /\ strip_fences (strip_fences responseText) = strip_fences responseText.
Proof.
  assert (H : occurs FENCE (strip_fences responseText) = false).
  { unfold strip_fences, trim.
    apply occurs_trimEnd, occurs_trimStart.
    by apply (remove_fences_none _ _ (Nat.le_refl _)). }
  split; [done |].
  unfold strip_fences at 1.
  rewrite (remove_tagged_clean _ H), (remove_fences_clean _ H).
  unfold strip_fences. apply trim_idem.
Qed.

(** ** The suffix test of the audio job *)

(** [endsWith] holds of the texts that end with the suffix. *)
Lemma endsWith_true (s suffix : jsstring) :
  endsWith s suffix = true <-> exists p, s = p ++ suffix.
Proof.
  unfold endsWith. rewrite has_prefix_true. split.
  - intros (t & Ht). exists (rev t).
    apply (f_equal (@rev N)) in Ht.
    by rewrite rev_involutive, rev_app_distr, rev_involutive in Ht.
  - intros (p & ->). exists (rev p). by rewrite rev_app_distr.
Qed.

(** X16.  The audio job types as "audio/wav" exactly the paths that
    are some text followed by ".wav" (in lower case); every other path,
    ".WAV" and ".wave" included, is typed "audio/mp3". *)
Theorem wav_paths_characterised (path : jsstring) :
  (audio_fileType path = js "audio/wav"
   <-> exists p, path = p ++ js ".wav")
  /\ (audio_fileType path = js "audio/mp3"
      <-> ~ exists p, path = p ++ js ".wav").
Proof.
  unfold audio_fileType. rewrite <- endsWith_true.
  destruct (endsWith path (js ".wav")); split; split; try done.
Qed.

(* ================================================================== *)
(** * Delivering an event again                                        *)
(* ================================================================== *)

Section StoreBlind.
Context {A B : Type}.

Lemma store_blind_ret (a : A) : store_blind (ret a).
Proof.
  intros w w' _. exists (inr a), []. by rewrite !with_trace_id.
Qed.

Lemma store_blind_throw (e : exn) : store_blind (@throw A e).
Proof.
  intros w w' _. exists (inl e), []. by rewrite !with_trace_id.
Qed.

Lemma store_blind_bind (m : M A) (k : A -> M B) :
  store_blind m -> (forall a, store_blind (k a)) -> store_blind (bind m k).
Proof.
  intros Hm Hk w w' He. unfold bind.
  destruct (Hm w w' He) as (r & e1 & -> & -> & Hn1).
  destruct r as [e|a]; [by exists (inl e), e1 |].
  destruct (Hk a (with_trace w (e1 ++ trace w))
              (with_trace w' (e1 ++ trace w')) He)
    as (r2 & e2 & -> & -> & Hn2).
  exists r2, (e2 ++ e1). simpl. rewrite !app_assoc.
  by rewrite mutations_app, Hn1, Hn2.
Qed.

Lemma store_blind_try_catch (m : M A) (h : exn -> M A) :
  store_blind m -> (forall e, store_blind (h e)) ->
  store_blind (try_catch m h).
Proof.
  intros Hm Hh w w' He. unfold try_catch.
  destruct (Hm w w' He) as (r & e1 & -> & -> & Hn1).
  destruct r as [e|a]; [| by exists (inr a), e1].
  destruct (Hh e (with_trace w (e1 ++ trace w))
              (with_trace w' (e1 ++ trace w')) He)
    as (r2 & e2 & -> & -> & Hn2).
  exists r2, (e2 ++ e1). simpl. rewrite !app_assoc.
  by rewrite mutations_app, Hn1, Hn2.
Qed.

Lemma store_blind_if (b : bool) (m1 m2 : M A) :
  store_blind m1 -> store_blind m2 -> store_blind (if b then m1 else m2).
Proof. by destruct b. Qed.
End StoreBlind.

(** A primitive that reads the environment only and adds the events
    [evs] is blind to the store. *)
Lemma store_blind_reader {A} (m : M A) (f : Env -> exn + A)
  (evs : list event) :
  (forall w, m w = (f (env w), with_trace w (evs ++ trace w))) ->
  mutations evs = [] ->
  store_blind m.
Proof.
  intros Hm Hn w w' He. exists (f (env w)), evs.
  rewrite !Hm. by rewrite He.
Qed.

Lemma store_blind_enter (e : event) :
  mutations [e] = [] -> store_blind (enter e).
Proof. intros H. by apply (store_blind_reader _ (fun _ => inr tt) [e]). Qed.

Lemma store_blind_getenv : store_blind getenv_GEMINI_API_KEY.
Proof.
  apply (store_blind_reader _ (fun e => inr (GEMINI_API_KEY e)) []);
    [| done].
  intros w. unfold getenv_GEMINI_API_KEY. by rewrite with_trace_id.
Qed.

Lemma store_blind_existsSync (p : jsstring) : store_blind (existsSync p).
Proof.
  apply (store_blind_reader _
           (fun e => inr (bool_decide (is_Some (files e !! p)))) []);
    [| done].
  intros w. unfold existsSync. by rewrite with_trace_id.
Qed.

Lemma store_blind_readFile_utf8 (p : jsstring) :
  store_blind (readFile_utf8 p).
Proof.
  apply (store_blind_reader _
           (fun e => match read_entry e p with
                     | inl x => inl x
                     | inr f => inr (utf8_text f)
                     end) [EvReadFile p]); [| done].
  intros w. unfold readFile_utf8. by destruct (read_entry _ _).
Qed.

Lemma store_blind_readFileSync_base64 (p : jsstring) :
  store_blind (readFileSync_base64 p).
Proof.
  apply (store_blind_reader _
           (fun e => match read_entry e p with
                     | inl x => inl x
                     | inr f => inr (base64_data f)
                     end) [EvReadFile p]); [| done].
  intros w. unfold readFileSync_base64. by destruct (read_entry _ _).
Qed.

Lemma store_blind_generateContent (req : request) :
  store_blind (generateContent req).
Proof.
  apply (store_blind_reader _
           (fun e => match model e req with
                     | inl msg => inl (Error msg)
                     | inr text => inr text
                     end) [EvGenerate req]); [| done].
  intros w. unfold generateContent. by destruct (model _ _).
Qed.

Lemma store_blind_JSON_parse_or_throw (text : jsstring) :
  store_blind (JSON_parse_or_throw text).
Proof.
  apply (store_blind_reader _
           (fun e => match JSON_parse text with
                     | Some v => inr v
                     | None => inl (Error (syntax_error_message e text))
                     end) []); [| done].
  intros w. unfold JSON_parse_or_throw.
  destruct (JSON_parse text); by rewrite with_trace_id.
Qed.

Lemma store_blind_read_prop (v : jsval) (k : string) :
  store_blind (read_prop v k).
Proof.
  apply (store_blind_reader _
           (fun e => match get_prop v (js k) with
                     | Some x => inr x
                     | None => inl (Error (type_error_message e v (js k)))
                     end) []); [| done].
  intros w. unfold read_prop.
  destruct (get_prop v (js k)); by rewrite with_trace_id.
Qed.

Create HintDb store_blind.
#[local] Hint Resolve store_blind_ret store_blind_throw store_blind_getenv
  store_blind_existsSync store_blind_readFile_utf8
  store_blind_readFileSync_base64 store_blind_generateContent
  store_blind_JSON_parse_or_throw store_blind_read_prop : store_blind.

Ltac store_blind_steps :=
  repeat first
    [ apply store_blind_bind; [| intros ?]
    | apply store_blind_try_catch; [| intros ?]
    | apply store_blind_if
    | apply store_blind_enter; reflexivity
    | solve [auto with store_blind] ].

Lemma store_blind_extraction_steps (k : job_kind) (ev : event_data) :
  store_blind (extraction_steps k ev).
Proof.
  destruct k; simpl.
  - unfold read_file, extract_data_with_ai, extractFinancialData.
    store_blind_steps.
  - unfold analyze_audio_gemini, analyzeAudio. store_blind_steps.
Qed.

(** Extraction steps that return have sent exactly one request. *)
Lemma extraction_returns_one_call
  (k : job_kind) (ev : event_data) (w w1 : World) (d : jsval) :
  extraction_steps k ev w = (inr d, w1) ->
  length (model_calls (events_of (extraction_steps k ev) w)) = 1.
Proof.
  intros H.
  assert (Ht : exists req evs,
    trace w1 = evs ++ trace w /\ model_calls evs = [req]).
  { revert H. destruct k; simpl.
    - unfold read_file, extract_data_with_ai, extractFinancialData,
        step_run, bind, try_catch, enter, existsSync, readFile_utf8,
        getenv_GEMINI_API_KEY, generateContent, JSON_parse_or_throw,
        throw, ret. simpl.
      destruct (files (env w) !! filePath ev) as [[f|?]|] eqn:Hf;
        unfold read_entry; simpl; rewrite ?Hf; simpl; try done.
      destruct (key_missing _); simpl; [done |].
      destruct (model _ _) as [?|text]; simpl; [done |].
      destruct (JSON_parse _); simpl; [| done].
      intros [= _ <-]. simpl.
      by exists (DocumentPrompt (utf8_text f)),
        [EvGenerate (DocumentPrompt (utf8_text f));
         EvExtractFinancialData (utf8_text f); EvReadFile (filePath ev)].
    - unfold analyze_audio_gemini, analyzeAudio,
        step_run, bind, try_catch, enter, existsSync, readFileSync_base64,
        getenv_GEMINI_API_KEY, generateContent, JSON_parse_or_throw,
        read_prop, throw, ret. simpl.
      destruct (files (env w) !! filePath ev) as [[f|?]|] eqn:Hf;
        unfold read_entry; simpl; rewrite ?Hf; simpl; try done.
      + destruct (key_missing _); simpl; [done |].
        rewrite ?Hf. simpl.
        destruct (model _ _) as [?|text]; simpl; [done |].
        destruct (JSON_parse _) as [data|]; simpl; [| done].
        destruct data; simpl; try done.
        all: intros [= _ <-]; simpl; by eexists _, [_; _; _].
      + destruct (key_missing _); simpl; [done |].
        by rewrite ?Hf. }
  destruct Ht as (req & evs & Ht & Hc).
  assert (He : events_of (extraction_steps k ev) w = evs).
  { apply events_of_app. by rewrite H. }
  by rewrite He, Hc.
Qed.

(** X17.  Nothing in a job looks at the record before processing: under
    an unchanged environment, delivering the event of a job that
    returned once more runs everything again.  The second execution
    returns too, calls the model again and writes the success update
    again; its events are those of the first. *)
Theorem redelivery_repeats
  (k : job_kind) (ev : event_data) (w w' : World) (v : jsval) :
  run_job k ev w = (inr v, w') ->
  fst (run_job k ev w') = inr v
  /\ events_of (run_job k ev) w' = events_of (run_job k ev) w
  /\ length (model_calls (events_of (run_job k ev) w')) = 1
  /\ length (mutations (events_of (run_job k ev) w')) = 1.
Proof.
  intros Hrun.
  destruct (run_job_returns _ _ _ _ _ Hrun)
    as (-> & d & w1 & rec & Hsteps & Hd & Hc & Hw & Hs & ->).
  set (id := documentId ev) in *.
  set (upd := success_fields k d (now w)) in *.
  set (w' := written w1 id upd rec) in *.
  assert (Henv : env w = env w').
  { unfold w'. simpl.
    by destruct (quiet_result _ _ _ _ (quiet_extraction_steps k ev) Hsteps)
      as (-> & _). }
  destruct (store_blind_extraction_steps k ev w w' Henv)
    as (r & evs & H1 & H2 & Hn).
  rewrite Hsteps in H1. injection H1 as <- ->.
  assert (Hrec' : store w' !! id = Some (apply_update upd rec)).
  { unfold w'. simpl. by rewrite lookup_insert_eq. }
  assert (Hnow : now w' = now w) by (unfold now; by rewrite Henv).
  destruct (run_job_success k ev w' _ d (apply_update upd rec) H2 Hd)
    as (Hrun2 & Hmut2).
  { by rewrite <- Henv. }
  { by rewrite <- Henv, Hnow. }
  { done. }
  assert (Hcalls : length (model_calls evs) = 1).
  { rewrite <- (extraction_returns_one_call k ev w _ d Hsteps).
    f_equal. f_equal. symmetry. apply events_of_app. by rewrite Hsteps. }
  assert (Hev1 : events_of (run_job k ev) w = EvMutate id upd :: evs).
  { apply events_of_app. by rewrite Hrun. }
  assert (Hev2 : events_of (run_job k ev) w' = EvMutate id upd :: evs).
  { apply events_of_app. rewrite Hrun2, Hnow. done. }
  rewrite Hrun2, Hev1, Hev2. conjuncts; try done.
  change (EvMutate id upd :: evs) with ([EvMutate id upd] ++ evs).
  by rewrite mutations_app, Hn.
Qed.

(* ================================================================== *)
(** * The diagnostic scripts                                           *)
(* ================================================================== *)

(** ** The model probe *)

Lemma try_models_first_success
  (api : jsstring -> jsstring + jsstring)
  (pre post msgs : list jsstring) (m r : jsstring) :
  Forall2 (fun x msg => api x = inl msg) pre msgs ->
  api m = inr r ->
  Scripts.try_models api (pre ++ m :: post)
  = (Scripts.failures pre msgs
       ++ [Scripts.testing m; Scripts.Line (js "SUCCESS");
           Scripts.recommendation m],
     pre ++ [m]).
Proof.
  intros Hpre Hm. induction Hpre as [|x msg pre msgs Hx Hpre IH]; simpl.
  - by rewrite Hm.
  - by rewrite Hx, IH.
Qed.

Lemma try_models_all_fail
  (api : jsstring -> jsstring + jsstring) (ms msgs : list jsstring) :
  Forall2 (fun x msg => api x = inl msg) ms msgs ->
  Scripts.try_models api ms = (Scripts.failures ms msgs, ms).
Proof.
  intros H. induction H as [|x msg ms msgs Hx H IH]; simpl; [done |].
  by rewrite Hx, IH.
Qed.

(** X18.  [listModels] tries the six models in the order of the list
    and stops at the first whose call succeeds: the models before it
    are each called once and reported as failed, it is recommended, and
    the models after it are never called. *)
Theorem listModels_stops_at_first_success
  (api : jsstring -> jsstring + jsstring)
  (pre post msgs : list jsstring) (m r : jsstring) :
  Scripts.modelsToTry = pre ++ m :: post ->
  Forall2 (fun x msg => api x = inl msg) pre msgs ->
  api m = inr r ->
  Scripts.listModels api
  = (Scripts.Line (js "Testing specific models...")
       :: Scripts.failures pre msgs
       ++ [Scripts.testing m; Scripts.Line (js "SUCCESS");
           Scripts.recommendation m],
     pre ++ [m]).
Proof.
  intros Hl Hpre Hm. unfold Scripts.listModels. rewrite Hl.
  by rewrite (try_models_first_success api pre post msgs m r Hpre Hm).
Qed.

Lemma listModels_stops_at_first_success_witness :
  let api := fun m => if decide (m = js "gemini-2.0-flash-exp")
                      then inr (js "Hi") else inl (js "404 Not Found") in
  snd (Scripts.listModels api)
  = [js "gemini-1.5-flash-002"; js "gemini-1.5-pro-002";
     js "gemini-2.0-flash-exp"].
Proof.
  intros api.
  by rewrite (listModels_stops_at_first_success api
                [js "gemini-1.5-flash-002"; js "gemini-1.5-pro-002"]
                [js "gemini-1.5-flash-8b"; js "gemini-1.5-flash";
                 js "gemini-pro"]
                [js "404 Not Found"; js "404 Not Found"]
                (js "gemini-2.0-flash-exp") (js "Hi") eq_refl
                ltac:(repeat constructor) eq_refl).
Defined.

(** X19.  When the call fails for each of the six models, [listModels]
    has called every one of them once, reports six failures, gives no
    recommendation and ends normally. *)
Theorem listModels_none_works
  (api : jsstring -> jsstring + jsstring) (msgs : list jsstring) :
  Forall2 (fun x msg => api x = inl msg) Scripts.modelsToTry msgs ->
  Scripts.listModels api
  = (Scripts.Line (js "Testing specific models...")
       :: Scripts.failures Scripts.modelsToTry msgs,
     Scripts.modelsToTry)
  /\ length (Scripts.failures Scripts.modelsToTry msgs) = 12
  /\ forall m, ~ In (Scripts.recommendation m) (fst (Scripts.listModels api)).
Proof.
  intros H.
  assert (Hrun : Scripts.listModels api
    = (Scripts.Line (js "Testing specific models...")
         :: Scripts.failures Scripts.modelsToTry msgs,
       Scripts.modelsToTry)).
  { unfold Scripts.listModels. by rewrite (try_models_all_fail _ _ _ H). }
  split; [done |].
  pose proof (Forall2_length _ _ _ H) as Hlen.
  do 7 (destruct msgs as [|? msgs]; try done).
  split; [done |].
  intros m. rewrite Hrun. simpl.
  unfold Scripts.failures, Scripts.recommendation, Scripts.failed,
    Scripts.testing. simpl.
  intros Hin. repeat (destruct Hin as [Hin|Hin]; [discriminate Hin |]).
  done.
Qed.

Lemma listModels_none_works_witness :
  let api := fun _ : jsstring => @inl jsstring jsstring (js "403") in
  snd (Scripts.listModels api) = Scripts.modelsToTry.
Proof.
  intros api.
  pose proof (listModels_none_works api (replicate 6 (js "403"))
                ltac:(repeat constructor)) as (H & _).
  by rewrite H.
Defined.

Lemma first_line_no_LF (msg : jsstring) :
  ~ In LF (Scripts.first_line msg).
Proof.
  induction msg as [|c r IH]; simpl; [tauto |].
  destruct (N.eqb c LF) eqn:Hc; simpl; [tauto |].
  apply N.eqb_neq in Hc. intros [H|H]; [done | by apply IH].
Qed.

Lemma first_line_app (l rest : jsstring) :
  ~ In LF l -> Scripts.first_line (l ++ LF :: rest) = l.
Proof.
  induction l as [|c l IH]; simpl; intros H; [done |].
  destruct (N.eqb c LF) eqn:Hc.
  - apply N.eqb_eq in Hc. tauto.
  - rewrite IH; [done | tauto].
Qed.

Lemma js_no_LF_app (a b : jsstring) :
  ~ In LF a -> ~ In LF b -> ~ In LF (a ++ b).
Proof. intros Ha Hb H. apply in_app_or in H. tauto. Qed.

Lemma try_models_no_LF
  (api : jsstring -> jsstring + jsstring) (ms : list jsstring) :
  Forall (fun m => ~ In LF m) ms ->
  Forall (fun o => ~ In LF (Scripts.shown_text o))
    (fst (Scripts.try_models api ms)).
Proof.
  intros H. induction H as [|m ms Hm H IH]; [constructor |].
  cbn [Scripts.try_models].
  assert (Ht : ~ In LF (Scripts.shown_text (Scripts.testing m))).
  { unfold Scripts.testing. cbn [Scripts.shown_text].
    apply js_no_LF_app; [by vm_compute; intuition discriminate |].
    apply js_no_LF_app; [done | by vm_compute; intuition discriminate]. }
  destruct (api m) as [msg|r].
  - destruct (Scripts.try_models api ms) as [out called].
    cbn [fst] in *.
    constructor; [done |]. constructor; [| done].
    unfold Scripts.failed. cbn [Scripts.shown_text].
    apply js_no_LF_app; [by vm_compute; intuition discriminate |].
    apply first_line_no_LF.
  - cbn [fst]. constructor; [done |].
    constructor; [by vm_compute; intuition discriminate |].
    constructor; [| constructor].
    unfold Scripts.recommendation. cbn [Scripts.shown_text].
    apply js_no_LF_app; [by vm_compute; intuition discriminate |].
    apply js_no_LF_app; [done | by vm_compute; intuition discriminate].
Qed.

(** X20.  Whatever the calls answer, nothing [listModels] writes holds
    a line feed: of an error message of several lines only the first
    line is printed, so every attempt takes one line of output. *)
Theorem listModels_prints_first_line_only
  (api : jsstring -> jsstring + jsstring) :
  Forall (fun o => ~ In LF (Scripts.shown_text o))
    (fst (Scripts.listModels api))
  /\ forall l rest, ~ In LF l ->
       Scripts.failed (l ++ LF :: rest)
       = Scripts.Line (js "FAILED - " ++ l).
Proof.
  split.
  - unfold Scripts.listModels.
    pose proof (try_models_no_LF api Scripts.modelsToTry) as H.
    destruct (Scripts.try_models api Scripts.modelsToTry) as [out called].
    cbn [fst] in *. constructor; [by vm_compute; intuition discriminate |].
    apply H. repeat constructor; by vm_compute; intuition discriminate.
  - intros l rest Hl. unfold Scripts.failed. by rewrite first_line_app.
Qed.

(** ** The model list *)

Lemma remove_first_eq (p s : jsstring) :
  Scripts.remove_first p s
  = if has_prefix p s then drop (length p) s
    else match s with
         | [] => []
         | c :: r => c :: Scripts.remove_first p r
         end.
Proof. by destruct s. Qed.

Lemma remove_first_prefix (p x : jsstring) :
  Scripts.remove_first p (p ++ x) = x.
Proof.
  rewrite remove_first_eq.
  assert (H : has_prefix p (p ++ x) = true)
    by (apply has_prefix_true; by exists x).
  by rewrite H, drop_app_length.
Qed.

Lemma remove_first_absent (p s : jsstring) :
  occurs p s = false -> Scripts.remove_first p s = s.
Proof.
  induction s as [|c s IH]; intros H; rewrite remove_first_eq.
  - by rewrite (occurs_head _ _ H).
  - rewrite (occurs_head _ _ H). f_equal. apply IH.
    by apply occurs_cons in H as [_ ?].
Qed.

Lemma remove_first_at (p a b : jsstring) :
  (forall a1 a2, a = a1 ++ a2 -> a2 <> [] ->
     has_prefix p (a2 ++ p ++ b) = false) ->
  Scripts.remove_first p (a ++ p ++ b) = a ++ b.
Proof.
  induction a as [|c a IH]; intros H.
  - exact (remove_first_prefix p b).
  - rewrite remove_first_eq.
    rewrite (H [] (c :: a) eq_refl); [| done].
    simpl. f_equal. apply IH. intros a1 a2 -> Ha2.
    by apply (H (c :: a1) a2).
Qed.

(** X23.  The listing removes [models/] from a name once, at its first
    occurrence wherever that is: a name that starts with it loses the
    prefix (and keeps a second [models/] after it), a name without it
    is printed unchanged, and a name that holds it further on loses it
    there. *)
Theorem name_prefix_removed_once :
  (forall x, Scripts.remove_first Scripts.MODELS (Scripts.MODELS ++ x) = x)
  /\ (forall s, occurs Scripts.MODELS s = false ->
        Scripts.remove_first Scripts.MODELS s = s)
  /\ (forall a b,
        (forall a1 a2, a = a1 ++ a2 -> a2 <> [] ->
           has_prefix Scripts.MODELS (a2 ++ Scripts.MODELS ++ b) = false) ->
        Scripts.remove_first Scripts.MODELS (a ++ Scripts.MODELS ++ b)
        = a ++ b).
Proof.
  split; [apply remove_first_prefix |].
  split; [apply remove_first_absent | apply remove_first_at].
Qed.

Lemma name_prefix_removed_once_witness :
  Scripts.remove_first Scripts.MODELS (js "tunedModels/mine")
  = js "tunedModels/mine"
  /\ Scripts.remove_first Scripts.MODELS (js "x/models/y") = js "x/y".
Proof.
  split.
  - apply (proj1 (proj2 name_prefix_removed_once)). reflexivity.
  - apply (proj2 (proj2 name_prefix_removed_once) (js "x/") (js "y")).
    intros a1 a2 Ha Hne.
    change (js "x/") with [120; 47]%N in Ha.
    destruct a1 as [|c1 [|c2 [|c3 a1]]]; simpl in Ha.
    + subst a2. reflexivity.
    + injection Ha as _ <-. reflexivity.
    + injection Ha as _ _ <-. done.
    + discriminate Ha.
Defined.

Lemma forEach_log_names (items : list jsval) (names : list jsstring) :
  Forall2 (fun m n => get_prop m (js "name") = Some (JStr n)) items names ->
  Scripts.forEach_log items
  = (map (fun n => Scripts.ModelLine
                     (Scripts.remove_first Scripts.MODELS n)) names,
     None).
Proof.
  intros H. induction H as [|m n items names Hm H IH]; [done |].
  cbn [Scripts.forEach_log]. by rewrite Hm, IH.
Qed.

Lemma forEach_log_bad (pre post : list jsval) (bad : jsval)
  (names : list jsstring) :
  Forall2 (fun m n => get_prop m (js "name") = Some (JStr n)) pre names ->
  (forall n, get_prop bad (js "name") <> Some (JStr n)) ->
  Scripts.forEach_log (pre ++ bad :: post)
  = (map (fun n => Scripts.ModelLine
                     (Scripts.remove_first Scripts.MODELS n)) names,
     Some Scripts.TypeError).
Proof.
  intros H Hbad. induction H as [|m n items names Hm H IH].
  - cbn [app Scripts.forEach_log].
    destruct (get_prop bad (js "name")) as [[]|] eqn:Hb; try done.
    by destruct (Hbad s).
  - cbn [app Scripts.forEach_log]. by rewrite Hm, IH.
Qed.

Lemma forEach_log_line (items : list jsval) (n : jsstring) :
  In (Scripts.ModelLine n) (fst (Scripts.forEach_log items)) ->
  exists m full,
    In m items /\ get_prop m (js "name") = Some (JStr full)
    /\ n = Scripts.remove_first Scripts.MODELS full.
Proof.
  induction items as [|m items IH]; [done |].
  cbn [Scripts.forEach_log].
  destruct (get_prop m (js "name")) as [[]|] eqn:Hm; try done.
  destruct (Scripts.forEach_log items) as [out t]. cbn [fst] in *.
  intros [H|H].
  - injection H as <-. exists m, s. by repeat split; [left |].
  - destruct (IH H) as (m' & full & Hin & Hg & ->).
    exists m', full. by repeat split; [right |].
Qed.

(** X21.  A response that parses, has no (or a falsy) [error] member
    and an array [models] whose entries all carry a string [name] that
    starts with [models/]: the handler prints the heading and then one
    line per entry, in the order of the array, with the name after the
    prefix.  An empty array gives the heading alone. *)
Theorem models_listed_without_prefix
  (data : jsstring) (json e : jsval) (items : list jsval)
  (shorts : list jsstring) :
  JSON_parse data = Some json ->
  get_prop json (js "error") = Some e ->
  truthy e = false ->
  get_prop json (js "models") = Some (JArr items) ->
  Forall2 (fun m short =>
             get_prop m (js "name") = Some (JStr (Scripts.MODELS ++ short)))
    items shorts ->
  Scripts.on_end data
  = Scripts.AvailableModels :: map Scripts.ModelLine shorts.
Proof.
  intros Hp He Ht Hm Hitems.
  unfold Scripts.on_end, Scripts.try_block. rewrite Hp, He, Ht, Hm.
  cbn [truthy].
  rewrite (forEach_log_names items (map (app Scripts.MODELS) shorts)).
  - f_equal. rewrite map_map. apply map_ext. intros x.
    by rewrite remove_first_prefix.
  - clear -Hitems. induction Hitems; simpl; by constructor.
Qed.

(** X22.  A [models] array with an entry that is [null] or whose [name]
    is no string: the entries before it are listed, the entries after
    it are not, and the response, though it parsed, is reported as a
    parse error with the first 200 code units of the raw data. *)
Theorem bad_entry_reported_as_parse_error
  (data : jsstring) (json e bad : jsval) (pre post : list jsval)
  (names : list jsstring) :
  JSON_parse data = Some json ->
  get_prop json (js "error") = Some e ->
  truthy e = false ->
  get_prop json (js "models") = Some (JArr (pre ++ bad :: post)) ->
  Forall2 (fun m n => get_prop m (js "name") = Some (JStr n)) pre names ->
  (forall n, get_prop bad (js "name") <> Some (JStr n)) ->
  Scripts.on_end data
  = Scripts.AvailableModels
      :: map (fun n => Scripts.ModelLine
                         (Scripts.remove_first Scripts.MODELS n)) names
      ++ [Scripts.ParseError Scripts.TypeError;
          Scripts.RawData (take 200 data)].
Proof.
  intros Hp He Ht Hm Hpre Hbad.
  unfold Scripts.on_end, Scripts.try_block. rewrite Hp, He, Ht, Hm.
  cbn [truthy]. by rewrite (forEach_log_bad pre post bad names Hpre Hbad).
Qed.

(** X24.  Every model line the handler prints comes from an entry of
    the [models] array of a response that parsed and whose [error]
    member is falsy: no name is listed from a response that reports an
    error or that is no JSON. *)
Theorem model_lines_need_clean_response (data n : jsstring) :
  In (Scripts.ModelLine n) (Scripts.on_end data) ->
  exists json e items m full,
    JSON_parse data = Some json
    /\ get_prop json (js "error") = Some e /\ truthy e = false
    /\ get_prop json (js "models") = Some (JArr items)
    /\ In m items /\ get_prop m (js "name") = Some (JStr full)
    /\ n = Scripts.remove_first Scripts.MODELS full.
Proof.
  unfold Scripts.on_end, Scripts.try_block.
  destruct (JSON_parse data) as [json|] eqn:Hp;
    [| simpl; intuition discriminate].
  destruct (get_prop json (js "error")) as [e|] eqn:He;
    [| simpl; intuition discriminate].
  destruct (truthy e) eqn:Ht; [simpl; intuition discriminate |].
  destruct (get_prop json (js "models")) as [ms|] eqn:Hms;
    [| simpl; intuition discriminate].
  destruct (truthy ms); [| simpl; intuition discriminate].
  destruct ms as [| | | | |items|]; try (simpl; intuition discriminate).
  pose proof (forEach_log_line items n) as Hline.
  destruct (Scripts.forEach_log items) as [out t]. cbn [fst] in Hline.
  intros Hin.
  assert (Hout : In (Scripts.ModelLine n) out).
  { destruct t; simpl in Hin.
    - destruct Hin as [Hin|Hin]; [discriminate |].
      apply in_app_or in Hin as [Hin|Hin]; [done |].
      simpl in Hin. intuition discriminate.
    - by destruct Hin as [Hin|Hin]; [discriminate |]. }
  destruct (Hline Hout) as (m & full & Hm & Hg & ->).
  by exists json, e, items, m, full.
Qed.

(** X25.  Responses that are valid JSON and still reported as a parse
    error: the text [null], and a response whose [models] member is
    truthy but no array (the heading is printed first). *)
Theorem valid_json_reported_as_parse_error
  (data : jsstring) (json : jsval) :
  JSON_parse data = Some json ->
  (json = JNull ->
   Scripts.on_end data
   = [Scripts.ParseError Scripts.TypeError; Scripts.RawData (take 200 data)])
  /\ (forall e ms,
        get_prop json (js "error") = Some e -> truthy e = false ->
        get_prop json (js "models") = Some ms -> truthy ms = true ->
        (forall items, ms <> JArr items) ->
        Scripts.on_end data
        = [Scripts.AvailableModels; Scripts.ParseError Scripts.TypeError;
           Scripts.RawData (take 200 data)]).
Proof.
  intros Hp. split.
  - intros ->. unfold Scripts.on_end, Scripts.try_block. by rewrite Hp.
  - intros e ms He Ht Hm Htm Harr.
    unfold Scripts.on_end, Scripts.try_block. rewrite Hp, He, Ht, Hm, Htm.
    destruct ms; try done. by destruct (Harr items).
Qed.

(** ** Instances *)

Lemma redelivery_repeats_witness :
  let ev := Scenario.invoice_event in
  let w := Scenario.healthy in
  let w' := snd (run_job DocumentJob ev w) in
  fst (run_job DocumentJob ev w) = inr (completed (documentId ev))
  /\ fst (run_job DocumentJob ev w') = inr (completed (documentId ev))
  /\ length (mutations (events_of (run_job DocumentJob ev) w')) = 1.
Proof.
  intros ev w w'.
  assert (Hrun : run_job DocumentJob ev w
                 = (inr (completed (documentId ev)), w'))
    by (vm_compute; reflexivity).
  split; [by rewrite Hrun |].
  pose proof (redelivery_repeats _ _ _ _ _ Hrun) as (H1 & _ & _ & H4).
  by split.
Defined.

Lemma listModels_prints_first_line_only_witness :
  Scripts.failed (js "[403 Forbidden]" ++ LF :: js "API key not valid")
  = Scripts.Line (js "FAILED - " ++ js "[403 Forbidden]").
Proof.
  apply (proj2 (listModels_prints_first_line_only (fun _ => inl []))).
  vm_compute. intuition discriminate.
Defined.

Lemma wav_paths_characterised_witness :
  audio_fileType (js "/uploads/call" ++ js ".wav") = js "audio/wav".
Proof.
  apply (proj1 (wav_paths_characterised _)). by exists (js "/uploads/call").
Defined.

Lemma models_listed_without_prefix_witness :
  Scripts.on_end Responses.two_models
  = [Scripts.AvailableModels; Scripts.ModelLine (js "gemini-pro");
     Scripts.ModelLine (js "gemini-1.5-flash")].
Proof.
  apply (models_listed_without_prefix Responses.two_models
           (JObj [(js "models",
                   JArr [Responses.named "models/gemini-pro";
                         Responses.named "models/gemini-1.5-flash"])])
           JUndefined
           [Responses.named "models/gemini-pro";
            Responses.named "models/gemini-1.5-flash"]
           [js "gemini-pro"; js "gemini-1.5-flash"]);
    try (vm_compute; reflexivity).
  repeat constructor.
Defined.

Lemma bad_entry_reported_as_parse_error_witness :
  Scripts.on_end Responses.null_entry
  = [Scripts.AvailableModels; Scripts.ModelLine (js "gemini-pro");
     Scripts.ParseError Scripts.TypeError;
     Scripts.RawData Responses.null_entry].
Proof.
  apply (bad_entry_reported_as_parse_error Responses.null_entry
           (JObj [(js "models",
                   JArr [Responses.named "models/gemini-pro"; JNull;
                         Responses.named "models/gemini-1.5-flash"])])
           JUndefined JNull
           [Responses.named "models/gemini-pro"]
           [Responses.named "models/gemini-1.5-flash"]
           [js "models/gemini-pro"]);
    try (vm_compute; reflexivity).
  - repeat constructor.
  - discriminate.
Defined.

Lemma model_lines_need_clean_response_witness :
  In (Scripts.ModelLine (js "gemini-pro"))
    (Scripts.on_end Responses.two_models)
  /\ exists json, JSON_parse Responses.two_models = Some json.
Proof.
  assert (H : In (Scripts.ModelLine (js "gemini-pro"))
                (Scripts.on_end Responses.two_models))
    by (vm_compute; right; left; reflexivity).
  split; [exact H |].
  destruct (model_lines_need_clean_response _ _ H) as (json & _ & _ & _ & _ & Hp & _).
  by exists json.
Defined.

Lemma valid_json_reported_as_parse_error_witness :
  Scripts.on_end (js "null")
  = [Scripts.ParseError Scripts.TypeError; Scripts.RawData (js "null")]
  /\ Scripts.on_end Responses.models_text
     = [Scripts.AvailableModels; Scripts.ParseError Scripts.TypeError;
        Scripts.RawData Responses.models_text].
Proof.
  split.
  - exact (proj1 (valid_json_reported_as_parse_error (js "null") JNull
                    ltac:(vm_compute; reflexivity)) eq_refl).
  - exact (proj2 (valid_json_reported_as_parse_error Responses.models_text
                    (JObj [(js "models", JStr (js "none"))])
                    ltac:(vm_compute; reflexivity))
             JUndefined (JStr (js "none")) eq_refl eq_refl eq_refl eq_refl
             ltac:(discriminate)).
Defined.
